(** * voice_bot: the conversational turn orchestrator and its signal helpers

  A shallow embedding of the TypeScript sources

    - [src/lib/text-generation.ts]       (language detection, reply generation)
    - [src/app/api/generate-reply]       (the server route with the provider chain)
    - [src/lib/audio-processor.ts]       (intensity, silence detection, PCM decode,
                                          the playback queue)
    - [DeepgramRealtimeClient]           (Float32 to PCM16 encoder)
    - [src/lib/web-speech-stt.ts]        (the recognition client)
    - [src/components/VoiceInterface.tsx] (the orchestrator component)
    - [src/app/api/azure-tts/route.ts]   (the synthesis route)
    - [AzureTTSClient]                   (the synthesis client, in its two versions)
    - [src/app/api/health/route.ts]      (the health check)
    - [src/components/GlowSphere.tsx]    (the frame callback of the sphere)

  JavaScript strings are sequences of UTF-16 code units, numbers that the
  code only compares, adds and scales are exact rationals, the one square
  root is taken in the reals, and [async] functions are finite programs
  that suspend at each [await]. *)

From Stdlib Require Import List Bool Arith ZArith NArith QArith Qround Lia Lra.
From Stdlib Require Import Ascii String DecimalString.
From Stdlib Require Import Reals.
From Stdlib Require Lqa.
Import ListNotations.

Set Implicit Arguments.

(* ===================================================================== *)
(** ** Completion records: a call returns normally or throws *)
(* ===================================================================== *)

Module Js.

(** What a [catch] clause can receive: an [Error] object carrying a message,
    or any other thrown value. *)
Inductive JsError : Type :=
| ErrorObj (message : list N)
| NonError.

Inductive completion (A : Type) : Type :=
| Normal (a : A)
| Throw (e : JsError).
Arguments Normal {A} a.
Arguments Throw {A} e.

Definition bindC {A B} (c : completion A) (f : A -> completion B) : completion B :=
  match c with
  | Normal a => f a
  | Throw e => Throw e
  end.

(** [try { body } catch (error) { handler error }] *)
Definition tryCatch {A} (body : completion A) (handler : JsError -> completion A)
  : completion A :=
  match body with
  | Normal a => Normal a
  | Throw e => handler e
  end.

End Js.

(* ===================================================================== *)
(** ** JavaScript strings *)
(* ===================================================================== *)

Module JsString.

Local Open Scope N_scope.

(** A string value is its sequence of UTF-16 code units; [length], the
    regular expressions without the [u] flag and [trim] all work on these. *)
Definition code_unit := N.
Definition jsstring := list code_unit.

(** Source literals are written as Rocq strings (UTF-8 bytes) and decoded to
    code units once, when a constant is defined. *)
Fixpoint utf16_of_utf8 (bs : list N) : jsstring :=
  match bs with
  | [] => []
  | b0 :: r0 =>
    if b0 <? 0x80 then b0 :: utf16_of_utf8 r0
    else
      match r0 with
      | [] => []
      | b1 :: r1 =>
        if b0 <? 0xE0 then ((b0 mod 32) * 64 + b1 mod 64) :: utf16_of_utf8 r1
        else
          match r1 with
          | [] => []
          | b2 :: r2 =>
            if b0 <? 0xF0
            then ((b0 mod 16) * 4096 + (b1 mod 64) * 64 + b2 mod 64) :: utf16_of_utf8 r2
            else
              match r2 with
              | [] => []
              | b3 :: r3 =>
                let cp := (b0 mod 8) * 262144 + (b1 mod 64) * 4096
                          + (b2 mod 64) * 64 + b3 mod 64 in
                let v := cp - 0x10000 in
                (0xD800 + v / 1024) :: (0xDC00 + v mod 1024) :: utf16_of_utf8 r3
              end
          end
      end
  end.

Definition js (s : string) : jsstring :=
  utf16_of_utf8 (map N_of_ascii (list_ascii_of_string s)).

(** The decimal digits of a natural number, as a template literal prints
    it. *)
Definition decimal (n : N) : jsstring := js (NilZero.string_of_uint (N.to_uint n)).

(** Truthiness of a string: only the empty string is falsy. *)
Definition truthy (s : jsstring) : bool :=
  match s with [] => false | _ :: _ => true end.

(** WhiteSpace and LineTerminator code points, the set [trim] removes. *)
Definition isWhiteSpace (c : code_unit) : bool :=
  ((0x0009 <=? c) && (c <=? 0x000D))
  || (c =? 0x0020) || (c =? 0x00A0) || (c =? 0x1680)
  || ((0x2000 <=? c) && (c <=? 0x200A))
  || (c =? 0x2028) || (c =? 0x2029) || (c =? 0x202F)
  || (c =? 0x205F) || (c =? 0x3000) || (c =? 0xFEFF).

Fixpoint trimStart (s : jsstring) : jsstring :=
  match s with
  | [] => []
  | c :: r => if isWhiteSpace c then trimStart r else s
  end.

Definition trimEnd (s : jsstring) : jsstring := rev (trimStart (rev s)).

(** [String.prototype.trim] *)
Definition trim (s : jsstring) : jsstring := trimEnd (trimStart s).

(** [text.match(re)] for a global regular expression that is a single
    character class: the list of matched characters, or [null] (here
    [None]) when nothing matches. *)
Definition matchAll (cls : code_unit -> bool) (text : jsstring) : option (list code_unit) :=
  match filter cls text with
  | [] => None
  | c :: r => Some (c :: r)
  end.

End JsString.

(* ===================================================================== *)
(** ** JavaScript numbers *)
(* ===================================================================== *)

Module JsNumber.

(** Where the code only compares, adds and scales finite numbers, a number
    is an exact rational. *)
Definition Qltb (x y : Q) : bool := negb (Qle_bool y x).

(** The number value of an array or string length. *)
Definition numberOfNat (n : nat) : Q := inject_Z (Z.of_nat n).

(** Where infinities and NaN can reach the code (the audio samples), a
    number is a finite value, an infinity or NaN.  Finite values are exact
    rationals: the audio code scales samples by powers of two and by
    [0x7fff], which is exact on the sample grids involved. *)
Inductive number : Type :=
| Fin (q : Q)
| PosInf
| NegInf
| NaN.

Definition ltb (x y : number) : bool :=
  match x, y with
  | NaN, _ | _, NaN => false
  | Fin a, Fin b => Qltb a b
  | NegInf, NegInf => false
  | NegInf, _ => true
  | _, PosInf => match x with PosInf => false | _ => true end
  | _, _ => false
  end.

(** [x <= y] as a proposition, false whenever NaN is involved. *)
Definition le (x y : number) : Prop :=
  match x, y with
  | NaN, _ | _, NaN => False
  | Fin a, Fin b => (a <= b)%Q
  | NegInf, _ => True
  | _, PosInf => True
  | _, _ => False
  end.

(** [Math.min] and [Math.max] of two arguments. *)
Definition Math_min (x y : number) : number :=
  match x, y with
  | NaN, _ | _, NaN => NaN
  | _, _ => if ltb y x then y else x
  end.

Definition Math_max (x y : number) : number :=
  match x, y with
  | NaN, _ | _, NaN => NaN
  | _, _ => if ltb x y then y else x
  end.

(** Multiplication by a finite, strictly positive constant. *)
Definition scale (x : number) (c : Q) : number :=
  match x with
  | Fin q => Fin (q * c)
  | other => other
  end.

(** Truncation toward zero. *)
Definition truncate (q : Q) : Z := Z.quot (Qnum q) (Zpos (Qden q)).

(** Two's-complement wrap-around to 16 bits. *)
Definition wrap16 (z : Z) : Z := ((z + 32768) mod 65536 - 32768)%Z.

(** The conversion a store into an [Int16Array] applies. *)
Definition ToInt16 (x : number) : Z :=
  match x with
  | Fin q => wrap16 (truncate q)
  | _ => 0%Z
  end.

End JsNumber.

(* ===================================================================== *)
(** ** src/lib/text-generation.ts *)
(* ===================================================================== *)

Module TextGeneration.

Import Js JsString.
Import JsNumber (Qltb, numberOfNat).

Inductive Language : Type := zh_CN | en_US.

Definition Language_eqb (a b : Language) : bool :=
  match a, b with
  | zh_CN, zh_CN | en_US, en_US => true
  | _, _ => false
  end.

Definition empatheticResponsesEN : list jsstring := Eval vm_compute in
  map js
    [ "I hear you. That sounds tough.";
      "I understand. That must be difficult.";
      "You're not alone in feeling this way.";
      "That's a challenging situation. I'm here to listen.";
      "Thank you for sharing. Your feelings matter.";
      "It's okay to feel this way. You'll get through this.";
      "I'm sorry you're going through this." ]%string.

Definition empatheticResponsesCN : list jsstring := Eval vm_compute in
  map js
    [ "我理解。那一定很难。";
      "你不是一个人。我在这里。";
      "感谢你的分享。你的感受很重要。";
      "这是一个挑战。你会度过这一关。";
      "我很遗憾你要经历这个。";
      "那听起来很困难。坚持下去。";
      "你很勇敢。继续前进。" ]%string.

(** The character class [[一-鿿㐀-䶿]]. *)
Definition chineseCharRegex (c : code_unit) : bool :=
  (((0x4E00 <=? c) && (c <=? 0x9FFF)) || ((0x3400 <=? c) && (c <=? 0x4DBF)))%N.

Definition detectLanguage (text : jsstring) : Language :=
  let chineseChars := matchAll chineseCharRegex text in
  match chineseChars with
  | Some cs =>
    if Qltb 0.3 (numberOfNat (List.length cs) / numberOfNat (List.length text))
    then zh_CN else en_US
  | None => en_US
  end.

(** *** The fetch boundary of the browser side *)

Record Request : Type :=
  { url : jsstring; req_prompt : jsstring; req_systemPrompt : option jsstring }.

(** The parsed body of a reply; [json.text] is [undefined] when absent. *)
Record Json : Type := { text : option jsstring }.

Record Response : Type :=
  { status : N;
    json : completion Json  (* [await response.json()] *) }.

(** [response.ok]: the status is in the range 200-299. *)
Definition ok (r : Response) : bool := ((200 <=? status r) && (status r <=? 299))%N.

Definition languageInstructionCN : jsstring := Eval vm_compute in
  (js "你是一个同情心强的AI助手。根据用户说的话，给出相关的、个性化的回应。"
   ++ [10%N]
   ++ js "使用中文回应。只用1-2句话。直接回应用户的具体情况：").

Definition languageInstructionEN : jsstring := Eval vm_compute in
  (js "You are an empathetic AI assistant. Listen to what the user says and respond directly to their specific situation."
   ++ [10%N]
   ++ js "Keep your response brief - only 1-2 sentences. Be relevant and personal to what they shared."
   ++ [10%N]
   ++ js "User said:").

Definition quote : jsstring := [34%N].

(** [Math.floor(x)] as an array index. *)
Definition floorIndex (x : Q) : nat := Z.to_nat (Qfloor x).

Section GenerateReply.

(** The network, and the value [Math.random()] yields in the fallback. *)
Variable fetch : Request -> completion Response.
Variable random : Q.

Definition generateReply (prompt : jsstring) (systemPrompt : option jsstring)
  : completion (option jsstring) :=
  tryCatch
    (let inputLanguage := detectLanguage prompt in
     let languageInstruction :=
       if Language_eqb inputLanguage zh_CN
       then languageInstructionCN else languageInstructionEN in
     let empatheticPrompt :=
       languageInstruction ++ [10%N] ++ quote ++ prompt ++ quote in
     bindC (fetch {| url := js "/api/generate-reply";
                     req_prompt := empatheticPrompt;
                     req_systemPrompt := systemPrompt |})
       (fun response =>
          if negb (ok response)
          then Throw (ErrorObj (js "Generate reply failed: " ++ decimal (status response)))
          else bindC (json response) (fun j => Normal (text j))))
    (fun error =>
       let inputLanguage := detectLanguage prompt in
       let responses :=
         if Language_eqb inputLanguage zh_CN
         then empatheticResponsesCN else empatheticResponsesEN in
       let randomIndex := floorIndex (random * numberOfNat (List.length responses)) in
       Normal (nth_error responses randomIndex)).

End GenerateReply.

End TextGeneration.

(* ===================================================================== *)
(** ** src/app/api/generate-reply/route.ts: the provider chain *)
(* ===================================================================== *)

Module GenerateReplyRoute.

Import Js JsString.

(** What one upstream HTTP call does: the [fetch] promise rejects, the
    reply is not ok (its text is read for the log), or it is ok and its
    JSON body is parsed and the content path is read ([undefined] when
    the path is absent). *)
Inductive Upstream : Type :=
| Rejected (e : JsError)
| NotOk (status : N) (errText : completion jsstring)
| Ok (content : completion (option jsstring)).

Record Env : Type :=
  { OPENAI_API_KEY : option jsstring;
    GROQ_API_KEY : option jsstring;
    LLM_PROVIDER : option jsstring }.

Record Upstreams : Type :=
  { openaiChat : Upstream;       (* api.openai.com/v1/chat/completions *)
    openaiResponses : Upstream;  (* api.openai.com/v1/responses *)
    groqChat : Upstream          (* api.groq.com/openai/v1/chat/completions *) }.

Definition truthyOpt (v : option jsstring) : bool :=
  match v with Some s => truthy s | None => false end.

(** [toLowerCase] on the letters A-Z; no other code unit lowers to a
    letter of the word the result is compared with. *)
Definition toLowerCase (s : jsstring) : jsstring :=
  map (fun c => if ((65 <=? c) && (c <=? 90))%N then (c + 32)%N else c) s.

Fixpoint jsstring_eqb (a b : jsstring) : bool :=
  match a, b with
  | [], [] => true
  | x :: a', y :: b' => (x =? y)%N && jsstring_eqb a' b'
  | _, _ => false
  end.

(** One attempt inside a [try...] helper: [Normal (Some text)] is the
    early [return text], [Normal None] falls through to what follows. *)
Definition attempt (u : Upstream) : completion (option jsstring) :=
  match u with
  | Rejected e => Throw e
  | Ok content =>
    bindC content (fun text => if truthyOpt text then Normal text else Normal None)
  | NotOk _ errText => bindC errText (fun _ => Normal None)
  end.

Section Route.

Variable env : Env.
Variable up : Upstreams.

Definition tryOpenAI : completion (option jsstring) :=
  if negb (truthyOpt (OPENAI_API_KEY env)) then Normal None
  else
    bindC (attempt (openaiChat up)) (fun first =>
      match first with
      | Some text => Normal (Some text)
      | None =>
        bindC (attempt (openaiResponses up)) (fun second =>
          match second with
          | Some text => Normal (Some text)
          | None => Normal None
          end)
      end).

Definition tryGroq : completion (option jsstring) :=
  if negb (truthyOpt (GROQ_API_KEY env)) then Normal None
  else
    bindC (attempt (groqChat up)) (fun first =>
      match first with
      | Some text => Normal (Some text)
      | None => Normal None
      end).

Definition NextResponse_json (st : N) (body : option jsstring) : TextGeneration.Response :=
  {| TextGeneration.status := st;
     TextGeneration.json := Normal {| TextGeneration.text := body |} |}.

(** [request] is the outcome of [await request.json()]. *)
Definition POST (request : completion TextGeneration.Request) : TextGeneration.Response :=
  let handled :=
    tryCatch
      (bindC request (fun _ =>
         let provider :=
           toLowerCase (match LLM_PROVIDER env with
                        | Some p => if truthy p then p else []
                        | None => []
                        end) in
         bindC
           (if jsstring_eqb provider (js "groq")
            then bindC tryGroq (fun outputText =>
                   if negb (truthyOpt outputText) then tryOpenAI else Normal outputText)
            else bindC tryOpenAI (fun outputText =>
                   if negb (truthyOpt outputText) then tryGroq else Normal outputText))
           (fun outputText =>
              if truthyOpt outputText
              then Normal (NextResponse_json 200 outputText)
              else Normal (NextResponse_json 429 None))))
      (fun error => Normal (NextResponse_json 500 None)) in
  match handled with
  | Normal r => r
  | Throw _ => NextResponse_json 500 None
  end.

End Route.

End GenerateReplyRoute.

(* ===================================================================== *)
(** ** src/lib/audio-processor.ts *)
(* ===================================================================== *)

Module AudioProcessor.

Import JsNumber.

(** *** getAudioIntensity *)

(** The loop [for (i...) sum += dataArray[i] * dataArray[i]]; the sums stay
    far below 2^53, so the additions are exact. *)
Definition sumOfSquares (dataArray : list Z) : Z :=
  fold_left (fun sum x => (sum + x * x)%Z) dataArray 0%Z.

(** [None] is NaN: on an empty frame the mean is 0/0, and NaN passes
    through [Math.sqrt] and [Math.min]. *)
Definition getAudioIntensity (dataArray : list Z) : option R :=
  let sum := sumOfSquares dataArray in
  match dataArray with
  | [] => None
  | _ :: _ =>
    let rms := sqrt (IZR sum / INR (List.length dataArray)) in
    Some (Rmin (rms / 128) 1)
  end.

(** *** Silence detection *)

Record SilenceDetector : Type :=
  { silenceThreshold : Q;
    silenceDuration : Z;            (* milliseconds *)
    lastSoundTime : Z;              (* a [Date.now()] reading *)
    hasDetectedSound : bool;
    silenceCheckIntervalId : option N }.

Definition stopSilenceDetection (d : SilenceDetector) : SilenceDetector :=
  match silenceCheckIntervalId d with
  | Some _ =>
    {| silenceThreshold := silenceThreshold d;
       silenceDuration := silenceDuration d;
       lastSoundTime := lastSoundTime d;
       hasDetectedSound := hasDetectedSound d;
       silenceCheckIntervalId := None |}
  | None => d
  end.

(** [startSilenceDetection(callback, threshold, duration)], called at time
    [now]; [id] is the handle [setInterval] returns. *)
Definition startSilenceDetection (threshold : Q) (duration : Z) (now : Z) (id : N)
  : SilenceDetector :=
  {| silenceThreshold := threshold;
     silenceDuration := duration;
     lastSoundTime := now;
     hasDetectedSound := false;
     silenceCheckIntervalId := Some id |}.

(** The body of the interval callback, run at time [now] when the analyser
    reads [intensity]; the boolean tells whether [onSilenceDetected] was
    invoked. *)
Definition intervalBody (now : Z) (intensity : Q) (d : SilenceDetector)
  : SilenceDetector * bool :=
  if JsNumber.Qltb (silenceThreshold d) intensity then
    ({| silenceThreshold := silenceThreshold d;
        silenceDuration := silenceDuration d;
        lastSoundTime := now;
        hasDetectedSound := true;
        silenceCheckIntervalId := silenceCheckIntervalId d |}, false)
  else if hasDetectedSound d then
    let silenceTime := (now - lastSoundTime d)%Z in
    if (silenceDuration d <=? silenceTime)%Z
    then (stopSilenceDetection d, true)
    else (d, false)
  else (d, false).

(** What the detector remembers of the samples it has seen: the time of
    the last one above the threshold, once there has been one. *)
Definition remembered (d : SilenceDetector) : option Z :=
  if hasDetectedSound d then Some (lastSoundTime d) else None.

(** One expiry of the 150 ms interval: the body runs only while the
    interval has not been cleared. *)
Definition poll (sample : Z * Q) (d : SilenceDetector) : SilenceDetector * bool :=
  match silenceCheckIntervalId d with
  | Some _ => intervalBody (fst sample) (snd sample) d
  | None => (d, false)
  end.

(** The detector over a sequence of polls [(now, intensity)]: for each
    poll, whether the callback was invoked there. *)
Fixpoint polls (samples : list (Z * Q)) (d : SilenceDetector) : list bool :=
  match samples with
  | [] => []
  | s :: rest => let (d', fired) := poll s d in fired :: polls rest d'
  end.

(** *** playAudio: PCM16 to Float32 *)

Record Playback : Type :=
  { audioQueue : list (list number);
    isPlaying : bool;
    nowPlaying : option (list number) }.

Definition int16ToFloat32 (int16Array : list Z) : list number :=
  map (fun x => Fin (inject_Z x / 32768)) int16Array.

Definition processAudioQueue (p : Playback) : Playback :=
  match audioQueue p with
  | [] => {| audioQueue := []; isPlaying := false; nowPlaying := nowPlaying p |}
  | audioData :: rest =>
    {| audioQueue := rest; isPlaying := true; nowPlaying := Some audioData |}
  end.

Definition playAudio (int16Array : list Z) (p : Playback) : Playback :=
  let float32Array := int16ToFloat32 int16Array in
  let p' := {| audioQueue := audioQueue p ++ [float32Array];
               isPlaying := isPlaying p;
               nowPlaying := nowPlaying p |} in
  if negb (isPlaying p') then processAudioQueue p' else p'.

End AudioProcessor.

(* ===================================================================== *)
(** ** DeepgramRealtimeClient: Float32 to PCM16 *)
(* ===================================================================== *)

Module DeepgramRealtime.

Import JsNumber.

(** One iteration of the loop of [float32ToPCM16]. *)
Definition encodeSample (x : number) : Z :=
  let s := Math_max (Fin (-1)) (Math_min (Fin 1) x) in
  ToInt16 (if ltb s (Fin 0) then scale s 32768 else scale s 32767).

Definition float32ToPCM16 (float32Array : list number) : list Z :=
  map encodeSample float32Array.

End DeepgramRealtime.

(* ===================================================================== *)
(** ** src/lib/web-speech-stt.ts *)
(* ===================================================================== *)

Module WebSpeechSTT.

Import Js JsString.

Record Recognition : Type :=
  { continuous : bool;
    interimResults : bool;
    maxAlternatives : N;
    lang : jsstring }.

(** The property assignments of [setupRecognition]. *)
Definition setupRecognition (language : jsstring) (r : Recognition) : Recognition :=
  {| continuous := false;
     interimResults := false;
     maxAlternatives := 5;
     lang := language |}.

Record SpeechRecognitionAlternative : Type := { transcript : jsstring }.

(** A result is the list of its alternatives, best first. *)
Record SpeechRecognitionResult : Type :=
  { alternatives : list SpeechRecognitionAlternative;
    isFinal : bool }.

Record SpeechRecognitionEvent : Type :=
  { resultIndex : nat;
    results : list SpeechRecognitionResult }.

(** The loop over [event.results] from [event.resultIndex]; reading
    [.transcript] of a missing first alternative throws a TypeError. *)
Fixpoint collect (rs : list SpeechRecognitionResult) (collected : jsstring)
  : completion jsstring :=
  match rs with
  | [] => Normal collected
  | r :: rest =>
    match alternatives r with
    | [] => Throw (ErrorObj (js "Cannot read properties of undefined"))
    | alt :: _ => collect rest (collected ++ transcript alt ++ js " ")
    end
  end.

(** [recognition.onresult]: the calls it makes to [onTranscript], as
    [(text, isFinal)] pairs. *)
Definition onresult (event : SpeechRecognitionEvent) : completion (list (jsstring * bool)) :=
  bindC (collect (skipn (resultIndex event) (results event)) [])
    (fun collected =>
       let text := trim collected in
       let isFinal := true in
       if truthy text then Normal [(text, isFinal)] else Normal []).

(** The client object, as far as the orchestrator touches it. *)
Record Client : Type :=
  { isListening : bool;
    hasMediaStream : bool }.

Definition disconnect (c : Client) : Client :=
  {| isListening := false; hasMediaStream := false |}.

End WebSpeechSTT.

(* ===================================================================== *)
(** ** src/components/VoiceInterface.tsx *)
(* ===================================================================== *)

Module VoiceInterface.

Import Js JsString.

Inductive Phase : Type := idle | listening | processing | speaking.

Definition Phase_eqb (a b : Phase) : bool :=
  match a, b with
  | idle, idle | listening, listening
  | processing, processing | speaking, speaking => true
  | _, _ => false
  end.

(** One entry of the transcript log, [{ role, text }]. *)
Record Entry : Type := { role : string; text : jsstring }.

Record AzureTTSClient : Type := { voiceName : jsstring; outputFormat : jsstring }.

(** The one callback the component hands to [setTimeout]:
    [() => clientRef.current?.connect().catch(...)]. *)
Inductive TimerCallback : Type := RestartRecognition.

Record Timer : Type := { due : Z; callback : TimerCallback }.

(** The component's state variables and refs, the browser's pending
    timers and its clock ([Date.now()], in milliseconds). *)
Record Store : Type :=
  { phase : Phase;
    transcripts : list Entry;
    latency : Z;
    isGenerating : bool;
    userSubtitle : jsstring;
    assistantFeedback : jsstring;
    lastMessageTimeRef : Z;
    clientRef : option WebSpeechSTT.Client;
    ttsClientRef : option AzureTTSClient;
    timers : list Timer;
    clock : Z }.

Definition setPhaseIn (p : Phase) (s : Store) : Store :=
  {| phase := p; transcripts := transcripts s; latency := latency s;
     isGenerating := isGenerating s; userSubtitle := userSubtitle s;
     assistantFeedback := assistantFeedback s;
     lastMessageTimeRef := lastMessageTimeRef s; clientRef := clientRef s;
     ttsClientRef := ttsClientRef s; timers := timers s; clock := clock s |}.

Definition setTranscriptsIn (f : list Entry -> list Entry) (s : Store) : Store :=
  {| phase := phase s; transcripts := f (transcripts s); latency := latency s;
     isGenerating := isGenerating s; userSubtitle := userSubtitle s;
     assistantFeedback := assistantFeedback s;
     lastMessageTimeRef := lastMessageTimeRef s; clientRef := clientRef s;
     ttsClientRef := ttsClientRef s; timers := timers s; clock := clock s |}.

Definition setLatencyIn (l : Z) (s : Store) : Store :=
  {| phase := phase s; transcripts := transcripts s; latency := l;
     isGenerating := isGenerating s; userSubtitle := userSubtitle s;
     assistantFeedback := assistantFeedback s;
     lastMessageTimeRef := lastMessageTimeRef s; clientRef := clientRef s;
     ttsClientRef := ttsClientRef s; timers := timers s; clock := clock s |}.

Definition setIsGeneratingIn (b : bool) (s : Store) : Store :=
  {| phase := phase s; transcripts := transcripts s; latency := latency s;
     isGenerating := b; userSubtitle := userSubtitle s;
     assistantFeedback := assistantFeedback s;
     lastMessageTimeRef := lastMessageTimeRef s; clientRef := clientRef s;
     ttsClientRef := ttsClientRef s; timers := timers s; clock := clock s |}.

Definition setUserSubtitleIn (t : jsstring) (s : Store) : Store :=
  {| phase := phase s; transcripts := transcripts s; latency := latency s;
     isGenerating := isGenerating s; userSubtitle := t;
     assistantFeedback := assistantFeedback s;
     lastMessageTimeRef := lastMessageTimeRef s; clientRef := clientRef s;
     ttsClientRef := ttsClientRef s; timers := timers s; clock := clock s |}.

Definition setAssistantFeedbackIn (t : jsstring) (s : Store) : Store :=
  {| phase := phase s; transcripts := transcripts s; latency := latency s;
     isGenerating := isGenerating s; userSubtitle := userSubtitle s;
     assistantFeedback := t;
     lastMessageTimeRef := lastMessageTimeRef s; clientRef := clientRef s;
     ttsClientRef := ttsClientRef s; timers := timers s; clock := clock s |}.

Definition setLastMessageTimeIn (t : Z) (s : Store) : Store :=
  {| phase := phase s; transcripts := transcripts s; latency := latency s;
     isGenerating := isGenerating s; userSubtitle := userSubtitle s;
     assistantFeedback := assistantFeedback s;
     lastMessageTimeRef := t; clientRef := clientRef s;
     ttsClientRef := ttsClientRef s; timers := timers s; clock := clock s |}.

Definition setClientIn (c : option WebSpeechSTT.Client) (s : Store) : Store :=
  {| phase := phase s; transcripts := transcripts s; latency := latency s;
     isGenerating := isGenerating s; userSubtitle := userSubtitle s;
     assistantFeedback := assistantFeedback s;
     lastMessageTimeRef := lastMessageTimeRef s; clientRef := c;
     ttsClientRef := ttsClientRef s; timers := timers s; clock := clock s |}.

Definition setTtsClientIn (c : option AzureTTSClient) (s : Store) : Store :=
  {| phase := phase s; transcripts := transcripts s; latency := latency s;
     isGenerating := isGenerating s; userSubtitle := userSubtitle s;
     assistantFeedback := assistantFeedback s;
     lastMessageTimeRef := lastMessageTimeRef s; clientRef := clientRef s;
     ttsClientRef := c; timers := timers s; clock := clock s |}.

Definition setTimersIn (ts : list Timer) (s : Store) : Store :=
  {| phase := phase s; transcripts := transcripts s; latency := latency s;
     isGenerating := isGenerating s; userSubtitle := userSubtitle s;
     assistantFeedback := assistantFeedback s;
     lastMessageTimeRef := lastMessageTimeRef s; clientRef := clientRef s;
     ttsClientRef := ttsClientRef s; timers := ts; clock := clock s |}.

Definition setClockIn (t : Z) (s : Store) : Store :=
  {| phase := phase s; transcripts := transcripts s; latency := latency s;
     isGenerating := isGenerating s; userSubtitle := userSubtitle s;
     assistantFeedback := assistantFeedback s;
     lastMessageTimeRef := lastMessageTimeRef s; clientRef := clientRef s;
     ttsClientRef := ttsClientRef s; timers := timers s; clock := t |}.

(** What the component does that is visible outside the state record. *)
Inductive Action : Type :=
| SetPhase (p : Phase)
| GenerateReplyCalled (prompt : jsstring)
| GenerateReplySettled (outcome : completion jsstring)
| SynthesizeCalled (client : AzureTTSClient) (reply : jsstring)
| SynthesizeSettled (outcome : completion unit)
| RecognitionDisconnect
| TimeoutSet (delay : Z) (cb : TimerCallback)
| RecognitionConnect.

(** *** Async functions

    An [async] function is a finite program over the store that returns,
    throws, or suspends at an [await] of one of the two calls the
    component awaits. *)
Inductive Async (A : Type) : Type :=
| Return (c : completion A)
| Get (k : Store -> Async A)
| Put (s : Store) (k : Async A)
| Emit (a : Action) (k : Async A)
| AwaitGenerateReply (prompt : jsstring) (k : completion jsstring -> Async A)
| AwaitSynthesizeAndPlay (client : AzureTTSClient) (reply : jsstring)
                         (k : completion unit -> Async A).
Arguments Return {A} c.
Arguments Get {A} k.
Arguments Put {A} s k.
Arguments Emit {A} a k.
Arguments AwaitGenerateReply {A} prompt k.
Arguments AwaitSynthesizeAndPlay {A} client reply k.

Fixpoint bind {A B} (p : Async A) (f : A -> Async B) : Async B :=
  match p with
  | Return (Normal a) => f a
  | Return (Throw e) => Return (Throw e)
  | Get k => Get (fun s => bind (k s) f)
  | Put s k => Put s (bind k f)
  | Emit a k => Emit a (bind k f)
  | AwaitGenerateReply q k => AwaitGenerateReply q (fun c => bind (k c) f)
  | AwaitSynthesizeAndPlay cl r k => AwaitSynthesizeAndPlay cl r (fun c => bind (k c) f)
  end.

(** [try { body } catch (error) { handler error }] *)
Fixpoint tryCatchA {A} (body : Async A) (handler : JsError -> Async A) : Async A :=
  match body with
  | Return (Normal a) => Return (Normal a)
  | Return (Throw e) => handler e
  | Get k => Get (fun s => tryCatchA (k s) handler)
  | Put s k => Put s (tryCatchA k handler)
  | Emit a k => Emit a (tryCatchA k handler)
  | AwaitGenerateReply q k => AwaitGenerateReply q (fun c => tryCatchA (k c) handler)
  | AwaitSynthesizeAndPlay cl r k =>
    AwaitSynthesizeAndPlay cl r (fun c => tryCatchA (k c) handler)
  end.

(** [try { body } finally { cleanup }] *)
Fixpoint tryFinally {A} (body : Async A) (cleanup : Async unit) : Async A :=
  match body with
  | Return c => bind cleanup (fun _ => Return c)
  | Get k => Get (fun s => tryFinally (k s) cleanup)
  | Put s k => Put s (tryFinally k cleanup)
  | Emit a k => Emit a (tryFinally k cleanup)
  | AwaitGenerateReply q k => AwaitGenerateReply q (fun c => tryFinally (k c) cleanup)
  | AwaitSynthesizeAndPlay cl r k =>
    AwaitSynthesizeAndPlay cl r (fun c => tryFinally (k c) cleanup)
  end.

Definition ret {A} (a : A) : Async A := Return (Normal a).
Definition modify (f : Store -> Store) : Async unit := Get (fun s => Put (f s) (ret tt)).
Definition emit (a : Action) : Async unit := Emit a (ret tt).
Definition read {A} (f : Store -> A) : Async A := Get (fun s => ret (f s)).

Declare Scope async_scope.
Delimit Scope async_scope with async.
Notation "x <- p ;; q" := (bind p (fun x => q))
  (at level 61, p at next level, right associativity) : async_scope.
Notation "p ;; q" := (bind p (fun _ => q))
  (at level 61, right associativity) : async_scope.
Local Open Scope async_scope.

(** The state setters and the calls across the component boundary.  A
    setter takes effect where it is called: React applies the updates of a
    handler at the next render, in the order of the calls, and the handlers
    read state only through refs and updater functions. *)
Definition setPhase (p : Phase) : Async unit := modify (setPhaseIn p) ;; emit (SetPhase p).
Definition setTranscripts (f : list Entry -> list Entry) : Async unit :=
  modify (setTranscriptsIn f).
Definition setLatency (l : Z) : Async unit := modify (setLatencyIn l).
Definition setIsGenerating (b : bool) : Async unit := modify (setIsGeneratingIn b).
Definition setUserSubtitle (t : jsstring) : Async unit := modify (setUserSubtitleIn t).
Definition setAssistantFeedback (t : jsstring) : Async unit :=
  modify (setAssistantFeedbackIn t).
Definition Date_now : Async Z := read clock.

Definition generateReply (prompt : jsstring) : Async jsstring :=
  AwaitGenerateReply prompt (fun c => Return c).
Definition synthesizeAndPlay (client : AzureTTSClient) (reply : jsstring) : Async unit :=
  AwaitSynthesizeAndPlay client reply (fun c => Return c).

Definition setTimeout (cb : TimerCallback) (delay : Z) : Async unit :=
  modify (fun s => setTimersIn (timers s ++ [{| due := clock s + delay; callback := cb |}]) s) ;;
  emit (TimeoutSet delay cb).

(** [prev.slice(0, -1)] *)
Definition slice_0_m1 {A} (prev : list A) : list A := removelast prev.

(** [prev[prev.length - 1]], [undefined] on the empty array. *)
Definition lastOf {A} (prev : list A) : option A :=
  nth_error prev (List.length prev - 1).

Definition ellipsis : jsstring := Eval vm_compute in js " …".
Definition audioFailed : jsstring := Eval vm_compute in js " (audio failed)".
Definition sorryPrefix : jsstring := Eval vm_compute in js "Sorry, I ran into an issue: ".
Definition unknownError : jsstring := Eval vm_compute in js "Unknown error".
Definition voiceCN : jsstring := Eval vm_compute in js "zh-CN-YunyangNeural".
Definition voiceEN : jsstring := Eval vm_compute in js "en-US-JennyNeural".
Definition mp3Format : jsstring := Eval vm_compute in js "audio-24khz-48kbitrate-mono-mp3".

(** The voice chosen for a reply, as in [generateAndSpeak]. *)
Definition voiceName_for (responseLanguage : TextGeneration.Language) : jsstring :=
  if TextGeneration.Language_eqb responseLanguage TextGeneration.zh_CN
  then voiceCN else voiceEN.

Definition generateAndSpeak (userText : jsstring) : Async unit :=
  tryFinally
    (tryCatchA
       (setIsGenerating true ;;
        reply <- generateReply userText ;;
        setAssistantFeedback reply ;;
        setTranscripts (fun prev => prev ++ [{| role := "assistant"; text := reply |}]) ;;
        tts <- read ttsClientRef ;;
        match tts with
        | Some _ =>
          setPhase speaking ;;
          tryCatchA
            (let responseLanguage := TextGeneration.detectLanguage reply in
             let voiceName := voiceName_for responseLanguage in
             let client := {| voiceName := voiceName; outputFormat := mp3Format |} in
             modify (setTtsClientIn (Some client)) ;;
             synthesizeAndPlay client reply)
            (fun error =>
               setTranscripts (fun prev =>
                 slice_0_m1 prev
                 ++ [{| role := "assistant"; text := reply ++ audioFailed |}]))
        | None => ret tt
        end)
       (fun error =>
          let errorMsg :=
            match error with
            | ErrorObj message => message
            | NonError => unknownError
            end in
          setAssistantFeedback (sorryPrefix ++ errorMsg) ;;
          setTranscripts (fun prev =>
            prev ++ [{| role := "assistant"; text := sorryPrefix ++ errorMsg |}])))
    (setIsGenerating false ;;
     setPhase idle ;;
     client <- read clientRef ;;
     match client with
     | Some c =>
       modify (setClientIn (Some (WebSpeechSTT.disconnect c))) ;;
       emit RecognitionDisconnect ;;
       setTimeout RestartRecognition 500
     | None => ret tt
     end).

Definition handleTranscript (text : jsstring) (isFinal : bool) : Async unit :=
  now <- Date_now ;;
  lastMessageTime <- read lastMessageTimeRef ;;
  setLatency (now - lastMessageTime) ;;
  modify (setLastMessageTimeIn now) ;;
  setUserSubtitle text ;;
  setTranscripts (fun prev =>
    let entry := {| role := "user"; text := if isFinal then text else text ++ ellipsis |} in
    match lastOf prev with
    | Some last =>
      if String.eqb (role last) "user"
      then slice_0_m1 prev ++ [entry]
      else prev ++ [entry]
    | None => prev ++ [entry]
    end) ;;
  if negb isFinal then setPhase listening
  else
    setPhase processing ;;
    generateAndSpeak text.

(** The body of a timer callback. *)
Definition runCallback (cb : TimerCallback) : Async unit :=
  match cb with
  | RestartRecognition =>
    client <- read clientRef ;;
    match client with
    | Some _ => emit RecognitionConnect
    | None => ret tt
    end
  end.

(** *** Running async functions *)

(** Where a program stands when control returns to the event loop. *)
Inductive Suspended (A : Type) : Type :=
| Finished (c : completion A)
| OnGenerateReply (prompt : jsstring) (k : completion jsstring -> Async A)
| OnSynthesizeAndPlay (client : AzureTTSClient) (reply : jsstring)
                      (k : completion unit -> Async A).
Arguments Finished {A} c.
Arguments OnGenerateReply {A} prompt k.
Arguments OnSynthesizeAndPlay {A} client reply k.

Definition Trace : Type := list (Z * Action).

(** Run a program up to its first [await]; every action is stamped with
    the clock at which it happens. *)
Fixpoint runSync {A} (p : Async A) (s : Store) : Store * Trace * Suspended A :=
  match p with
  | Return c => (s, [], Finished c)
  | Get k => runSync (k s) s
  | Put s' k => runSync k s'
  | Emit a k =>
    let '(s1, tr, r) := runSync k s in (s1, (clock s, a) :: tr, r)
  | AwaitGenerateReply q k =>
    (s, [(clock s, GenerateReplyCalled q)], OnGenerateReply q k)
  | AwaitSynthesizeAndPlay cl r k =>
    (s, [(clock s, SynthesizeCalled cl r)], OnSynthesizeAndPlay cl r k)
  end.

Definition storeAfter {A} (p : Async A) (s : Store) : Store := fst (fst (runSync p s)).
Definition traceOf {A} (p : Async A) (s : Store) : Trace := snd (fst (runSync p s)).
Definition suspensionOf {A} (p : Async A) (s : Store) : Suspended A := snd (runSync p s).

(** A sequence of transcript events, each handled up to its first
    [await]: the store at the end and everything that was done. *)
Fixpoint handleAll (events : list (jsstring * bool)) (s : Store) : Store * Trace :=
  match events with
  | [] => (s, [])
  | (text, isFinal) :: rest =>
    let '(s', tr) := handleAll rest (storeAfter (handleTranscript text isFinal) s) in
    (s', traceOf (handleTranscript text isFinal) s ++ tr)
  end.

(** The rest of the world during an [await]: how the awaited call settles,
    and the store the continuation finds (other callbacks may have run,
    and time has passed). *)
Record World : Type :=
  { generateReplyW : jsstring -> Store -> completion jsstring * Store;
    synthesizeAndPlayW : AzureTTSClient -> jsstring -> Store -> completion unit * Store }.

(** Run a program to its end in a given world. *)
Fixpoint drive {A} (w : World) (p : Async A) (s : Store) : Store * Trace * completion A :=
  match p with
  | Return c => (s, [], c)
  | Get k => drive w (k s) s
  | Put s' k => drive w k s'
  | Emit a k =>
    let '(s1, tr, c) := drive w k s in (s1, (clock s, a) :: tr, c)
  | AwaitGenerateReply q k =>
    let '(o, s') := generateReplyW w q s in
    let '(s1, tr, c) := drive w (k o) s' in
    (s1, (clock s, GenerateReplyCalled q) :: (clock s', GenerateReplySettled o) :: tr, c)
  | AwaitSynthesizeAndPlay cl r k =>
    let '(o, s') := synthesizeAndPlayW w cl r s in
    let '(s1, tr, c) := drive w (k o) s' in
    (s1, (clock s, SynthesizeCalled cl r) :: (clock s', SynthesizeSettled o) :: tr, c)
  end.

(** The timer phase of the event loop at time [now]: the timers that are
    due run in the order they were set, the others stay. *)
Definition isDue (now : Z) (t : Timer) : bool := (due t <=? now)%Z.

Definition ready (now : Z) (s : Store) : list Timer := filter (isDue now) (timers s).
Definition waiting (now : Z) (s : Store) : list Timer :=
  filter (fun t => negb (isDue now t)) (timers s).

Definition expire (now : Z) (s : Store) : Store * Trace :=
  fold_left
    (fun acc t =>
       let '(st, tr, _) := runSync (runCallback (callback t)) (fst acc) in
       (st, snd acc ++ tr))
    (ready now s)
    (setClockIn now (setTimersIn (waiting now s) s), []).

Definition turnStore (w : World) (userText : jsstring) (s : Store) : Store :=
  fst (fst (drive w (generateAndSpeak userText) s)).
Definition turnTrace (w : World) (userText : jsstring) (s : Store) : Trace :=
  snd (fst (drive w (generateAndSpeak userText) s)).
Definition turnResult (w : World) (userText : jsstring) (s : Store) : completion unit :=
  snd (drive w (generateAndSpeak userText) s).

(** The event loop of the page, as far as transcripts go: the store and
    the turns that are waiting on an [await]. *)
Record Machine : Type :=
  { store : Store;
    outstanding : list (Suspended unit) }.

Definition deliverTranscript (text : jsstring) (isFinal : bool) (m : Machine) : Machine :=
  let '(s, _, susp) := runSync (handleTranscript text isFinal) (store m) in
  {| store := s;
     outstanding :=
       match susp with
       | Finished _ => outstanding m
       | _ => outstanding m ++ [susp]
       end |}.

(** *** The visual feedback: state, refs, the listening effect, render *)

Record Visual : Type :=
  { brightness : Q;
    bloom : Q;
    prevVisualPhaseRef : Phase;
    lastListeningAudioRef : Q;
    lastListeningBrightnessRef : Q;
    lastListeningBloomRef : Q }.

(** A state setter keeps the old value when the new one is the same
    number (no re-render is scheduled then). *)
Definition setNumber (new old : Q) : Q := if Qeq_bool new old then old else new.

(** The effect with dependencies [[phase, audioIntensity]]. *)
Definition listeningEffect (phase : Phase) (audioIntensity : Q) (v : Visual) : Visual :=
  if Phase_eqb phase listening then
    let dynamicBloom := 1.5 + audioIntensity * 4.5 in
    let dynamicBrightness := 1.0 + audioIntensity * 2.0 in
    {| brightness := setNumber dynamicBrightness (brightness v);
       bloom := setNumber dynamicBloom (bloom v);
       prevVisualPhaseRef := phase;
       lastListeningAudioRef := audioIntensity;
       lastListeningBrightnessRef := dynamicBrightness;
       lastListeningBloomRef := dynamicBloom |}
  else
    {| brightness := setNumber 1.0 (brightness v);
       bloom := setNumber 1.0 (bloom v);
       prevVisualPhaseRef := prevVisualPhaseRef v;
       lastListeningAudioRef := lastListeningAudioRef v;
       lastListeningBrightnessRef := lastListeningBrightnessRef v;
       lastListeningBloomRef := lastListeningBloomRef v |}.

Definition frozen (phase : Phase) : bool :=
  Phase_eqb phase speaking || Phase_eqb phase processing.

Definition getPhaseNumber (phase : Phase) (v : Visual) : Q :=
  let effectivePhase := if frozen phase then prevVisualPhaseRef v else phase in
  match effectivePhase with
  | listening => 1
  | processing => 1.5
  | _ => 0
  end.

Definition effectiveAudioIntensity (phase : Phase) (audioIntensity : Q) (v : Visual) : Q :=
  if frozen phase then lastListeningAudioRef v else audioIntensity.
Definition effectiveBrightness (phase : Phase) (v : Visual) : Q :=
  if frozen phase then lastListeningBrightnessRef v else brightness v.
Definition effectiveBloom (phase : Phase) (v : Visual) : Q :=
  if frozen phase then lastListeningBloomRef v else bloom v.

(** What one render hands to [GlowSphere] and [Bloom]. *)
Record Frame : Type :=
  { sphereAudioIntensity : Q;
    spherePhase : Q;
    sphereBrightness : Q;
    bloomIntensity : Q }.

Definition render (phase : Phase) (audioIntensity : Q) (v : Visual) : Frame :=
  {| sphereAudioIntensity := effectiveAudioIntensity phase audioIntensity v;
     spherePhase := getPhaseNumber phase v;
     sphereBrightness := effectiveBrightness phase v;
     bloomIntensity := effectiveBloom phase v |}.

(** A state update that reaches the component: a phase transition or a
    new intensity sample. *)
Inductive Update : Type :=
| UpdatePhase (p : Phase)
| UpdateAudioIntensity (a : Q).

Definition applyUpdate (st : Phase * Q) (u : Update) : Phase * Q :=
  match u with
  | UpdatePhase p => (p, snd st)
  | UpdateAudioIntensity a => (fst st, setNumber a (snd st))
  end.

Definition applyBatch (batch : list Update) (st : Phase * Q) : Phase * Q :=
  fold_left applyUpdate batch st.

(** The component between two commits: the two state variables the effect
    depends on, the rest of the visual state, and the dependency values
    the effect last ran with. *)
Record View : Type :=
  { viewPhase : Phase;
    audioIntensity : Q;
    visual : Visual;
    effectDeps : Phase * Q }.

Definition depsEqb (a b : Phase * Q) : bool :=
  Phase_eqb (fst a) (fst b) && Qeq_bool (snd a) (snd b).

(** One commit: the batched updates are applied, the component renders,
    the effect runs if a dependency changed, and the component renders
    again if the effect changed [brightness] or [bloom]. *)
Definition commit (batch : list Update) (vw : View) : View * list Frame :=
  let st := applyBatch batch (viewPhase vw, audioIntensity vw) in
  let ph := fst st in
  let ai := snd st in
  let first := render ph ai (visual vw) in
  if depsEqb (ph, ai) (effectDeps vw) then
    ({| viewPhase := ph; audioIntensity := ai; visual := visual vw;
        effectDeps := effectDeps vw |}, [first])
  else
    let v' := listeningEffect ph ai (visual vw) in
    ({| viewPhase := ph; audioIntensity := ai; visual := v'; effectDeps := (ph, ai) |},
     if Qeq_bool (brightness v') (brightness (visual vw))
        && Qeq_bool (bloom v') (bloom (visual vw))
     then [first]
     else [first; render ph ai v']).

(** The component after its mount: every [useState] and [useRef] holds its
    initial value and the effect has run once, in phase idle. *)
Definition mounted : View :=
  {| viewPhase := idle;
     audioIntensity := 0;
     visual := {| brightness := 1.0; bloom := 1.0;
                  prevVisualPhaseRef := idle;
                  lastListeningAudioRef := 0;
                  lastListeningBrightnessRef := 1.0;
                  lastListeningBloomRef := 1.0 |};
     effectDeps := (idle, 0) |}.

Definition runCommits (batches : list (list Update)) (vw : View) : View :=
  fold_left (fun v b => fst (commit b v)) batches vw.

(** *** The freeze, in the words of the specification

    The audio intensity the component held at the last commit whose phase
    was listening, over a history of batches that starts from the state
    [(phase, intensity)]; [None] while there has been none. *)
Fixpoint lastListeningIntensity (st : Phase * Q) (seen : option Q)
         (batches : list (list Update)) : option Q :=
  match batches with
  | [] => seen
  | b :: rest =>
    let st' := applyBatch b st in
    lastListeningIntensity st'
      (if Phase_eqb (fst st') listening then Some (snd st') else seen) rest
  end.

(** The feedback values computed from an intensity while listening, and
    the values of the refs before any listening. *)
Definition feedbackOf (seen : option Q) : Q * Q * Q :=
  match seen with
  | Some a => (a, 1.0 + a * 2.0, 1.5 + a * 4.5)
  | None => (0, 1.0, 1.0)
  end.

End VoiceInterface.

(* ===================================================================== *)
(** ** The properties, in the words of the specification *)
(* ===================================================================== *)

Module Spec.

Import JsString TextGeneration.
Import JsNumber (Qltb, numberOfNat).

(** The CJK ranges U+4E00-U+9FFF and U+3400-U+4DBF. *)
Definition cjkRanges : list (N * N) := [(0x4E00, 0x9FFF); (0x3400, 0x4DBF)]%N.

Definition inCjkRanges (c : code_unit) : bool :=
  existsb (fun r => (fst r <=? c)%N && (c <=? snd r)%N) cjkRanges.

Fixpoint cjkCount (text : jsstring) : nat :=
  match text with
  | [] => 0
  | c :: rest => (if inCjkRanges c then 1 else 0) + cjkCount rest
  end.

(** The fraction of the characters of [text] that fall in the CJK ranges
    (0 for the empty text). *)
Definition cjkFraction (text : jsstring) : Q :=
  numberOfNat (cjkCount text) / numberOfNat (List.length text).

(** The canned-response table of a language. *)
Definition cannedResponses (l : Language) : list jsstring :=
  match l with
  | zh_CN => empatheticResponsesCN
  | en_US => empatheticResponsesEN
  end.

(** A call to the generation endpoint fails: the HTTP call errors, or it
    returns a response that is not ok. *)
Definition httpFails (c : Js.completion Response) : Prop :=
  match c with
  | Js.Throw _ => True
  | Js.Normal r => ok r = false
  end.

(** A provider of the chain fails: its helper throws or yields no text. *)
Definition providerFails (c : Js.completion (option jsstring)) : Prop :=
  match c with
  | Js.Normal (Some _) => False
  | _ => True
  end.

(** *** Audio intensity *)

(** The sum of the squares of a frame, and its root mean square. *)
Fixpoint squares (frame : list Z) : R :=
  match frame with
  | [] => 0
  | x :: rest => IZR x * IZR x + squares rest
  end.

Definition rootMeanSquare (frame : list Z) : R :=
  sqrt (squares frame / INR (List.length frame)).

(** *** Silence detection *)

Section Silence.

Variable threshold : Q.
Variable duration : Z.

Definition aboveThreshold (sample : Z * Q) : Prop := (threshold < snd sample)%Q.

(** The time of the last sample above the threshold, starting from what
    was known before the samples. *)
Definition lastLoudFrom (known : option Z) (samples : list (Z * Q)) : option Z :=
  fold_left
    (fun acc s => if Qltb threshold (snd s) then Some (fst s) else acc)
    samples known.

(** At poll [i], some sample up to and including it has been above the
    threshold, and the time elapsed since the last such sample is at
    least the silence duration. *)
Definition silenceReachedFrom (known : option Z) (samples : list (Z * Q)) (i : nat) : Prop :=
  exists now x t,
    nth_error samples i = Some (now, x)
    /\ lastLoudFrom known (firstn (S i) samples) = Some t
    /\ (duration <= now - t)%Z.

Definition silenceReached := silenceReachedFrom None.

End Silence.

(** *** The transcript log *)

Definition userEntry (t : jsstring) : VoiceInterface.Entry :=
  {| VoiceInterface.role := "user"; VoiceInterface.text := t |}.

(** The log without its last entry when that entry is a user entry. *)
Definition withoutTrailingUser (log : list VoiceInterface.Entry)
  : list VoiceInterface.Entry :=
  match rev log with
  | e :: before =>
    if String.eqb (VoiceInterface.role e) "user" then rev before else log
  | [] => log
  end.

Definition entersProcessing (a : VoiceInterface.Action) : bool :=
  match a with
  | VoiceInterface.SetPhase VoiceInterface.processing => true
  | _ => false
  end.

Definition actions (tr : VoiceInterface.Trace) : list VoiceInterface.Action :=
  map snd tr.

(** *** One turn, as a sequence of actions *)

(** How a turn went: generation failed, or it gave a reply that was not
    spoken (no synthesis client), or the reply was handed to synthesis,
    which settled one way or the other. *)
Inductive TurnOutcome : Type :=
| ReplyFailed (e : Js.JsError)
| ReplyUnspoken (reply : jsstring)
| ReplySpoken (reply : jsstring) (client : VoiceInterface.AzureTTSClient)
              (settled : Js.completion unit).

Definition turnActions (userText : jsstring) (o : TurnOutcome) (restart : bool)
  : list VoiceInterface.Action :=
  VoiceInterface.GenerateReplyCalled userText
  :: match o with
     | ReplyFailed e => [VoiceInterface.GenerateReplySettled (Js.Throw e)]
     | ReplyUnspoken reply => [VoiceInterface.GenerateReplySettled (Js.Normal reply)]
     | ReplySpoken reply client settled =>
       [VoiceInterface.GenerateReplySettled (Js.Normal reply);
        VoiceInterface.SetPhase VoiceInterface.speaking;
        VoiceInterface.SynthesizeCalled client reply;
        VoiceInterface.SynthesizeSettled settled]
     end
  ++ VoiceInterface.SetPhase VoiceInterface.idle
  :: (if restart
      then [VoiceInterface.RecognitionDisconnect;
            VoiceInterface.TimeoutSet 500 VoiceInterface.RestartRecognition]
      else []).

(** *** The freeze of the visual feedback *)

(** A frame carries the feedback values [(intensity, brightness, bloom)];
    numbers are compared as numbers. *)
Definition feedbackMatches (f : VoiceInterface.Frame) (values : Q * Q * Q) : Prop :=
  (VoiceInterface.sphereAudioIntensity f == fst (fst values))%Q
  /\ (VoiceInterface.sphereBrightness f == snd (fst values))%Q
  /\ (VoiceInterface.bloomIntensity f == snd values)%Q.

(** The refs that hold the frozen values. *)
Definition frozenRefs (v : VoiceInterface.Visual) : Q * Q * Q :=
  (VoiceInterface.lastListeningAudioRef v,
   VoiceInterface.lastListeningBrightnessRef v,
   VoiceInterface.lastListeningBloomRef v).

(** Two triples of numbers that are equal as numbers. *)
Definition sameValues (x y : Q * Q * Q) : Prop :=
  (fst (fst x) == fst (fst y))%Q /\ (snd (fst x) == snd (fst y))%Q /\ (snd x == snd y)%Q.

(** The intensity seen at the last listening commit, one commit later. *)
Definition seenAfter (st : VoiceInterface.Phase * Q) (seen : option Q) : option Q :=
  if VoiceInterface.Phase_eqb (fst st) VoiceInterface.listening
  then Some (snd st) else seen.

(** What holds of the component between commits, given the intensity
    [seen] at the last commit in phase listening. *)
Definition consistent (vw : VoiceInterface.View) (seen : option Q) : Prop :=
  fst (VoiceInterface.effectDeps vw) = VoiceInterface.viewPhase vw
  /\ (snd (VoiceInterface.effectDeps vw) == VoiceInterface.audioIntensity vw)%Q
  /\ sameValues (frozenRefs (VoiceInterface.visual vw)) (VoiceInterface.feedbackOf seen)
  /\ (VoiceInterface.viewPhase vw = VoiceInterface.listening ->
      exists a, seen = Some a /\ (a == VoiceInterface.audioIntensity vw)%Q).

(** A listening phase with one loud sample, then the turn is processed
    and spoken while the intensity falls back. *)
Definition sampleHistory : list (list VoiceInterface.Update) :=
  [ [VoiceInterface.UpdatePhase VoiceInterface.listening];
    [VoiceInterface.UpdateAudioIntensity 0.5];
    [VoiceInterface.UpdatePhase VoiceInterface.processing];
    [VoiceInterface.UpdateAudioIntensity 0.1] ].

(** The same turn to its end: the reply is spoken and the phase is back
    to idle, while the microphone is still sampled. *)
Definition idleHistory : list (list VoiceInterface.Update) :=
  sampleHistory ++ [ [VoiceInterface.UpdatePhase VoiceInterface.speaking];
                     [VoiceInterface.UpdatePhase VoiceInterface.idle] ].

(** Between commits the effect has run with the current phase and
    intensity: brightness and bloom follow the intensity in phase
    listening and are 1 in every other phase. *)
Definition glowSettled (vw : VoiceInterface.View) : Prop :=
  fst (VoiceInterface.effectDeps vw) = VoiceInterface.viewPhase vw
  /\ (snd (VoiceInterface.effectDeps vw) == VoiceInterface.audioIntensity vw)%Q
  /\ (VoiceInterface.brightness (VoiceInterface.visual vw)
      == if VoiceInterface.Phase_eqb (VoiceInterface.viewPhase vw) VoiceInterface.listening
         then 1.0 + VoiceInterface.audioIntensity vw * 2.0 else 1.0)%Q
  /\ (VoiceInterface.bloom (VoiceInterface.visual vw)
      == if VoiceInterface.Phase_eqb (VoiceInterface.viewPhase vw) VoiceInterface.listening
         then 1.5 + VoiceInterface.audioIntensity vw * 4.5 else 1.0)%Q.

(** The recognition event of one result with one alternative. *)
Definition sampleEvent : WebSpeechSTT.SpeechRecognitionEvent :=
  {| WebSpeechSTT.resultIndex := 0;
     WebSpeechSTT.results :=
       [ {| WebSpeechSTT.alternatives :=
              [ {| WebSpeechSTT.transcript := js " hello there" |} ];
            WebSpeechSTT.isFinal := true |} ] |}.

(** *** Sample worlds and stores *)

(** A page that has just connected: idle, empty log, both clients set. *)
Definition freshStore : VoiceInterface.Store :=
  {| VoiceInterface.phase := VoiceInterface.idle;
     VoiceInterface.transcripts := [];
     VoiceInterface.latency := 0;
     VoiceInterface.isGenerating := false;
     VoiceInterface.userSubtitle := [];
     VoiceInterface.assistantFeedback := [];
     VoiceInterface.lastMessageTimeRef := 0;
     VoiceInterface.clientRef :=
       Some {| WebSpeechSTT.isListening := true; WebSpeechSTT.hasMediaStream := true |};
     VoiceInterface.ttsClientRef :=
       Some {| VoiceInterface.voiceName := VoiceInterface.voiceEN;
               VoiceInterface.outputFormat := VoiceInterface.mp3Format |};
     VoiceInterface.timers := [];
     VoiceInterface.clock := 1000 |}.

(** A store in the middle of a turn: the assistant is speaking. *)
Definition speakingStore : VoiceInterface.Store :=
  {| VoiceInterface.phase := VoiceInterface.speaking;
     VoiceInterface.transcripts :=
       [ {| VoiceInterface.role := "user"; VoiceInterface.text := js "hello there" |};
         {| VoiceInterface.role := "assistant"; VoiceInterface.text := js "I hear you." |} ];
     VoiceInterface.latency := 0;
     VoiceInterface.isGenerating := true;
     VoiceInterface.userSubtitle := js "hello there";
     VoiceInterface.assistantFeedback := js "I hear you.";
     VoiceInterface.lastMessageTimeRef := 1000;
     VoiceInterface.clientRef :=
       Some {| WebSpeechSTT.isListening := false; WebSpeechSTT.hasMediaStream := true |};
     VoiceInterface.ttsClientRef :=
       Some {| VoiceInterface.voiceName := VoiceInterface.voiceEN;
               VoiceInterface.outputFormat := VoiceInterface.mp3Format |};
     VoiceInterface.timers := [];
     VoiceInterface.clock := 2000 |}.

(** A world in which generation answers [reply] after 800 ms and the
    synthesis plays for 1500 ms, with nothing else happening meanwhile. *)
Definition quietWorld (reply : jsstring) : VoiceInterface.World :=
  {| VoiceInterface.generateReplyW :=
       fun _ st => (Js.Normal reply,
                    VoiceInterface.setClockIn (VoiceInterface.clock st + 800) st);
     VoiceInterface.synthesizeAndPlayW :=
       fun _ _ st => (Js.Normal tt,
                      VoiceInterface.setClockIn (VoiceInterface.clock st + 1500) st) |}.

End Spec.

(* ===================================================================== *)
(** ** Reply generation and the provider chain, read as tables *)
(* ===================================================================== *)

Module GenerationSpec.

Import Js JsString TextGeneration.
Import JsNumber (Qltb, numberOfNat).

(** The request [generateReply] sends for a prompt. *)
Definition requestOf (prompt : jsstring) (systemPrompt : option jsstring) : Request :=
  {| url := js "/api/generate-reply";
     req_prompt :=
       (if Language_eqb (detectLanguage prompt) zh_CN
        then languageInstructionCN else languageInstructionEN)
       ++ [10%N] ++ quote ++ prompt ++ quote;
     req_systemPrompt := systemPrompt |}.

(** The canned reply [generateReply] falls back to: the entry its random
    index picks in the table of the prompt's language. *)
Definition cannedReply (random : Q) (prompt : jsstring) : option jsstring :=
  nth_error (Spec.cannedResponses (detectLanguage prompt))
            (floorIndex
               (random
                * numberOfNat
                    (List.length (Spec.cannedResponses (detectLanguage prompt))))).

(** The call yields no reply to return: [fetch] rejects, the status is
    not ok, or the body of an ok response does not parse.  These are the
    ways into the [catch] block of [generateReply]. *)
Definition noReply (answer : completion Response) : Prop :=
  match answer with
  | Throw _ => True
  | Normal r => ok r = false \/ exists e, json r = Throw e
  end.

(** Whether the route tries Groq first:
    [(process.env.LLM_PROVIDER || '').toLowerCase() === 'groq']. *)
Definition prefersGroq (env : GenerateReplyRoute.Env) : bool :=
  GenerateReplyRoute.jsstring_eqb
    (GenerateReplyRoute.toLowerCase
       (match GenerateReplyRoute.LLM_PROVIDER env with
        | Some p => if truthy p then p else []
        | None => []
        end))
    (js "groq").

(** What a chain of two providers yields, tried in this order: the second is
    tried only when the first returned without a text. *)
Definition chain (first second : completion (option jsstring)) : Response :=
  match first with
  | Throw _ => GenerateReplyRoute.NextResponse_json 500 None
  | Normal (Some t) => GenerateReplyRoute.NextResponse_json 200 (Some t)
  | Normal None =>
    match second with
    | Throw _ => GenerateReplyRoute.NextResponse_json 500 None
    | Normal (Some t) => GenerateReplyRoute.NextResponse_json 200 (Some t)
    | Normal None => GenerateReplyRoute.NextResponse_json 429 None
    end
  end.

(** A soft failure of an upstream call: it answers, but not ok or without a
    usable text, and reading its body does not throw. *)
Definition softFailure (u : GenerateReplyRoute.Upstream) : Prop :=
  match u with
  | GenerateReplyRoute.Rejected _ => False
  | GenerateReplyRoute.NotOk _ errText => exists t, errText = Normal t
  | GenerateReplyRoute.Ok content =>
    content = Normal None \/ content = Normal (Some [])
  end.

(** An upstream call that answers ok with the non-empty text [t]. *)
Definition yields (u : GenerateReplyRoute.Upstream) (t : jsstring) : Prop :=
  u = GenerateReplyRoute.Ok (Normal (Some t)) /\ t <> [].

(** A key that is set: present and not the empty string. *)
Definition keySet (k : option jsstring) : Prop := exists c r, k = Some (c :: r).

(** The body text of a response, when its body parses. *)
Definition bodyText (r : Response) : option jsstring :=
  match json r with
  | Normal j => text j
  | Throw _ => None
  end.

(** The browser calling the route over a network that delivers. *)
Definition viaRoute (env : GenerateReplyRoute.Env) (up : GenerateReplyRoute.Upstreams)
  : Request -> completion Response :=
  fun req => Normal (GenerateReplyRoute.POST env up (Normal req)).

End GenerationSpec.

(* ===================================================================== *)
(** ** src/lib/audio-processor.ts: the object with its timers and sources *)
(* ===================================================================== *)

Module AudioProcessorObject.

Import JsNumber.
Import AudioProcessor (SilenceDetector, silenceThreshold, silenceDuration, lastSoundTime,
                       hasDetectedSound, silenceCheckIntervalId, getAudioIntensity,
                       sumOfSquares, startSilenceDetection, stopSilenceDetection,
                       intervalBody, int16ToFloat32).

(** *** detectVoiceActivity *)

(** [intensity > threshold], with the parameter's default 0.1; a comparison
    with NaN (the intensity of an empty frame) is false.  The numbers are
    real numbers, so the comparison is that of the code wherever the
    threshold is further from the intensity than the rounding of the
    division, the square root and the scaling behind it. *)
Definition detectVoiceActivity (threshold : option R) (dataArray : list Z) : Prop :=
  let threshold := match threshold with Some t => t | None => (1 / 10)%R end in
  match getAudioIntensity dataArray with
  | Some intensity => (threshold < intensity)%R
  | None => False
  end.

(** *** Silence detection, with the intervals it sets *)

(** The detector's fields together with the interval handles that
    [setInterval] has returned and [clearInterval] has not cleared: each of
    them keeps running the body on the shared fields. *)
Record Monitor : Type :=
  { detector : SilenceDetector;
    liveIntervals : list N }.

Definition clearInterval (id : N) (live : list N) : list N :=
  filter (fun j => negb (N.eqb j id)) live.

(** The object as constructed: the field initialisers, no interval. *)
Definition newMonitor : Monitor :=
  {| detector := {| silenceThreshold := 0.08%Q;
                    silenceDuration := 3500%Z;
                    lastSoundTime := 0%Z;
                    hasDetectedSound := false;
                    silenceCheckIntervalId := None |};
     liveIntervals := [] |}.

(** [startSilenceDetection]: the fields are overwritten and a new interval
    is set; an interval set earlier is not cleared. *)
Definition startSilence (threshold : Q) (duration now : Z) (id : N) (m : Monitor)
  : Monitor :=
  {| detector := startSilenceDetection threshold duration now id;
     liveIntervals := id :: liveIntervals m |}.

(** [stopSilenceDetection]: clears the interval whose handle the field
    holds. *)
Definition stopSilence (m : Monitor) : Monitor :=
  {| detector := stopSilenceDetection (detector m);
     liveIntervals :=
       match silenceCheckIntervalId (detector m) with
       | Some id => clearInterval id (liveIntervals m)
       | None => liveIntervals m
       end |}.

(** The interval [id] expires at [now] while the analyser reads
    [intensity]: a live interval runs the body, and when the body calls
    [stopSilenceDetection], the interval of the field's handle is cleared. *)
Definition tick (id : N) (now : Z) (intensity : Q) (m : Monitor) : Monitor * bool :=
  if existsb (N.eqb id) (liveIntervals m) then
    let (d', fired) := intervalBody now intensity (detector m) in
    ({| detector := d';
        liveIntervals := if fired then liveIntervals (stopSilence m)
                         else liveIntervals m |}, fired)
  else (m, false).

Inductive Call : Type :=
| Start (threshold : Q) (duration now : Z) (id : N)
| Stop
| Tick (id : N) (now : Z) (intensity : Q).

Definition call (c : Call) (m : Monitor) : Monitor * bool :=
  match c with
  | Start threshold duration now id => (startSilence threshold duration now id m, false)
  | Stop => (stopSilence m, false)
  | Tick id now intensity => tick id now intensity m
  end.

(** For each call of a sequence, whether the callback was invoked there. *)
Fixpoint calls (cs : list Call) (m : Monitor) : list bool :=
  match cs with
  | [] => []
  | c :: rest => snd (call c m) :: calls rest (fst (call c m))
  end.

(** The detector after a sequence of calls. *)
Definition stateAfter (cs : list Call) (m : Monitor) : Monitor :=
  fold_left (fun m' c => fst (call c m')) cs m.

(** A use of the detector in which detection is started only while none
    is running. *)
Fixpoint startsWhenStopped (cs : list Call) (m : Monitor) : Prop :=
  match cs with
  | [] => True
  | c :: rest =>
    match c with
    | Start _ _ _ _ => silenceCheckIntervalId (detector m) = None
    | _ => True
    end
    /\ startsWhenStopped rest (fst (call c m))
  end.

(** At most one interval is live, the one of the field's handle. *)
Definition singleInterval (m : Monitor) : Prop :=
  liveIntervals m = match silenceCheckIntervalId (detector m) with
                    | Some id => [id]
                    | None => []
                    end.

Definition isStart (c : Call) : Prop :=
  match c with Start _ _ _ _ => True | _ => False end.

(** *** The playback queue, with the sources it has started *)

Record Output : Type :=
  { audioQueue : list (list number);
    isPlaying : bool;
    started : list (list number);   (* buffers given to [source.start()], oldest first *)
    sounding : nat }.               (* sources started whose [onended] has not run *)

Definition newOutput : Output :=
  {| audioQueue := []; isPlaying := false; started := []; sounding := 0 |}.

(** [createBuffer(1, length, sampleRate)] throws a NotSupportedError when
    the length is 0: the call of [processAudioQueue] ends there, with
    [isPlaying] set and the buffer taken off the queue, before a source
    is created; its promise rejects and nobody handles it. *)
Definition processAudioQueue (o : Output) : Output :=
  match audioQueue o with
  | [] =>
    {| audioQueue := []; isPlaying := false;
       started := started o; sounding := sounding o |}
  | audioData :: rest =>
    match audioData with
    | [] =>
      {| audioQueue := rest; isPlaying := true;
         started := started o; sounding := sounding o |}
    | _ :: _ =>
      {| audioQueue := rest; isPlaying := true;
         started := started o ++ [audioData]; sounding := S (sounding o) |}
    end
  end.

(** [pcm16Data] is given by the 16-bit samples that [new Int16Array]
    reads in it. *)
Definition playAudio (int16Array : list Z) (o : Output) : Output :=
  let float32Array := int16ToFloat32 int16Array in
  let o' := {| audioQueue := audioQueue o ++ [float32Array];
               isPlaying := isPlaying o;
               started := started o;
               sounding := sounding o |} in
  if negb (isPlaying o') then processAudioQueue o' else o'.

(** A source that sounds comes to its end: its [onended] handler runs
    [processAudioQueue]. *)
Definition onended (o : Output) : Output :=
  match sounding o with
  | O => o
  | S n =>
    processAudioQueue {| audioQueue := audioQueue o; isPlaying := isPlaying o;
                         started := started o; sounding := n |}
  end.

Definition stopAudio (o : Output) : Output :=
  {| audioQueue := []; isPlaying := false;
     started := started o; sounding := sounding o |}.

Inductive OutputEvent : Type :=
| PlayAudio (pcm16Data : list Z)
| Ended
| StopAudio.

Definition outputStep (o : Output) (e : OutputEvent) : Output :=
  match e with
  | PlayAudio pcm16Data => playAudio pcm16Data o
  | Ended => onended o
  | StopAudio => stopAudio o
  end.

Definition outputRun (es : list OutputEvent) (o : Output) : Output :=
  fold_left outputStep es o.

(** The buffers a sequence of events hands to [playAudio], decoded. *)
Fixpoint pushed (es : list OutputEvent) : list (list number) :=
  match es with
  | [] => []
  | PlayAudio pcm16Data :: rest => int16ToFloat32 pcm16Data :: pushed rest
  | _ :: rest => pushed rest
  end.

Definition noStop (e : OutputEvent) : Prop :=
  match e with StopAudio => False | _ => True end.

(** Exactly one source sounds while the queue is being played, and the
    queue is empty whenever nothing plays. *)
Definition oneSource (o : Output) : Prop :=
  sounding o = (if isPlaying o then 1 else 0)%nat
  /\ (isPlaying o = false -> audioQueue o = []).

(** The buffers before the first empty one, and those after it. *)
Fixpoint untilEmpty (buffers : list (list number)) : list (list number) :=
  match buffers with
  | [] => []
  | [] :: _ => []
  | b :: rest => b :: untilEmpty rest
  end.

Fixpoint afterEmpty (buffers : list (list number)) : option (list (list number)) :=
  match buffers with
  | [] => None
  | [] :: rest => Some rest
  | _ :: rest => afterEmpty rest
  end.

(** What holds of the object when the buffers [buffers] have been handed
    to it: while none was empty, the queue is played in order by one
    source at a time; an empty buffer waits in the queue behind the
    buffers before it; and once it has been taken off the queue the
    object is stuck with [isPlaying] set and no source to end. *)
Definition tracks (buffers : list (list number)) (o : Output) : Prop :=
  match afterEmpty buffers with
  | None => oneSource o /\ started o ++ audioQueue o = buffers
  | Some after =>
    isPlaying o = true
    /\ ((sounding o = 1%nat
         /\ exists waiting, audioQueue o = waiting ++ [] :: after
                            /\ started o ++ waiting = untilEmpty buffers)
        \/ (sounding o = 0%nat
            /\ started o = untilEmpty buffers /\ audioQueue o = after))
  end.

(** A buffer that holds at least one sample. *)
Definition hasSamples (buffer : list number) : bool :=
  match buffer with [] => false | _ :: _ => true end.

(** *** A PCM16 sample after decoding and encoding again *)

Definition roundTrip (x : Z) : Z := if (x <=? 0)%Z then x else (x - 1)%Z.

End AudioProcessorObject.

(* ===================================================================== *)
(** ** The recognition result, in words *)
(* ===================================================================== *)

Module RecognitionSpec.

Import JsString WebSpeechSTT.

(** The results of an event that [onresult] reads: those from
    [resultIndex] on. *)
Definition heard (event : SpeechRecognitionEvent) : list SpeechRecognitionResult :=
  skipn (resultIndex event) (results event).

(** The best alternative of a result, if it has any. *)
Definition best (r : SpeechRecognitionResult) : option jsstring :=
  match alternatives r with
  | alt :: _ => Some (transcript alt)
  | [] => None
  end.

(** The best transcripts of a list of results, each followed by a space. *)
Definition spoken (rs : list SpeechRecognitionResult) : jsstring :=
  flat_map (fun r => match best r with
                     | Some t => t ++ js " "
                     | None => []
                     end) rs.

(** A string of white space only. *)
Definition blank (s : jsstring) : bool := forallb isWhiteSpace s.

End RecognitionSpec.

(* ===================================================================== *)
(** ** Turns and conversations, in words *)
(* ===================================================================== *)

Module ConversationSpec.

Import Js JsString VoiceInterface.

Definition assistantEntry (t : jsstring) : Entry := {| role := "assistant"; text := t |}.

(** A world that leaves the transcript log alone while a call is awaited
    (whatever else it does to the store meanwhile). *)
Definition leavesLogAlone (w : World) : Prop :=
  (forall q s, transcripts (snd (generateReplyW w q s)) = transcripts s)
  /\ (forall cl r s, transcripts (snd (synthesizeAndPlayW w cl r s)) = transcripts s).

(** What a turn writes into the log, by the way it went. *)
Definition loggedText (o : Spec.TurnOutcome) : jsstring :=
  match o with
  | Spec.ReplyFailed (ErrorObj message) => sorryPrefix ++ message
  | Spec.ReplyFailed NonError => sorryPrefix ++ unknownError
  | Spec.ReplyUnspoken reply => reply
  | Spec.ReplySpoken reply _ (Normal _) => reply
  | Spec.ReplySpoken reply _ (Throw _) => reply ++ audioFailed
  end.

(** A conversation: each transcript event is handled to the end of its
    turn before the next one arrives. *)
Fixpoint converse (w : World) (events : list (jsstring * bool)) (s : Store) : Store :=
  match events with
  | [] => s
  | (text, isFinal) :: rest =>
    converse w rest (fst (fst (drive w (handleTranscript text isFinal) s)))
  end.

(** The texts of the final events, in order. *)
Definition finals (events : list (jsstring * bool)) : list jsstring :=
  map fst (filter snd events).

(** The interim text that still shows at the end: that of the last event,
    when it is not final. *)
Definition pendingInterim (events : list (jsstring * bool)) : list jsstring :=
  match rev events with
  | (text, false) :: _ => [text ++ ellipsis]
  | _ => []
  end.

(** A log of exchanges: a user entry, the assistant's entry, and so on. *)
Fixpoint exchanges (turns : list (jsstring * jsstring)) : list Entry :=
  match turns with
  | [] => []
  | (u, a) :: rest => Spec.userEntry u :: assistantEntry a :: exchanges rest
  end.

(** *** The frames of a history of commits *)

Fixpoint framesOver (batches : list (list Update)) (vw : View) : list Frame :=
  match batches with
  | [] => []
  | b :: rest => snd (commit b vw) ++ framesOver rest (fst (commit b vw))
  end.

(** Every intensity sample that reaches the component lies in [0, 1], as
    [getAudioIntensity] guarantees. *)
Definition normalizedSamples (batches : list (list Update)) : Prop :=
  Forall (Forall (fun u => match u with
                           | UpdateAudioIntensity a => 0 <= a /\ a <= 1
                           | UpdatePhase _ => True
                           end)%Q) batches.

(** The visual state within the ranges the comments of the effect give. *)
Definition withinRanges (vw : View) : Prop :=
  (0 <= audioIntensity vw /\ audioIntensity vw <= 1
   /\ 1 <= brightness (visual vw) /\ brightness (visual vw) <= 3
   /\ 1 <= bloom (visual vw) /\ bloom (visual vw) <= 6
   /\ 0 <= lastListeningAudioRef (visual vw) /\ lastListeningAudioRef (visual vw) <= 1
   /\ 1 <= lastListeningBrightnessRef (visual vw)
   /\ lastListeningBrightnessRef (visual vw) <= 3
   /\ 1 <= lastListeningBloomRef (visual vw) /\ lastListeningBloomRef (visual vw) <= 6)%Q
  /\ (prevVisualPhaseRef (visual vw) = idle \/ prevVisualPhaseRef (visual vw) = listening).

Definition frameWithinRanges (f : Frame) : Prop :=
  (0 <= sphereAudioIntensity f /\ sphereAudioIntensity f <= 1
   /\ 1 <= sphereBrightness f /\ sphereBrightness f <= 3
   /\ 1 <= bloomIntensity f /\ bloomIntensity f <= 6)%Q
  /\ (spherePhase f = 0 \/ spherePhase f = 1).

End ConversationSpec.

(* ===================================================================== *)
(** ** src/app/api/azure-tts/route.ts *)
(* ===================================================================== *)

Module AzureTtsRoute.

Import Js JsString.

Local Open Scope N_scope.

(** [s.replace(/c/g, replacement)] for a pattern that is one literal
    character. *)
Definition replaceAll (c : code_unit) (replacement : jsstring) (s : jsstring) : jsstring :=
  flat_map (fun x => if x =? c then replacement else [x]) s.

Definition amp : code_unit := 38.
Definition lt : code_unit := 60.
Definition gt : code_unit := 62.
Definition quot : code_unit := 34.
Definition apos : code_unit := 39.

Definition escapeXml (s : jsstring) : jsstring :=
  replaceAll apos (js "&apos;")
    (replaceAll quot (js "&quot;")
       (replaceAll gt (js "&gt;")
          (replaceAll lt (js "&lt;")
             (replaceAll amp (js "&amp;") s)))).

(** [a.startsWith(b)] *)
Fixpoint startsWith (a b : jsstring) : bool :=
  match b, a with
  | [], _ => true
  | y :: b', x :: a' => (x =? y) && startsWith a' b'
  | _ :: _, [] => false
  end.

(** [a.includes(b)] *)
Fixpoint includes (a b : jsstring) : bool :=
  startsWith a b || match a with
                    | [] => false
                    | _ :: a' => includes a' b
                    end.

Definition inferContentType (fmt : jsstring) : jsstring :=
  if includes fmt (js "mp3") then js "audio/mpeg"
  else if includes fmt (js "ogg") then js "audio/ogg"
  else if includes fmt (js "webm") then js "audio/webm"
  else if includes fmt (js "pcm") then js "audio/wav"
  else js "application/octet-stream".

(** [getEnv(name, fallback)], given the value [process.env[name]]. *)
Definition getEnv (v : option jsstring) (name : jsstring) (fallback : option jsstring)
  : completion jsstring :=
  match v with
  | Some (c :: r) => Normal (c :: r)
  | _ =>
    match fallback with
    | Some f => Normal f
    | None => Throw (ErrorObj (js "Missing required env var: " ++ name))
    end
  end.

Record Env : Type :=
  { AZURE_SPEECH_REGION : option jsstring;
    AZURE_SPEECH_KEY : option jsstring }.

(** A value destructured from the request body, as far as the route
    inspects it: whether it is a string, and whether it is truthy. *)
Inductive BodyValue : Type :=
| Undefined
| Str (s : jsstring)
| Other (isTruthy : bool).

Record Fields : Type :=
  { text : BodyValue; voiceName : BodyValue; outputFormat : BodyValue }.

(** The reply of an upstream [fetch]. *)
Record Reply : Type :=
  { res_status : N;
    res_text : completion jsstring;          (* [await res.text()] *)
    res_arrayBuffer : completion (list N) }. (* [await res.arrayBuffer()] *)

Definition res_ok (r : Reply) : bool := (200 <=? res_status r) && (res_status r <=? 299).

Inductive Payload : Type :=
| ErrorJson (error : jsstring)                       (* [JSON.stringify({ error })] *)
| AudioData (audio : list N) (contentType : jsstring).

Record RouteResponse : Type := { status : N; payload : Payload }.

Definition ok (r : RouteResponse) : bool := (200 <=? status r) && (status r <=? 299).

(** The message [Missing "text" in request body]. *)
Definition missingText : jsstring :=
  js "Missing " ++ [quot] ++ js "text" ++ [quot] ++ js " in request body".

Definition defaultVoice : jsstring := Eval vm_compute in js "en-US-JennyNeural".
Definition defaultFormat : jsstring :=
  Eval vm_compute in js "audio-24khz-48kbitrate-mono-mp3".

(** The SSML template. *)
Definition ssmlOf (voice text : jsstring) : jsstring :=
  js "<?xml version=" ++ [quot] ++ js "1.0" ++ [quot]
  ++ js " encoding=" ++ [quot] ++ js "UTF-8" ++ [quot] ++ js "?>" ++ [10]
  ++ js "<speak version=" ++ [quot] ++ js "1.0" ++ [quot]
  ++ js " xml:lang=" ++ [quot] ++ js "en-US" ++ [quot] ++ js ">" ++ [10]
  ++ js "  <voice name=" ++ [quot] ++ voice ++ [quot] ++ js ">"
  ++ escapeXml text ++ js "</voice>" ++ [10]
  ++ js "</speak>".

(** The null body statuses among those a response can be given. *)
Definition nullBodyStatus (st : N) : bool := (st =? 204) || (st =? 205) || (st =? 304).

Section Route.

Variable env : Env.

(** The two upstream calls, by what they are sent: the token request
    (region, subscription key) and the synthesis request (region, bearer
    token, output format, SSML body). *)
Variable issueToken : jsstring -> jsstring -> completion Reply.
Variable synthesize : jsstring -> jsstring -> jsstring -> jsstring -> completion Reply.

(** What the [Response] constructor throws for a status it refuses. *)
Variable refused : N -> JsError.

(** [new Response(body, { status })] with a body: the status has to lie
    between 200 and 599 (a RangeError otherwise) and must not be a null
    body status (a TypeError otherwise). *)
Definition newResponse (body : Payload) (st : N) : completion RouteResponse :=
  if (200 <=? st) && (st <=? 599) && negb (nullBodyStatus st)
  then Normal {| status := st; payload := body |}
  else Throw (refused st).

(** [body] is the outcome of
    [const { text, voiceName, outputFormat } = await req.json()]. *)
Definition POST (body : completion Fields) : completion RouteResponse :=
  tryCatch
    (bindC body (fun b =>
       match text b with
       | Str (c :: t) =>
         let text := c :: t in
         bindC (getEnv (AZURE_SPEECH_REGION env) (js "AZURE_SPEECH_REGION")
                       (Some (js "eastasia"))) (fun region_ =>
         let region := trim region_ in
         bindC (getEnv (AZURE_SPEECH_KEY env) (js "AZURE_SPEECH_KEY") None) (fun key_ =>
         let key := trim key_ in
         if negb (truthy region) || negb (truthy key) then
           newResponse (ErrorJson (js "Missing Azure Speech region or key")) 400
         else
           bindC (issueToken region key) (fun tokenRes =>
           if negb (res_ok tokenRes) then
             bindC (res_text tokenRes) (fun msg =>
               newResponse
                 (ErrorJson (js "Failed to issue token: " ++ decimal (res_status tokenRes)
                             ++ js " " ++ msg)) 401)
           else
             bindC (res_text tokenRes) (fun accessToken =>
             let voice := match voiceName b with
                          | Str (v :: r) => v :: r
                          | _ => defaultVoice
                          end in
             let format := match outputFormat b with
                           | Str (f :: r) => f :: r
                           | _ => defaultFormat
                           end in
             let ssml := ssmlOf voice text in
             bindC (synthesize region accessToken format ssml) (fun ttsRes =>
             if negb (res_ok ttsRes) then
               bindC (res_text ttsRes) (fun errText =>
                 newResponse
                   (ErrorJson (js "Azure TTS error: " ++ decimal (res_status ttsRes)
                               ++ js " " ++ errText))
                   (res_status ttsRes))
             else
               bindC (res_arrayBuffer ttsRes) (fun audio =>
                 newResponse (AudioData audio (inferContentType format)) 200))))))
       | _ => newResponse (ErrorJson missingText) 400
       end))
    (fun err =>
       let msg := match err with
                  | ErrorObj (c :: m) => c :: m
                  | _ => js "Unknown error"
                  end in
       newResponse (ErrorJson msg) 500).

End Route.

(** *** Reading the escaped text back *)

(** The five entities decoded, everything else kept. *)
Fixpoint unescapeXml (s : jsstring) : jsstring :=
  match s with
  | [] => []
  | c :: rest =>
    if c =? amp then
      match rest with
      | 97 :: 109 :: 112 :: 59 :: r => amp :: unescapeXml r
      | 108 :: 116 :: 59 :: r => lt :: unescapeXml r
      | 103 :: 116 :: 59 :: r => gt :: unescapeXml r
      | 113 :: 117 :: 111 :: 116 :: 59 :: r => quot :: unescapeXml r
      | 97 :: 112 :: 111 :: 115 :: 59 :: r => apos :: unescapeXml r
      | _ => c :: unescapeXml rest
      end
    else c :: unescapeXml rest
  end.

(** The escape of one character. *)
Definition escapeChar (c : code_unit) : jsstring :=
  if c =? amp then js "&amp;"
  else if c =? lt then js "&lt;"
  else if c =? gt then js "&gt;"
  else if c =? quot then js "&quot;"
  else if c =? apos then js "&apos;"
  else [c].

Definition isMarkup (c : code_unit) : bool :=
  (c =? lt) || (c =? gt) || (c =? quot) || (c =? apos).

(** *** What a response's status says about its body *)

Definition statusTellsBody (r : RouteResponse) : Prop :=
  (status r = 200 \/ status r = 400 \/ status r = 401 \/ status r = 500
   \/ (300 <= status r <= 599 /\ status r <> 304))
  /\ (ok r = true <-> status r = 200)
  /\ (status r = 200 <-> exists audio contentType, payload r = AudioData audio contentType).

End AzureTtsRoute.

(* ===================================================================== *)
(** ** AzureTTSClient: the browser side of speech synthesis *)
(* ===================================================================== *)

Module AzureTTS.

Import Js JsString.
Import AzureTtsRoute (Reply, res_status, res_text, res_arrayBuffer, res_ok, startsWith).
Import GenerateReplyRoute (jsstring_eqb).

(** A [SpeechSynthesisVoice], as far as the fallback looks at it. *)
Record Voice : Type := { name : jsstring; lang : jsstring }.

(** What comes out of the loudspeaker. *)
Inductive Sound : Type :=
| AzureAudio (audio : list N)
| Utterance (text : jsstring) (voice : option Voice) (lang : jsstring).

(** [playAudio]: the context is resumed and the buffer decoded, which can
    reject before anything sounds ([prepare]); then the source is started
    and the promise settles when it has ended. *)
Definition playAudio (prepare : list N -> completion unit) (audioBuffer : list N)
  : completion unit * list Sound :=
  match prepare audioBuffer with
  | Normal _ => (Normal tt, [AzureAudio audioBuffer])
  | Throw e => (Throw e, [])
  end.

(** The version of the client that rethrows. *)
Module Rethrowing.

Section Client.

Variable voiceName outputFormat : jsstring.
(** The route, by the [text], [voiceName] and [outputFormat] it is sent. *)
Variable fetch : jsstring -> jsstring -> jsstring -> completion Reply.
Variable prepare : list N -> completion unit.

Definition synthesizeAndPlay (text : jsstring) : completion unit * list Sound :=
  let attempt :=
    match fetch text voiceName outputFormat with
    | Throw e => (Throw e, [])
    | Normal res =>
      if negb (res_ok res) then
        match res_text res with
        | Throw e => (Throw e, [])
        | Normal err =>
          (Throw (ErrorObj (js "Azure TTS route error: " ++ decimal (res_status res)
                            ++ js " " ++ err)), [])
        end
      else
        match res_arrayBuffer res with
        | Throw e => (Throw e, [])
        | Normal audioBuffer => playAudio prepare audioBuffer
        end
    end in
  match attempt with
  | (Throw e, heard) => (Throw e, heard)    (* [catch (e) { ...; throw e; }] *)
  | done => done
  end.

End Client.

End Rethrowing.

(** The version of the client that falls back to the browser's speech
    synthesis. *)
Module Fallback.

Section Client.

Variable voiceName outputFormat : jsstring.
Variable fetch : jsstring -> jsstring -> jsstring -> completion Reply.
Variable prepare : list N -> completion unit.
(** [window.speechSynthesis], when the browser has one, with what its
    [getVoices()] does. *)
Variable speechSynthesis : option (completion (list Voice)).

Definition fallbackSpeak (text : jsstring) : completion unit * list Sound :=
  match speechSynthesis with
  | None => (Normal tt, [])
  | Some getVoices =>
    let voice :=
      match getVoices with
      | Normal voices =>
        match find (fun v => jsstring_eqb (name v) voiceName) voices with
        | Some v => Some v
        | None =>
          match find (fun v => startsWith (lang v) (js "en")) voices with
          | Some v => Some v
          | None => nth_error voices 0
          end
        end
      | Throw _ => None
      end in
    (Normal tt, [Utterance text voice (js "en-US")])
  end.

Definition synthesizeAndPlay (text : jsstring) : completion unit * list Sound :=
  let attempt :=
    match fetch text voiceName outputFormat with
    | Throw e => (Throw e, [])
    | Normal res =>
      if negb (res_ok res) then
        match res_text res with
        | Throw e => (Throw e, [])
        | Normal err => fallbackSpeak text
        end
      else
        match res_arrayBuffer res with
        | Throw e => (Throw e, [])
        | Normal audioBuffer => playAudio prepare audioBuffer
        end
    end in
  match attempt with
  | (Throw e, heard) =>
    let (c, more) := fallbackSpeak text in (c, heard ++ more)
  | done => done
  end.

End Client.

End Fallback.

(** *** In words *)

(** The audio that reaches the loudspeaker through the route: the route
    answers ok, its body can be read, and the browser can decode it. *)
Definition azureAudio (voiceName outputFormat : jsstring)
           (fetch : jsstring -> jsstring -> jsstring -> completion Reply)
           (prepare : list N -> completion unit) (text : jsstring) : option (list N) :=
  match fetch text voiceName outputFormat with
  | Normal res =>
    if res_ok res then
      match res_arrayBuffer res with
      | Normal audio =>
        match prepare audio with
        | Normal _ => Some audio
        | Throw _ => None
        end
      | Throw _ => None
      end
    else None
  | Throw _ => None
  end.

(** A world whose generation and synthesis are given functions and which
    does nothing else to the store. *)
Definition worldWith (generate : jsstring -> completion jsstring)
           (speak : VoiceInterface.AzureTTSClient -> jsstring -> completion unit)
  : VoiceInterface.World :=
  {| VoiceInterface.generateReplyW := fun q s => (generate q, s);
     VoiceInterface.synthesizeAndPlayW := fun cl r s => (speak cl r, s) |}.

End AzureTTS.

(* ===================================================================== *)
(** ** The microphone streams of a session *)
(* ===================================================================== *)

Module MediaSession.

(** The [MediaStream] objects of the page.  Every granted [getUserMedia]
    call returns a new stream; streams are numbered in the order in which
    they were returned. *)
Record Page : Type :=
  { granted : nat;              (* how many streams have been returned *)
    stopped : list nat;         (* streams whose tracks have been stopped *)
    mediaStream : option nat;   (* the field of the WebSpeechSTTClient *)
    analysed : list nat }.      (* streams with a source connected to the analyser *)

Definition newPage : Page :=
  {| granted := 0; stopped := []; mediaStream := None; analysed := [] |}.

(** [WebSpeechSTTClient.connect]: the stream is stored when the microphone
    is granted; a refusal is reported through [onError] and changes
    nothing here. *)
Definition connect (permission : bool) (p : Page) : Page :=
  if permission then
    {| granted := S (granted p); stopped := stopped p;
       mediaStream := Some (granted p); analysed := analysed p |}
  else p.

(** [WebSpeechSTTClient.disconnect]: the tracks of the stored stream are
    stopped and the field is cleared. *)
Definition disconnect (p : Page) : Page :=
  match mediaStream p with
  | Some stream =>
    {| granted := granted p; stopped := stream :: stopped p;
       mediaStream := None; analysed := analysed p |}
  | None => p
  end.

Definition getMediaStream (p : Page) : option nat := mediaStream p.

(** [AudioProcessor.connectMediaStream] *)
Definition connectMediaStream (stream : nat) (p : Page) : Page :=
  {| granted := granted p; stopped := stopped p;
     mediaStream := mediaStream p; analysed := stream :: analysed p |}.

(** [startSession]: [cleanup] disconnects the client there is, a new
    [AudioProcessor] (whose analyser has no source yet) and a new client
    are created, the client connects, and the stream it got, if any, is
    connected to the analyser. *)
Definition startSession (permission : bool) (p : Page) : Page :=
  let cleaned := disconnect p in
  let fresh := {| granted := granted cleaned; stopped := stopped cleaned;
                  mediaStream := None; analysed := [] |} in
  let connected := connect permission fresh in
  match getMediaStream connected with
  | Some stream => connectMediaStream stream connected
  | None => connected
  end.

(** The end of a turn ([finally] of [generateAndSpeak]) and the timer
    callback it sets. *)
Definition endOfTurn (p : Page) : Page := disconnect p.
Definition restartRecognition (permission : bool) (p : Page) : Page := connect permission p.

(** A session: the start, then turns, each followed by its restart. *)
Definition session (permission : bool) (restarts : list bool) : Page :=
  fold_left (fun p perm => restartRecognition perm (endOfTurn p)) restarts
            (startSession permission newPage).

End MediaSession.

(* ===================================================================== *)
(** ** src/app/api/health/route.ts *)
(* ===================================================================== *)

Module HealthRoute.

Import Js JsString.
Import GenerateReplyRoute (truthyOpt).

Local Open Scope N_scope.

Record ServiceStatus : Type :=
  { ok : bool;
    status : option N;
    error : option jsstring }.

(** What a probe does: the [fetch] rejects (also when the 7 s timeout
    aborts it), or it replies with a status and a body that [safeText]
    reads. *)
Inductive Probe : Type :=
| Rejected (e : JsError)
| Replied (status : N) (text : completion jsstring).

(** [safeText]: the body, or [undefined] when it cannot be read. *)
Definition safeText (text : completion jsstring) : option jsstring :=
  match text with
  | Normal t => Some t
  | Throw _ => None
  end.

(** The body of the [try] of each check, with its [catch]. *)
Definition probed (failed : jsstring) (probe : Probe) : ServiceStatus :=
  match probe with
  | Replied st text =>
    let res_ok := (200 <=? st) && (st <=? 299) in
    {| ok := res_ok; status := Some st;
       error := if res_ok then None else safeText text |}
  | Rejected e =>
    {| ok := false; status := None;
       error := Some (match e with
                      | ErrorObj (c :: m) => c :: m
                      | _ => failed
                      end) |}
  end.

Record Env : Type :=
  { OPENAI_API_KEY : option jsstring;
    GROQ_API_KEY : option jsstring;
    AZURE_SPEECH_KEY : option jsstring;
    AZURE_SPEECH_REGION : option jsstring;
    NEXT_PUBLIC_DEEPGRAM_API_KEY : option jsstring;
    DEEPGRAM_API_KEY : option jsstring }.

(** [a || b] on two environment variables. *)
Definition orElse (a b : option jsstring) : option jsstring :=
  if truthyOpt a then a else b.

Section Get.

Variable env : Env.

(** The four probes, by the key (and region) they are sent. *)
Variable openaiModels : jsstring -> Probe.
Variable groqModels : jsstring -> Probe.
Variable azureToken : jsstring -> jsstring -> Probe.
Variable deepgramMe : jsstring -> Probe.

Definition checkOpenAI : ServiceStatus :=
  match OPENAI_API_KEY env with
  | Some (c :: k) => probed (js "OpenAI check failed") (openaiModels (c :: k))
  | _ => {| ok := false; status := None; error := Some (js "Missing OPENAI_API_KEY") |}
  end.

Definition checkGroq : ServiceStatus :=
  match GROQ_API_KEY env with
  | Some (c :: k) => probed (js "Groq check failed") (groqModels (c :: k))
  | _ => {| ok := false; status := None; error := Some (js "Missing GROQ_API_KEY") |}
  end.

Definition checkAzureSpeech : ServiceStatus :=
  let region := match orElse (AZURE_SPEECH_REGION env) (Some (js "eastasia")) with
                | Some r => r
                | None => []
                end in
  match AZURE_SPEECH_KEY env with
  | Some (c :: k) => probed (js "Azure Speech check failed") (azureToken region (c :: k))
  | _ => {| ok := false; status := None; error := Some (js "Missing AZURE_SPEECH_KEY") |}
  end.

Definition checkDeepgram : option ServiceStatus :=
  match orElse (NEXT_PUBLIC_DEEPGRAM_API_KEY env) (DEEPGRAM_API_KEY env) with
  | Some (c :: k) => Some (probed (js "Deepgram check failed") (deepgramMe (c :: k)))
  | _ => None
  end.

(** The [services] object of the reply; [deepgram] is present only when
    its check returned a status. *)
Record Services : Type :=
  { openai : ServiceStatus;
    groq : ServiceStatus;
    azureSpeech : ServiceStatus;
    deepgram : option ServiceStatus }.

Definition GET : Services :=
  {| openai := checkOpenAI;
     groq := checkGroq;
     azureSpeech := checkAzureSpeech;
     deepgram := checkDeepgram |}.

End Get.

(** *** In words *)

(** A status that says the key is not configured. *)
Definition reportsMissing (s : ServiceStatus) (name : jsstring) : Prop :=
  s = {| ok := false; status := None; error := Some (js "Missing " ++ name) |}.

(** A status of the shape every check returns: ok only with a 2xx status
    and without an error. *)
Definition coherent (s : ServiceStatus) : Prop :=
  (ok s = true ->
   error s = None /\ exists st, status s = Some st /\ 200 <= st <= 299)
  /\ (ok s = false -> status s = None \/ exists st, status s = Some st /\ ~ 200 <= st <= 299).

End HealthRoute.

(* ===================================================================== *)
(** ** src/components/GlowSphere.tsx: the frame callback *)
(* ===================================================================== *)

Module GlowSphere.

Local Open Scope Q_scope.

(** [THREE.MathUtils.lerp(x, y, t)], which is [(1 - t) * x + t * y]. *)
Definition lerp (x y t : Q) : Q := (1 - t) * x + t * y.

Record Vector3 : Type := { x : Q; y : Q; z : Q }.

(** [Vector3.lerp(v, alpha)]: each component moves by [(v - this) * alpha]. *)
Definition Vector3_lerp (this v : Vector3) (alpha : Q) : Vector3 :=
  {| x := x this + (x v - x this) * alpha;
     y := y this + (y v - y this) * alpha;
     z := z this + (z v - z this) * alpha |}.

Record Props : Type := { audioIntensity : Q; phase : Q; brightness : Q }.

(** The uniforms of the material, the rotation of the mesh and the scale
    of the group. *)
Record Scene : Type :=
  { uTime : Q;
    uAudioIntensity : Q;
    uPhase : Q;
    uBrightness : Q;
    rotation_x : Q;
    rotation_y : Q;
    scale : Vector3 }.

(** The scene as mounted: the uniforms of [useMemo], no rotation, unit
    scale. *)
Definition mountedScene : Scene :=
  {| uTime := 0; uAudioIntensity := 0; uPhase := 0; uBrightness := 1.0;
     rotation_x := 0; rotation_y := 0;
     scale := {| x := 1; y := 1; z := 1 |} |}.

(** The callback of [useFrame], with the three refs set. *)
Definition useFrame (elapsedTime : Q) (props : Props) (s : Scene) : Scene :=
  let tScale := 1 + audioIntensity props * 0.9 in
  {| uTime := elapsedTime;
     uAudioIntensity := lerp (uAudioIntensity s) (audioIntensity props) 0.1;
     uPhase := lerp (uPhase s) (phase props) 0.05;
     uBrightness := lerp (uBrightness s) (brightness props) 0.06;
     rotation_x := rotation_x s + 0.0012;
     rotation_y := rotation_y s + 0.0022;
     scale := Vector3_lerp (scale s) {| x := tScale; y := tScale; z := tScale |} 0.12 |}.

(** The scene after a sequence of frames, each with its clock reading and
    the props of the render in force. *)
Definition animate (frames : list (Q * Props)) (s : Scene) : Scene :=
  fold_left (fun sc f => useFrame (fst f) (snd f) sc) frames s.

(** *** In words *)

(** Props as [VoiceInterface] hands them over. *)
Definition propsOf (f : VoiceInterface.Frame) : Props :=
  {| audioIntensity := VoiceInterface.sphereAudioIntensity f;
     phase := VoiceInterface.spherePhase f;
     brightness := VoiceInterface.sphereBrightness f |}.

Definition propsWithinRanges (p : Props) : Prop :=
  0 <= audioIntensity p /\ audioIntensity p <= 1
  /\ 0 <= phase p /\ phase p <= 1
  /\ 1 <= brightness p /\ brightness p <= 3.

Definition within (lo hi : Q) (v : Vector3) : Prop :=
  (lo <= x v /\ x v <= hi) /\ (lo <= y v /\ y v <= hi) /\ (lo <= z v /\ z v <= hi).

Definition sceneWithinRanges (s : Scene) : Prop :=
  0 <= uAudioIntensity s /\ uAudioIntensity s <= 1
  /\ 0 <= uPhase s /\ uPhase s <= 1
  /\ 1 <= uBrightness s /\ uBrightness s <= 3
  /\ within 1 1.9 (scale s).

End GlowSphere.

(* ===================================================================== *)
(** ** Language detection and the fallback reply *)
(* ===================================================================== *)

Section TextGenerationFacts.

Import Js JsString TextGeneration Spec.
Import JsNumber (Qltb, numberOfNat).

Lemma Qltb_true_iff (x y : Q) : Qltb x y = true <-> (x < y)%Q.
Proof.
  unfold Qltb. rewrite negb_true_iff. split; intro H.
  - apply Qnot_le_lt. intro Hle. apply Qle_bool_iff in Hle. congruence.
  - destruct (Qle_bool y x) eqn:E; [|reflexivity].
    apply Qle_bool_iff in E. exfalso. apply (Qlt_not_le _ _ H E).
Qed.

Lemma inCjkRanges_regex (c : code_unit) : inCjkRanges c = chineseCharRegex c.
Proof.
  unfold inCjkRanges, chineseCharRegex, cjkRanges. simpl.
  now rewrite orb_false_r.
Qed.

Lemma cjkCount_filter (text : jsstring) :
  cjkCount text = List.length (filter chineseCharRegex text).
Proof.
  induction text as [|c rest IH]; simpl; [reflexivity|].
  rewrite inCjkRanges_regex, IH.
  destruct (chineseCharRegex c); reflexivity.
Qed.

Lemma filter_length_le {A} (f : A -> bool) (l : list A) :
  (List.length (filter f l) <= List.length l)%nat.
Proof.
  induction l as [|a l IH]; simpl; [lia|].
  destruct (f a); simpl; lia.
Qed.

(** The comparison of the fraction with 0.3, without the division. *)
Lemma fraction_above_threshold (n m : nat) :
  (n <= m)%nat ->
  ((0.3 < numberOfNat n / numberOfNat m)%Q <-> (3 * m < 10 * n)%nat).
Proof.
  intros Hnm. unfold numberOfNat.
  destruct m as [|m].
  - assert (n = 0)%nat by lia. subst n. simpl.
    split; [intro H; exfalso; revert H; unfold Qlt; simpl; lia | lia].
  - assert (Hpos : (0 < inject_Z (Z.of_nat (S m)))%Q).
    { unfold Qlt, inject_Z; simpl. lia. }
    split; intro H.
    + apply (Qmult_lt_r _ _ _ Hpos) in H.
      assert (E : (inject_Z (Z.of_nat n) / inject_Z (Z.of_nat (S m))
                   * inject_Z (Z.of_nat (S m)) == inject_Z (Z.of_nat n))%Q).
      { field. intro E0. rewrite E0 in Hpos. apply (Qlt_irrefl _ Hpos). }
      rewrite E in H. revert H. unfold Qlt, Qmult, inject_Z. simpl. lia.
    + apply Qlt_shift_div_l; [exact Hpos|].
      unfold Qlt, Qmult, inject_Z. simpl. lia.
Qed.

Lemma detectLanguage_zh (text : jsstring) :
  detectLanguage text = zh_CN <-> (0.3 < cjkFraction text)%Q.
Proof.
  unfold detectLanguage, matchAll, cjkFraction.
  rewrite cjkCount_filter.
  destruct (filter chineseCharRegex text) as [|c r] eqn:E.
  - split; [discriminate|].
    intro H. apply fraction_above_threshold in H; simpl in *; lia.
  - destruct (Qltb 0.3 _) eqn:L.
    + apply Qltb_true_iff in L. split; [intros _; exact L | reflexivity].
    + split; [discriminate|]. intro H. apply Qltb_true_iff in H. congruence.
Qed.

Lemma cjkCount_le_length (text : jsstring) : (cjkCount text <= List.length text)%nat.
Proof. rewrite cjkCount_filter. apply filter_length_le. Qed.

(** The same threshold on the two counts, without the division. *)
Lemma detectLanguage_zh_counts (text : jsstring) :
  detectLanguage text = zh_CN <-> (3 * List.length text < 10 * cjkCount text)%nat.
Proof.
  rewrite detectLanguage_zh. unfold cjkFraction.
  apply fraction_above_threshold, cjkCount_le_length.
Qed.

(** Exactly three characters in ten are not enough; four in eleven are. *)
Example detectLanguage_at_threshold :
  detectLanguage (js "你好吗abcdefg") = en_US
  /\ detectLanguage (js "你好吗世abcdefg") = zh_CN
  /\ detectLanguage [] = en_US.
Proof. repeat split. Qed.

Lemma detectLanguage_cases (text : jsstring) :
  detectLanguage text = zh_CN \/ detectLanguage text = en_US.
Proof. destruct (detectLanguage text); auto. Qed.

Lemma floorIndex_in_range (random : Q) (n : nat) :
  (0 <= random)%Q -> (random < 1)%Q -> (0 < n)%nat ->
  (floorIndex (random * numberOfNat n) < n)%nat.
Proof.
  intros H0 H1 Hn. unfold floorIndex, numberOfNat.
  assert (Hpos : (0 < inject_Z (Z.of_nat n))%Q).
  { unfold Qlt, inject_Z; simpl. lia. }
  assert (Hlt : (random * inject_Z (Z.of_nat n) < inject_Z (Z.of_nat n))%Q).
  { rewrite <- (Qmult_1_l (inject_Z (Z.of_nat n))) at 2.
    apply Qmult_lt_r; assumption. }
  assert (Hge : (0 <= random * inject_Z (Z.of_nat n))%Q).
  { apply Qmult_le_0_compat; [assumption | apply Qlt_le_weak; assumption]. }
  assert (Hf0 : (0 <= Qfloor (random * inject_Z (Z.of_nat n)))%Z).
  { change 0%Z with (Qfloor 0). apply Qfloor_resp_le. exact Hge. }
  assert (Hf1 : (Qfloor (random * inject_Z (Z.of_nat n)) < Z.of_nat n)%Z).
  { rewrite Zlt_Qlt. eapply Qle_lt_trans; [apply Qfloor_le | exact Hlt]. }
  lia.
Qed.

End TextGenerationFacts.

Section FallbackReply.

Import Js JsString TextGeneration Spec.
Import JsNumber (Qltb, numberOfNat).

Lemma cannedResponses_nonempty (l : Language) :
  Forall (fun s : jsstring => s <> []) (cannedResponses l).
Proof. destruct l; repeat constructor; discriminate. Qed.

Lemma cannedResponses_length (l : Language) : List.length (cannedResponses l) = 7%nat.
Proof. destruct l; reflexivity. Qed.

Lemma responses_by_language (l : Language) :
  (if Language_eqb l zh_CN then empatheticResponsesCN else empatheticResponsesEN)
  = cannedResponses l.
Proof. destruct l; reflexivity. Qed.

(** With no API key configured, neither provider is tried and the route
    answers 429. *)
Example POST_without_keys :
  GenerateReplyRoute.POST
    {| GenerateReplyRoute.OPENAI_API_KEY := None;
       GenerateReplyRoute.GROQ_API_KEY := None;
       GenerateReplyRoute.LLM_PROVIDER := Some (js "Groq") |}
    {| GenerateReplyRoute.openaiChat := GenerateReplyRoute.Ok (Normal (Some (js "unused")));
       GenerateReplyRoute.openaiResponses := GenerateReplyRoute.NotOk 500 (Normal []);
       GenerateReplyRoute.groqChat := GenerateReplyRoute.Rejected NonError |}
    (Normal {| url := js "/api/generate-reply"; req_prompt := js "hi";
               req_systemPrompt := None |})
  = GenerateReplyRoute.NextResponse_json 429 None.
Proof. reflexivity. Qed.

(** The [catch] block of [generateReply] always produces an entry of the
    table of the prompt's language. *)
Lemma fallback_draw (random : Q) (l : Language) :
  (0 <= random)%Q -> (random < 1)%Q ->
  exists s,
    nth_error (cannedResponses l)
              (floorIndex (random * numberOfNat (List.length (cannedResponses l))))
    = Some s
    /\ s <> [] /\ In s (cannedResponses l).
Proof.
  intros H0 H1.
  assert (Hi := @floorIndex_in_range random (List.length (cannedResponses l)) H0 H1).
  rewrite cannedResponses_length in *.
  specialize (Hi ltac:(lia)).
  destruct (nth_error (cannedResponses l) (floorIndex (random * numberOfNat 7))) as [s|] eqn:E.
  - exists s. split; [reflexivity|].
    apply nth_error_In in E. split; [|exact E].
    pose proof (cannedResponses_nonempty l) as Hall.
    rewrite Forall_forall in Hall. apply Hall, E.
  - apply nth_error_None in E. rewrite cannedResponses_length in E. lia.
Qed.

(** When both providers of the server route fail, the route answers with a
    status that is not ok (429, or 500 when a provider call throws). *)
Lemma POST_not_ok_when_providers_fail
      (env : GenerateReplyRoute.Env) (up : GenerateReplyRoute.Upstreams)
      (request : completion Request) :
  providerFails (GenerateReplyRoute.tryOpenAI env up) ->
  providerFails (GenerateReplyRoute.tryGroq env up) ->
  ok (GenerateReplyRoute.POST env up request) = false.
Proof.
  intros Ho Hg. unfold GenerateReplyRoute.POST.
  destruct request as [rq|e]; simpl; [|reflexivity].
  destruct (GenerateReplyRoute.jsstring_eqb _ _);
    destruct (GenerateReplyRoute.tryOpenAI env up) as [[to|]|eo];
    destruct (GenerateReplyRoute.tryGroq env up) as [[tg|]|eg];
    simpl in *; try contradiction; reflexivity.
Qed.

(** Whenever the HTTP call fails, the [catch] block answers, with the entry
    its random index picks in the table of the prompt's language. *)
Lemma generateReply_on_http_failure
      (fetch : Request -> completion Response) (random : Q)
      (prompt : jsstring) (systemPrompt : option jsstring) :
  (forall req, httpFails (fetch req)) ->
  generateReply fetch random prompt systemPrompt
  = Normal (nth_error
              (cannedResponses (detectLanguage prompt))
              (floorIndex
                 (random
                  * numberOfNat (List.length (cannedResponses (detectLanguage prompt)))))).
Proof.
  intros Hfail. unfold generateReply.
  match goal with
  | |- context [fetch ?r] => pose proof (Hfail r) as Hr; destruct (fetch r) as [resp|e]
  end; simpl in Hr |- *.
  - rewrite Hr. simpl. now rewrite responses_by_language.
  - now rewrite responses_by_language.
Qed.

(** C2. For every prompt, when the call to the generation endpoint fails
    (the HTTP call errors or the response is not ok, which is what the
    endpoint answers when every provider of its chain failed),
    [generateReply] returns normally, with a non-empty string taken from
    the canned-response table of the language detected for the prompt: it
    neither returns the empty string nor throws. *)
Theorem generateReply_falls_back
        (fetch : Request -> completion Response) (random : Q)
        (prompt : jsstring) (systemPrompt : option jsstring) :
  (0 <= random)%Q -> (random < 1)%Q ->
  (forall req, httpFails (fetch req)) ->
  exists s,
    generateReply fetch random prompt systemPrompt = Normal (Some s)
    /\ s <> []
    /\ In s (cannedResponses (detectLanguage prompt)).
Proof.
  intros H0 H1 Hfail.
  destruct (@fallback_draw random (detectLanguage prompt) H0 H1) as (s & Hs & Hne & Hin).
  exists s. split; [|split; assumption].
  rewrite (@generateReply_on_http_failure fetch random prompt systemPrompt Hfail).
  now rewrite Hs.
Qed.

Lemma generateReply_falls_back_witness :
  exists s,
    generateReply (fun _ => Throw NonError) (1 # 2) (js "hello") None = Normal (Some s)
    /\ s <> []
    /\ In s (cannedResponses (detectLanguage (js "hello"))).
Proof.
  apply generateReply_falls_back.
  - unfold Qle; simpl; lia.
  - unfold Qlt; simpl; lia.
  - intros req. exact I.
Defined.

(** The same end to end: the browser calls the route, and every provider
    behind the route fails. *)
Corollary generateReply_through_failing_route
          (env : GenerateReplyRoute.Env) (up : GenerateReplyRoute.Upstreams)
          (random : Q) (prompt : jsstring) (systemPrompt : option jsstring) :
  (0 <= random)%Q -> (random < 1)%Q ->
  providerFails (GenerateReplyRoute.tryOpenAI env up) ->
  providerFails (GenerateReplyRoute.tryGroq env up) ->
  exists s,
    generateReply (fun req => Normal (GenerateReplyRoute.POST env up (Normal req)))
                  random prompt systemPrompt = Normal (Some s)
    /\ s <> []
    /\ In s (cannedResponses (detectLanguage prompt)).
Proof.
  intros H0 H1 Ho Hg.
  destruct (@fallback_draw random (detectLanguage prompt) H0 H1) as (s & Hs & Hne & Hin).
  exists s. split; [|split; assumption].
  rewrite generateReply_on_http_failure; [now rewrite Hs|].
  intros req. simpl. now apply POST_not_ok_when_providers_fail.
Qed.

End FallbackReply.

(* ===================================================================== *)
(** ** The audio intensity *)
(* ===================================================================== *)

Section AudioIntensityFacts.

Import AudioProcessor Spec.
Local Open Scope R_scope.

Lemma sumOfSquares_from (frame : list Z) (acc : Z) :
  IZR (fold_left (fun sum x => (sum + x * x)%Z) frame acc) = IZR acc + squares frame.
Proof.
  revert acc. induction frame as [|x rest IH]; intros acc; simpl.
  - lra.
  - rewrite IH, plus_IZR, mult_IZR. lra.
Qed.

Lemma sumOfSquares_squares (frame : list Z) :
  IZR (sumOfSquares frame) = squares frame.
Proof. unfold sumOfSquares. rewrite sumOfSquares_from. simpl. lra. Qed.

(** The loop's accumulator stays an integer far below 2^53 on byte
    frames, so its floating-point additions are exact. *)
Lemma sumOfSquares_bounded (frame : list Z) :
  Forall (fun x => (0 <= x <= 255)%Z) frame ->
  (0 <= sumOfSquares frame <= 65025 * Z.of_nat (List.length frame))%Z.
Proof.
  unfold sumOfSquares.
  assert (G : forall l acc,
             Forall (fun x => (0 <= x <= 255)%Z) l ->
             (acc <= fold_left (fun sum x => (sum + x * x)%Z) l acc
                  <= acc + 65025 * Z.of_nat (List.length l))%Z).
  { induction l as [|x l IH]; intros acc Hall; simpl List.length; simpl fold_left.
    - lia.
    - inversion Hall as [|? ? Hx Hl]; subst.
      specialize (IH (acc + x * x)%Z Hl). nia. }
  intros Hall. specialize (G frame 0%Z Hall). lia.
Qed.

(** C9. For every spectral frame of byte magnitudes (the analyser's frame
    is never empty), [getAudioIntensity] returns [min (rms / 128) 1], where
    [rms] is the root mean square of the frame, and the value lies in the
    closed interval from 0 to 1. *)
Theorem getAudioIntensity_normalized (dataArray : list Z) :
  dataArray <> [] ->
  Forall (fun x => (0 <= x <= 255)%Z) dataArray ->
  exists intensity,
    getAudioIntensity dataArray = Some intensity
    /\ intensity = Rmin (rootMeanSquare dataArray / 128) 1
    /\ 0 <= intensity <= 1.
Proof.
  intros Hne _. unfold getAudioIntensity, rootMeanSquare.
  rewrite sumOfSquares_squares.
  destruct dataArray as [|x rest]; [congruence|].
  eexists. split; [reflexivity|]. split; [reflexivity|]. split.
  - apply Rmin_glb; [|lra].
    pose proof (sqrt_pos (squares (x :: rest) / INR (List.length (x :: rest)))). lra.
  - apply Rmin_r.
Qed.

Lemma getAudioIntensity_normalized_witness :
  exists intensity,
    getAudioIntensity [128; 128]%Z = Some intensity
    /\ intensity = Rmin (rootMeanSquare [128; 128]%Z / 128) 1
    /\ 0 <= intensity <= 1.
Proof.
  apply getAudioIntensity_normalized.
  - discriminate.
  - repeat constructor; lia.
Defined.

End AudioIntensityFacts.

(* ===================================================================== *)
(** ** Silence detection *)
(* ===================================================================== *)

Section SilenceFacts.

Import AudioProcessor Spec.
Import JsNumber (Qltb).

Local Open Scope Z_scope.

Lemma silenceReachedFrom_here T D known s rest :
  silenceReachedFrom T D known (s :: rest) 0
  <-> exists t, lastLoudFrom T known [s] = Some t /\ D <= fst s - t.
Proof.
  unfold silenceReachedFrom. simpl. split.
  - intros (now & x & t & E & L & H). inversion E; subst. simpl. eauto.
  - intros (t & L & H). destruct s as [now x]. exists now, x, t. auto.
Qed.

Lemma silenceReachedFrom_later T D known s rest i :
  silenceReachedFrom T D known (s :: rest) (S i)
  <-> silenceReachedFrom T D (lastLoudFrom T known [s]) rest i.
Proof. unfold silenceReachedFrom. simpl. reflexivity. Qed.

Lemma polls_stopped samples d i :
  silenceCheckIntervalId d = None -> nth_error (polls samples d) i <> Some true.
Proof.
  revert d i. induction samples as [|s rest IH]; intros d i Hd; simpl.
  - destruct i; discriminate.
  - unfold poll. rewrite Hd. destruct i; simpl; [discriminate|]. now apply IH.
Qed.

Lemma polls_fire_iff samples :
  forall d i,
    0 < silenceDuration d ->
    silenceCheckIntervalId d <> None ->
    (nth_error (polls samples d) i = Some true
     <-> silenceReachedFrom (silenceThreshold d) (silenceDuration d) (remembered d) samples i
         /\ forall j, (j < i)%nat ->
              ~ silenceReachedFrom (silenceThreshold d) (silenceDuration d)
                                   (remembered d) samples j).
Proof.
  induction samples as [|s rest IH]; intros d i HD Hact.
  - simpl. split.
    + destruct i; discriminate.
    + intros [(now & x & t & E & _) _]. destruct i; discriminate.
  - destruct s as [now x].
    simpl polls. unfold poll, intervalBody; simpl fst; simpl snd.
    destruct (silenceCheckIntervalId d) as [id|] eqn:Eid; [|congruence].
    destruct (Qltb (silenceThreshold d) x) eqn:Eloud.
    + (* a sample above the threshold *)
      set (d' := {| silenceThreshold := silenceThreshold d;
                    silenceDuration := silenceDuration d;
                    lastSoundTime := now; hasDetectedSound := true;
                    silenceCheckIntervalId := Some id |}).
      assert (Hnot0 : ~ silenceReachedFrom (silenceThreshold d) (silenceDuration d)
                        (remembered d) ((now, x) :: rest) 0).
      { rewrite silenceReachedFrom_here. simpl. rewrite Eloud.
        intros (t & Et & Ht). inversion Et; subst. lia. }
      destruct i as [|i]; simpl nth_error.
      * split; [discriminate|]. intros [H _]. contradiction.
      * rewrite (IH d' i HD ltac:(discriminate)).
        rewrite silenceReachedFrom_later. simpl. rewrite Eloud.
        change (remembered d') with (Some now). simpl silenceThreshold. simpl silenceDuration.
        split; intros [H1 H2]; (split; [exact H1|]).
        -- intros [|j] Hj; [exact Hnot0|].
           rewrite silenceReachedFrom_later. simpl. rewrite Eloud. apply H2. lia.
        -- intros j Hj. specialize (H2 (S j) ltac:(lia)).
           rewrite silenceReachedFrom_later in H2. simpl in H2. now rewrite Eloud in H2.
    + unfold remembered in *.
      destruct (hasDetectedSound d) eqn:Ehas.
      * destruct (silenceDuration d <=? now - lastSoundTime d) eqn:Eel.
        -- (* silence has lasted long enough: the callback runs *)
           apply Z.leb_le in Eel.
           assert (H0 : silenceReachedFrom (silenceThreshold d) (silenceDuration d)
                          (Some (lastSoundTime d)) ((now, x) :: rest) 0).
           { rewrite silenceReachedFrom_here. simpl. rewrite Eloud. eauto. }
           destruct i as [|i]; simpl nth_error.
           ++ split; [intros _; split; [exact H0 | intros j Hj; lia] | reflexivity].
           ++ split.
              ** intro H. exfalso. revert H. apply polls_stopped.
                 unfold stopSilenceDetection. rewrite Eid. reflexivity.
              ** intros [_ H2]. exfalso. apply (H2 0%nat); [lia | exact H0].
        -- apply Z.leb_gt in Eel.
           assert (Hnot0 : ~ silenceReachedFrom (silenceThreshold d) (silenceDuration d)
                             (Some (lastSoundTime d)) ((now, x) :: rest) 0).
           { rewrite silenceReachedFrom_here. simpl. rewrite Eloud.
             intros (t & Et & Ht). inversion Et; subst. lia. }
           destruct i as [|i]; simpl nth_error.
           ++ split; [discriminate|]. intros [H _]. contradiction.
           ++ rewrite (IH d i HD ltac:(congruence)). unfold remembered. rewrite Ehas.
              rewrite silenceReachedFrom_later. simpl. rewrite Eloud.
              split; intros [H1 H2]; (split; [exact H1|]).
              ** intros [|j] Hj; [exact Hnot0|].
                 rewrite silenceReachedFrom_later. simpl. rewrite Eloud. apply H2. lia.
              ** intros j Hj. specialize (H2 (S j) ltac:(lia)).
                 rewrite silenceReachedFrom_later in H2. simpl in H2.
                 now rewrite Eloud in H2.
      * (* quiet, and nothing heard yet *)
        assert (Hnot0 : ~ silenceReachedFrom (silenceThreshold d) (silenceDuration d)
                          None ((now, x) :: rest) 0).
        { rewrite silenceReachedFrom_here. simpl. rewrite Eloud.
          intros (t & Et & _). discriminate. }
        destruct i as [|i]; simpl nth_error.
        -- split; [discriminate|]. intros [H _]. contradiction.
        -- rewrite (IH d i HD ltac:(congruence)). unfold remembered. rewrite Ehas.
           rewrite silenceReachedFrom_later. simpl. rewrite Eloud.
           split; intros [H1 H2]; (split; [exact H1|]).
           ++ intros [|j] Hj; [exact Hnot0|].
              rewrite silenceReachedFrom_later. simpl. rewrite Eloud. apply H2. lia.
           ++ intros j Hj. specialize (H2 (S j) ltac:(lia)).
              rewrite silenceReachedFrom_later in H2. simpl in H2.
              now rewrite Eloud in H2.
Qed.

Lemma polls_fire_after_sound samples :
  forall d i,
    nth_error (polls samples d) i = Some true ->
    hasDetectedSound d = true
    \/ exists j s, (j < i)%nat /\ nth_error samples j = Some s
                   /\ aboveThreshold (silenceThreshold d) s.
Proof.
  induction samples as [|[now x] rest IH]; intros d i H.
  - destruct i; discriminate.
  - simpl polls in H. unfold poll, intervalBody in H; simpl fst in H; simpl snd in H.
    destruct (silenceCheckIntervalId d) as [id|] eqn:Eid.
    + destruct (Qltb (silenceThreshold d) x) eqn:Eloud.
      * destruct i as [|i]; [discriminate|]. right.
        exists 0%nat, (now, x). split; [lia|]. split; [reflexivity|].
        now apply Qltb_true_iff.
      * destruct (hasDetectedSound d) eqn:Ehas; [now left|].
        destruct i as [|i]; [discriminate|]. simpl in H.
        destruct (IH d i H) as [Hh|(j & s & Hj & Es & Hs)]; [congruence|].
        right. exists (S j), s. split; [lia|]. split; assumption.
    + destruct i as [|i]; [discriminate|]. simpl in H.
      exfalso. revert H. now apply polls_stopped.
Qed.

(** C3. For every sequence of polled samples [(now, intensity)] and every
    positive silence duration: the callback is invoked at poll [i] exactly
    when [i] is the first poll at which some sample has exceeded the
    threshold and the time elapsed since the last sample above the
    threshold is at least the duration; and whenever it is invoked, an
    earlier sample exceeded the threshold. *)
Theorem silence_callback_timing
        (threshold : Q) (duration now0 : Z) (id : N)
        (samples : list (Z * Q)) (i : nat) :
  0 < duration ->
  let fired := polls samples (startSilenceDetection threshold duration now0 id) in
  (nth_error fired i = Some true
   <-> silenceReached threshold duration samples i
       /\ forall j, (j < i)%nat -> ~ silenceReached threshold duration samples j)
  /\ (nth_error fired i = Some true ->
      exists j s, (j < i)%nat /\ nth_error samples j = Some s
                  /\ aboveThreshold threshold s).
Proof.
  intros HD fired. split.
  - apply (polls_fire_iff samples (startSilenceDetection threshold duration now0 id) i).
    + exact HD.
    + discriminate.
  - intros H. apply polls_fire_after_sound in H.
    destruct H as [H|H]; [discriminate | exact H].
Qed.

Lemma silence_callback_timing_witness :
  let samples := [(0, 0.01%Q); (150, 0.5%Q); (300, 0.01%Q); (450, 0%Q); (600, 0%Q); (750, 0%Q)] in
  let fired := polls samples (startSilenceDetection 0.03%Q 500 0 1%N) in
  (nth_error fired 5 = Some true
   <-> silenceReached 0.03%Q 500 samples 5
       /\ forall j, (j < 5)%nat -> ~ silenceReached 0.03%Q 500 samples j)
  /\ (nth_error fired 5 = Some true ->
      exists j s, (j < 5)%nat /\ nth_error samples j = Some s
                  /\ aboveThreshold 0.03%Q s).
Proof.
  intros samples.
  apply (@silence_callback_timing 0.03%Q 500 0 1%N samples 5). lia.
Defined.

(** A run: quiet, speech at 150 ms, then silence; the callback runs once,
    at the poll of 750 ms. *)
Example silence_run :
  polls [(0, 0.01%Q); (150, 0.5%Q); (300, 0.01%Q); (450, 0%Q); (600, 0%Q); (750, 0%Q);
         (900, 0%Q)]
        (startSilenceDetection 0.03%Q 500 0 1%N)
  = [false; false; false; false; false; true; false].
Proof. reflexivity. Qed.

End SilenceFacts.

(* ===================================================================== *)
(** ** PCM16 and Float32 *)
(* ===================================================================== *)

Section PcmFacts.

Import JsNumber AudioProcessor DeepgramRealtime.
Import JsNumber (Qltb).

Lemma Qltb_false_iff (x y : Q) : Qltb x y = false <-> (y <= x)%Q.
Proof.
  unfold Qltb. rewrite negb_false_iff. apply Qle_bool_iff.
Qed.

Lemma encodeSample_low (x : number) : le x (Fin (-1)) -> encodeSample x = (-32768)%Z.
Proof.
  destruct x as [q| | |]; simpl; intros H; try contradiction; [|reflexivity].
  unfold encodeSample. simpl Math_min.
  assert (E1 : Qltb q 1 = true).
  { apply Qltb_true_iff. eapply Qle_lt_trans; [exact H|]. reflexivity. }
  rewrite E1. simpl Math_max.
  assert (E2 : Qltb (-1) q = false) by (now apply Qltb_false_iff).
  rewrite E2. reflexivity.
Qed.

Lemma encodeSample_high (x : number) : le (Fin 1) x -> encodeSample x = 32767%Z.
Proof.
  destruct x as [q| | |]; simpl; intros H; try contradiction; [|reflexivity].
  unfold encodeSample. simpl Math_min.
  assert (E1 : Qltb q 1 = false) by (now apply Qltb_false_iff).
  rewrite E1. reflexivity.
Qed.

Lemma encodeSample_range (x : number) : (-32768 <= encodeSample x <= 32767)%Z.
Proof.
  unfold encodeSample.
  destruct (if ltb _ _ then _ else _) as [q| | |]; simpl; try lia.
  unfold wrap16.
  pose proof (Z.mod_pos_bound (truncate q + 32768) 65536 ltac:(lia)). lia.
Qed.

Lemma truncate_scaled (q : Q) (c : Z) :
  truncate (q * inject_Z c) = Z.quot (Qnum q * c) (Zpos (Qden q)).
Proof.
  unfold truncate, Qmult, inject_Z. simpl. now rewrite Pos.mul_1_r.
Qed.




(** A round trip through both conversions: the count is kept, negative
    samples come back unchanged and positive ones one step lower. *)
Example pcm16_round_trip :
  float32ToPCM16 (int16ToFloat32 [-32768; -1; 0; 1; 32767]%Z)
  = [-32768; -1; 0; 0; 32766]%Z.
Proof. reflexivity. Qed.

End PcmFacts.

(* ===================================================================== *)
(** ** The transcript handler *)
(* ===================================================================== *)

Section TranscriptFacts.

Import Js JsString VoiceInterface Spec.

Lemma lastOf_snoc {A} (l : list A) (x : A) : lastOf (l ++ [x]) = Some x.
Proof.
  unfold lastOf. rewrite length_app. simpl.
  replace (List.length l + 1 - 1)%nat with (List.length l) by lia.
  rewrite nth_error_app2 by lia. now rewrite Nat.sub_diag.
Qed.

Lemma lastOf_nil {A} : lastOf (@nil A) = None.
Proof. reflexivity. Qed.

(** The updater [handleTranscript] passes to [setTranscripts]. *)
Lemma upsert_user (entry : Entry) (prev : list Entry) :
  match lastOf prev with
  | Some last =>
    if String.eqb (role last) "user" then slice_0_m1 prev ++ [entry] else prev ++ [entry]
  | None => prev ++ [entry]
  end
  = withoutTrailingUser prev ++ [entry].
Proof.
  unfold withoutTrailingUser, slice_0_m1.
  destruct prev as [|e0 l0] using rev_ind.
  - reflexivity.
  - rewrite lastOf_snoc, rev_unit, removelast_last, rev_involutive.
    destruct (String.eqb (role e0) "user"); reflexivity.
Qed.

Lemma withoutTrailingUser_snoc_user (log : list Entry) (t : jsstring) :
  withoutTrailingUser (log ++ [userEntry t]) = log.
Proof.
  unfold withoutTrailingUser. rewrite rev_unit. simpl. apply rev_involutive.
Qed.

Lemma transcripts_after_transcript (text : jsstring) (isFinal : bool) (s : Store) :
  transcripts (storeAfter (handleTranscript text isFinal) s)
  = withoutTrailingUser (transcripts s)
    ++ [userEntry (if isFinal then text else text ++ ellipsis)].
Proof.
  unfold storeAfter. destruct isFinal; cbn; apply upsert_user.
Qed.

Lemma phase_after_transcript (text : jsstring) (isFinal : bool) (s : Store) :
  phase (storeAfter (handleTranscript text isFinal) s)
  = if isFinal then processing else listening.
Proof. unfold storeAfter. destruct isFinal; reflexivity. Qed.

Lemma actions_of_transcript (text : jsstring) (isFinal : bool) (s : Store) :
  actions (traceOf (handleTranscript text isFinal) s)
  = if isFinal then [SetPhase processing; GenerateReplyCalled text]
    else [SetPhase listening].
Proof. unfold traceOf. destruct isFinal; reflexivity. Qed.

Lemma suspension_of_final (text : jsstring) (s : Store) :
  exists k, suspensionOf (handleTranscript text true) s = OnGenerateReply text k.
Proof. unfold suspensionOf. cbn. eexists. reflexivity. Qed.

Lemma suspension_of_interim (text : jsstring) (s : Store) :
  suspensionOf (handleTranscript text false) s = Finished (Normal tt).
Proof. reflexivity. Qed.

Lemma outstanding_after_final (text : jsstring) (m : Machine) :
  exists k,
    outstanding (deliverTranscript text true m)
    = outstanding m ++ [OnGenerateReply text k].
Proof. unfold deliverTranscript. cbn. eexists. reflexivity. Qed.

(** C1, as the code has it. The handler has no guard on the phase: a final
    transcript delivered in any phase, Processing and Speaking included,
    puts its text in the log as the trailing user entry (replacing a
    trailing user entry, appended otherwise), sets the phase to
    Processing, and starts one more generation, which is added to the
    outstanding turns. *)
Theorem final_transcript_is_handled_in_every_phase
        (text : jsstring) (s : Store) (m : Machine) :
  let s' := storeAfter (handleTranscript text true) s in
  transcripts s' = withoutTrailingUser (transcripts s) ++ [userEntry text]
  /\ phase s' = processing
  /\ actions (traceOf (handleTranscript text true) s)
     = [SetPhase processing; GenerateReplyCalled text]
  /\ (exists k, suspensionOf (handleTranscript text true) s = OnGenerateReply text k)
  /\ List.length (outstanding (deliverTranscript text true m))
     = S (List.length (outstanding m)).
Proof.
  intros s'. split; [|split; [|split; [|split]]].
  - apply (transcripts_after_transcript text true s).
  - apply (phase_after_transcript text true s).
  - apply (actions_of_transcript text true s).
  - apply suspension_of_final.
  - destruct (outstanding_after_final text m) as [k Hk].
    rewrite Hk, length_app. simpl. lia.
Qed.

(** C1, refuted as stated. A final transcript that arrives while the
    phase is Speaking is not ignored: the log gains a user entry and the
    phase changes to Processing; delivered to a machine with one turn
    outstanding, it leaves two. *)
Lemma final_transcript_while_speaking_is_not_ignored :
  let s' := storeAfter (handleTranscript (js "one more thing") true) speakingStore in
  phase speakingStore = speaking
  /\ transcripts s' <> transcripts speakingStore
  /\ List.length (transcripts s') = 3%nat
  /\ phase s' = processing
  /\ phase s' <> phase speakingStore
  /\ List.length
       (outstanding
          (deliverTranscript (js "one more thing") true
             (deliverTranscript (js "hello there") true
                {| store := speakingStore; outstanding := [] |})))
     = 2%nat.
Proof.
  cbv zeta. repeat split; try reflexivity; try discriminate.
Qed.

(** C4. For every start store and every three transcript events (interim,
    interim, final) of one utterance, handled in this order: each interim
    entry replaces the one before it, so that after the final event the
    log is the log from before the utterance followed by exactly one user
    entry, whose text is the final text; the phase is Processing, and it
    was set to Processing exactly once. *)
Theorem interim_interim_final
        (interim1 interim2 final : jsstring) (s : Store) :
  let s1 := storeAfter (handleTranscript interim1 false) s in
  let s2 := storeAfter (handleTranscript interim2 false) s1 in
  let s3 := storeAfter (handleTranscript final true) s2 in
  let trace := traceOf (handleTranscript interim1 false) s
               ++ traceOf (handleTranscript interim2 false) s1
               ++ traceOf (handleTranscript final true) s2 in
  let before := withoutTrailingUser (transcripts s) in
  transcripts s1 = before ++ [userEntry (interim1 ++ ellipsis)]
  /\ transcripts s2 = before ++ [userEntry (interim2 ++ ellipsis)]
  /\ transcripts s3 = before ++ [userEntry final]
  /\ List.length (transcripts s3) = S (List.length before)
  /\ phase s3 = processing
  /\ List.length (filter entersProcessing (actions trace)) = 1%nat.
Proof.
  intros s1 s2 s3 trace before.
  assert (E1 : transcripts s1 = before ++ [userEntry (interim1 ++ ellipsis)]).
  { apply (transcripts_after_transcript interim1 false s). }
  assert (E2 : transcripts s2 = before ++ [userEntry (interim2 ++ ellipsis)]).
  { unfold s2. rewrite (transcripts_after_transcript interim2 false s1), E1.
    now rewrite withoutTrailingUser_snoc_user. }
  assert (E3 : transcripts s3 = before ++ [userEntry final]).
  { unfold s3. rewrite (transcripts_after_transcript final true s2), E2.
    now rewrite withoutTrailingUser_snoc_user. }
  split; [exact E1|]. split; [exact E2|]. split; [exact E3|]. split; [|split].
  - rewrite E3, length_app. simpl. lia.
  - apply (phase_after_transcript final true s2).
  - unfold trace, actions. rewrite !map_app.
    change (map snd (traceOf (handleTranscript interim1 false) s))
      with (actions (traceOf (handleTranscript interim1 false) s)).
    change (map snd (traceOf (handleTranscript interim2 false) s1))
      with (actions (traceOf (handleTranscript interim2 false) s1)).
    change (map snd (traceOf (handleTranscript final true) s2))
      with (actions (traceOf (handleTranscript final true) s2)).
    rewrite !actions_of_transcript. reflexivity.
Qed.

(** The same count for any sequence of events: the phase is set to
    Processing once per final event. *)
Lemma processing_once_per_final (events : list (jsstring * bool)) (s : Store) :
  List.length (filter entersProcessing (actions (snd (handleAll events s))))
  = List.length (filter (fun e => snd e) events).
Proof.
  revert s. induction events as [|[text isFinal] rest IH]; intros s; [reflexivity|].
  simpl handleAll.
  destruct (handleAll rest (storeAfter (handleTranscript text isFinal) s)) as [s' tr] eqn:E.
  specialize (IH (storeAfter (handleTranscript text isFinal) s)). rewrite E in IH.
  simpl snd in *. unfold actions in *. rewrite map_app, filter_app, length_app, IH.
  change (map snd (traceOf (handleTranscript text isFinal) s))
    with (actions (traceOf (handleTranscript text isFinal) s)).
  rewrite actions_of_transcript. destruct isFinal; reflexivity.
Qed.

End TranscriptFacts.

(* ===================================================================== *)
(** ** The recognition client *)
(* ===================================================================== *)

Section RecognitionFacts.

Import Js JsString WebSpeechSTT VoiceInterface Spec.

Lemma truthy_nonempty (t : jsstring) : truthy t = true -> t <> [].
Proof. destruct t; [discriminate | intros _; discriminate]. Qed.

Lemma onresult_calls (event : SpeechRecognitionEvent) (calls : list (jsstring * bool)) :
  onresult event = Normal calls ->
  calls = [] \/ exists text, calls = [(text, true)] /\ truthy text = true.
Proof.
  unfold onresult.
  destruct (collect _ _) as [collected|e]; simpl; [|discriminate].
  destruct (truthy (trim collected)) eqn:T; intros H; inversion H; subst; eauto.
Qed.

(** C10. The recognition is set up with interim results disabled and as
    non-continuous; every call [onresult] makes to [onTranscript] has
    [isFinal = true] and a non-empty text (an empty collected transcript
    makes no call); and the orchestrator handles every such call on its
    final branch: the phase is set to Processing, never to Listening. *)
Theorem web_speech_delivers_final_nonempty
        (language : jsstring) (recognition : Recognition)
        (event : SpeechRecognitionEvent) (calls : list (jsstring * bool)) :
  onresult event = Normal calls ->
  interimResults (setupRecognition language recognition) = false
  /\ continuous (setupRecognition language recognition) = false
  /\ (List.length calls <= 1)%nat
  /\ forall text isFinal,
      In (text, isFinal) calls ->
      isFinal = true
      /\ text <> []
      /\ forall s : Store,
          ~ In (SetPhase listening) (actions (traceOf (handleTranscript text isFinal) s))
          /\ phase (storeAfter (handleTranscript text isFinal) s) = processing.
Proof.
  intros H. split; [reflexivity|]. split; [reflexivity|].
  destruct (onresult_calls event H) as [E|(text0 & E & T)]; subst calls.
  - split; [simpl; lia|]. intros text isFinal [].
  - split; [simpl; lia|]. intros text isFinal [Hin|[]].
    inversion Hin; subst. split; [reflexivity|]. split; [now apply truthy_nonempty|].
    intros s. split.
    + rewrite (actions_of_transcript text true s). simpl.
      intros [F|[F|[]]]; discriminate.
    + apply (phase_after_transcript text true s).
Qed.

Lemma web_speech_delivers_final_nonempty_witness :
  onresult sampleEvent = Normal [(js "hello there", true)]
  /\ interimResults
       (setupRecognition (js "en-US")
          {| continuous := true; interimResults := true;
             maxAlternatives := 1; lang := [] |}) = false
  /\ Forall (fun call => snd call = true /\ fst call <> [])
            [(js "hello there", true)].
Proof.
  assert (E : onresult sampleEvent = Normal [(js "hello there", true)]) by reflexivity.
  destruct (@web_speech_delivers_final_nonempty
              (js "en-US")
              {| continuous := true; interimResults := true;
                 maxAlternatives := 1; lang := [] |}
              sampleEvent _ E) as (Hint & _ & _ & Hcalls).
  split; [exact E|]. split; [exact Hint|].
  apply Forall_forall. intros [text isFinal] Hin.
  destruct (Hcalls text isFinal Hin) as (Hf & Hne & _). split; assumption.
Defined.

End RecognitionFacts.

(* ===================================================================== *)
(** ** One turn: generation, synthesis, restart *)
(* ===================================================================== *)

Section TurnFacts.

Import Js JsString VoiceInterface Spec.

#[local] Arguments sorryPrefix : simpl never.
#[local] Arguments audioFailed : simpl never.
#[local] Arguments voiceName_for : simpl never.
#[local] Arguments mp3Format : simpl never.

(** Every way a turn can go, by what the world answers and which refs are
    set when the turn looks at them. *)
Ltac turn_cases w u s :=
  unfold turnTrace, turnStore, turnResult; cbn;
  let r := fresh "reply" in
  let e := fresh "e" in
  let s1 := fresh "s1" in
  let s2 := fresh "s2" in
  destruct (generateReplyW w u (setIsGeneratingIn true s)) as [[r|e] s1]; cbn;
  [ destruct (ttsClientRef s1); cbn;
    [ match goal with
      | |- context [synthesizeAndPlayW ?w' ?a ?b ?c] =>
        destruct (synthesizeAndPlayW w' a b c) as [[[]|?] s2]
      end; cbn;
      destruct (clientRef s2); cbn
    | destruct (clientRef s1); cbn ]
  | destruct (clientRef s1); cbn ].

(** Running to the end is running to the first [await], letting the world
    settle the awaited call, and running on. *)
Lemma drive_resumes {A} (w : World) (p : Async A) :
  forall s,
    drive w p s
    = match runSync p s with
      | (s1, tr, Finished c) => (s1, tr, c)
      | (s1, tr, OnGenerateReply q k) =>
        let '(o, s') := generateReplyW w q s1 in
        let '(s2, tr2, c) := drive w (k o) s' in
        (s2, tr ++ (clock s', GenerateReplySettled o) :: tr2, c)
      | (s1, tr, OnSynthesizeAndPlay cl r k) =>
        let '(o, s') := synthesizeAndPlayW w cl r s1 in
        let '(s2, tr2, c) := drive w (k o) s' in
        (s2, tr ++ (clock s', SynthesizeSettled o) :: tr2, c)
      end.
Proof.
  induction p as [c|k IH|s' k IH|a k IH|q k IH|cl r k IH]; intros s; simpl.
  - reflexivity.
  - apply IH.
  - apply IH.
  - rewrite IH. destruct (runSync k s) as [[s1 tr] [c|q k'|cl r k']]; simpl.
    + reflexivity.
    + destruct (generateReplyW w q s1) as [o s2].
      destruct (drive w (k' o) s2) as [[s3 tr3] c]. reflexivity.
    + destruct (synthesizeAndPlayW w cl r s1) as [o s2].
      destruct (drive w (k' o) s2) as [[s3 tr3] c]. reflexivity.
  - destruct (generateReplyW w q s) as [o s2].
    destruct (drive w (k o) s2) as [[s3 tr3] c]. reflexivity.
  - destruct (synthesizeAndPlayW w cl r s) as [o s2].
    destruct (drive w (k o) s2) as [[s3 tr3] c]. reflexivity.
Qed.

(** A final transcript runs the whole turn: the handler's own updates, then
    [generateAndSpeak] on the store they leave. *)
Lemma handleTranscript_final_turn (w : World) (text : jsstring) (s : Store) :
  let s0 := setPhaseIn processing
              (setTranscriptsIn (fun prev => withoutTrailingUser prev ++ [userEntry text])
                 (setUserSubtitleIn text
                    (setLastMessageTimeIn (clock s)
                       (setLatencyIn (clock s - lastMessageTimeRef s) s)))) in
  actions (snd (fst (drive w (handleTranscript text true) s)))
  = SetPhase processing :: actions (turnTrace w text s0)
  /\ transcripts (fst (fst (drive w (handleTranscript text true) s)))
     = transcripts (turnStore w text s0).
Proof.
  assert (E : forall s1 : Store,
             setTranscriptsIn
               (fun prev =>
                  match lastOf prev with
                  | Some last =>
                    if String.eqb (role last) "user"
                    then slice_0_m1 prev ++ [{| role := "user"; text := text |}]
                    else prev ++ [{| role := "user"; text := text |}]
                  | None => prev ++ [{| role := "user"; text := text |}]
                  end) s1
             = setTranscriptsIn
                 (fun prev => withoutTrailingUser prev ++ [userEntry text]) s1).
  { intros s1. unfold setTranscriptsIn. f_equal. apply upsert_user. }
  intros s0. unfold turnTrace, turnStore, s0.
  cbn. rewrite E.
  destruct (generateReplyW w text _) as [[reply|e] s1]; cbn.
  - destruct (ttsClientRef s1); cbn.
    + match goal with
      | |- context [synthesizeAndPlayW ?w' ?a ?b ?c] =>
        destruct (synthesizeAndPlayW w' a b c) as [[[]|?] s2]
      end; cbn; destruct (clientRef s2); cbn; split; reflexivity.
    + destruct (clientRef s1); cbn; split; reflexivity.
  - destruct (clientRef s1); cbn; split; reflexivity.
Qed.

(** The actions of a turn are one of the sequences of [turnActions], the
    turn ends normally, and the synthesis client carries the voice of the
    reply's language. *)
Lemma turn_shape (w : World) (userText : jsstring) (s : Store) :
  exists o restart,
    actions (turnTrace w userText s) = turnActions userText o restart
    /\ turnResult w userText s = Normal tt
    /\ forall reply client settled,
        o = ReplySpoken reply client settled ->
        client = {| voiceName := voiceName_for (TextGeneration.detectLanguage reply);
                    outputFormat := mp3Format |}.
Proof.
  turn_cases w userText s.
  all: match goal with
       | |- context [SynthesizeSettled ?o] =>
         match goal with
         | |- context [SynthesizeCalled ?cl ?r] => exists (ReplySpoken r cl o)
         end
       | |- context [GenerateReplySettled (Normal ?r)] => exists (ReplyUnspoken r)
       | |- context [GenerateReplySettled (Throw ?e)] => exists (ReplyFailed e)
       end.
  all: match goal with
       | |- context [RecognitionDisconnect] => exists true
       | _ => exists false
       end.
  all: split; [reflexivity|]; split; [reflexivity|].
  all: intros reply' client' settled' H; inversion H; subst; reflexivity.
Qed.

(** The restart timer is set at the very time the recognition is
    disconnected, and it is due 500 ms later. *)
Lemma turn_restart_timer (w : World) (userText : jsstring) (s : Store) (t : Z) :
  In (t, RecognitionDisconnect) (turnTrace w userText s) ->
  In (t, TimeoutSet 500 RestartRecognition) (turnTrace w userText s)
  /\ exists before,
      timers (turnStore w userText s)
      = before ++ [{| due := t + 500; callback := RestartRecognition |}].
Proof.
  turn_cases w userText s.
  all: intros H;
    repeat (destruct H as [H|H]; [inversion H; subst; clear H|]);
    try contradiction.
  all: split; [repeat (first [left; reflexivity | right]) | eexists; reflexivity].
Qed.

(** Where an action sits in an explicit sequence: one goal per position
    at which it can be. *)
Ltac positions H :=
  lazymatch type of H with
  | [] = ?pre ++ _ :: _ => destruct pre; discriminate H
  | _ :: _ = ?pre ++ _ :: _ =>
    let p := fresh "p" in
    let pre' := fresh "pre" in
    destruct pre as [|p pre']; simpl in H;
    [ inversion H; subst; clear H
    | let Hh := fresh "Hh" in
      injection H as Hh H; subst p; positions H ]
  end.

Ltac in_list := simpl; repeat (first [left; reflexivity | right]).

Ltac members H :=
  simpl in H; repeat (destruct H as [H|H]; [inversion H; subst; clear H|]);
  try contradiction.

Lemma turnActions_synthesis_after_generation userText o restart pre client reply post :
  turnActions userText o restart = pre ++ SynthesizeCalled client reply :: post ->
  In (GenerateReplyCalled userText) pre
  /\ In (GenerateReplySettled (Normal reply)) pre
  /\ In (SetPhase speaking) pre
  /\ ~ In (SetPhase idle) pre.
Proof.
  intros H. destruct o, restart; unfold turnActions in H; simpl in H; positions H.
  all: repeat split; try in_list.
  all: intros F; members F.
Qed.

Lemma turnActions_idle_after_synthesis userText o restart pre post :
  turnActions userText o restart = pre ++ SetPhase idle :: post ->
  In (GenerateReplyCalled userText) pre
  /\ (exists outcome, In (GenerateReplySettled outcome) pre)
  /\ (forall client reply,
         In (SynthesizeCalled client reply) (turnActions userText o restart) ->
         In (SynthesizeCalled client reply) pre
         /\ exists settled, In (SynthesizeSettled settled) pre)
  /\ (forall a, In a post -> a = RecognitionDisconnect
                             \/ a = TimeoutSet 500 RestartRecognition).
Proof.
  intros H. destruct o, restart; unfold turnActions in H |- *; simpl in H |- *; positions H.
  all: split; [in_list|]; split; [eexists; in_list|]; split.
  all: try (intros client' reply' F; members F; (split; [in_list | eexists; in_list])).
  all: intros a F; simpl in F; intuition (subst; auto).
Qed.

Lemma turnActions_idle userText o restart :
  In (SetPhase idle) (turnActions userText o restart)
  /\ ~ In RecognitionConnect (turnActions userText o restart).
Proof.
  destruct o, restart; unfold turnActions; split; try in_list; intros F; members F.
Qed.

Lemma turnActions_restart_after_idle userText o restart pre post :
  turnActions userText o restart = pre ++ RecognitionDisconnect :: post ->
  In (SetPhase idle) pre /\ post = [TimeoutSet 500 RestartRecognition].
Proof.
  intros H. destruct o, restart; unfold turnActions in H; simpl in H; positions H.
  all: split; [in_list | reflexivity].
Qed.

(** A timer callback leaves the store as it is and can only start a
    connection, stamped with the time at which it runs. *)
Lemma runCallback_sync (cb : TimerCallback) (st : Store) :
  fst (fst (runSync (runCallback cb) st)) = st
  /\ (snd (fst (runSync (runCallback cb) st)) = []
      \/ snd (fst (runSync (runCallback cb) st)) = [(clock st, RecognitionConnect)]).
Proof.
  destruct cb. cbn. destruct (clientRef st); cbn; auto.
Qed.

Lemma expire_from (now : Z) (due_timers : list Timer) :
  forall (st : Store) (tr : Trace) (x : Z * Action),
    clock st = now ->
    In x (snd (fold_left
                 (fun acc t =>
                    let '(st', tr', _) := runSync (runCallback (callback t)) (fst acc) in
                    (st', snd acc ++ tr'))
                 due_timers (st, tr))) ->
    In x tr \/ (x = (now, RecognitionConnect) /\ due_timers <> []).
Proof.
  induction due_timers as [|tm rest IH]; intros st tr x Hclock H; simpl in H.
  - now left.
  - destruct (runCallback_sync (callback tm) st) as [Est Etr].
    destruct (runSync (runCallback (callback tm)) st) as [[st' tr'] r] eqn:E.
    simpl in Est, Etr, H. subst st'.
    apply (IH st (tr ++ tr') x Hclock) in H.
    destruct H as [H|[H _]].
    + apply in_app_or in H. destruct H as [H|H]; [now left|].
      right. split; [|discriminate].
      destruct Etr as [Etr|Etr]; rewrite Etr in H; simpl in H;
        [contradiction | destruct H as [H|[]]; congruence].
    + right. split; [exact H | discriminate].
Qed.

Lemma expire_connects_only_when_due (now : Z) (s : Store) (t : Z) :
  In (t, RecognitionConnect) (snd (expire now s)) ->
  t = now /\ exists timer, In timer (timers s) /\ (due timer <= now)%Z.
Proof.
  unfold expire. intros H.
  apply (@expire_from now) in H; [|reflexivity].
  destruct H as [[]|[E Hne]]. inversion E; subst. split; [reflexivity|].
  destruct (ready now s) as [|timer rest] eqn:R; [congruence|].
  assert (Hin : In timer (ready now s)) by (rewrite R; now left).
  unfold ready in Hin. apply filter_In in Hin. destruct Hin as [Hin Hdue].
  exists timer. split; [exact Hin|]. now apply Z.leb_le.
Qed.

Lemma restart_timer_ready (s : Store) (before : list Timer) (t now : Z) :
  timers s = before ++ [{| due := t + 500; callback := RestartRecognition |}] ->
  In {| due := t + 500; callback := RestartRecognition |} (timers s)
  /\ (In {| due := t + 500; callback := RestartRecognition |} (ready now s)
      <-> (t + 500 <= now)%Z).
Proof.
  intros E.
  assert (Hin : In {| due := t + 500; callback := RestartRecognition |} (timers s)).
  { rewrite E. apply in_or_app. right. now left. }
  split; [exact Hin|]. unfold ready. rewrite filter_In. unfold isDue. simpl.
  rewrite Z.leb_le. tauto.
Qed.

(** C6. Within every turn, whatever the world answers: the turn ends
    normally; a synthesis is only started after the generation was called
    and settled with the reply that is spoken, and after the phase was set
    to Speaking (and before it is set to Idle); the phase is set to Idle,
    and only after every synthesis the turn started has settled, by
    success or by failure; the turn itself never reconnects the
    recognition: it disconnects it after the phase is Idle and, at that
    very time, sets a timer of 500 ms, which is ready exactly from 500 ms
    after the disconnection; and the timer phase of the event loop
    reconnects only for a timer that is due. *)
Theorem turn_ordering (w : World) (userText : jsstring) (s : Store) :
  let acts := actions (turnTrace w userText s) in
  turnResult w userText s = Normal tt
  /\ (forall pre client reply post,
         acts = pre ++ SynthesizeCalled client reply :: post ->
         In (GenerateReplyCalled userText) pre
         /\ In (GenerateReplySettled (Normal reply)) pre
         /\ In (SetPhase speaking) pre
         /\ ~ In (SetPhase idle) pre)
  /\ In (SetPhase idle) acts
  /\ (forall pre post,
         acts = pre ++ SetPhase idle :: post ->
         In (GenerateReplyCalled userText) pre
         /\ (exists outcome, In (GenerateReplySettled outcome) pre)
         /\ (forall client reply,
                In (SynthesizeCalled client reply) acts ->
                In (SynthesizeCalled client reply) pre
                /\ exists settled, In (SynthesizeSettled settled) pre)
         /\ (forall a, In a post -> a = RecognitionDisconnect
                                    \/ a = TimeoutSet 500 RestartRecognition))
  /\ ~ In RecognitionConnect acts
  /\ (forall pre post,
         acts = pre ++ RecognitionDisconnect :: post ->
         In (SetPhase idle) pre /\ post = [TimeoutSet 500 RestartRecognition])
  /\ (forall t,
         In (t, RecognitionDisconnect) (turnTrace w userText s) ->
         In (t, TimeoutSet 500 RestartRecognition) (turnTrace w userText s)
         /\ In {| due := t + 500; callback := RestartRecognition |}
               (timers (turnStore w userText s))
         /\ forall now,
             In {| due := t + 500; callback := RestartRecognition |}
                (ready now (turnStore w userText s))
             <-> (t + 500 <= now)%Z)
  /\ (forall now s0 t,
         In (t, RecognitionConnect) (snd (expire now s0)) ->
         t = now /\ exists timer, In timer (timers s0) /\ (due timer <= now)%Z).
Proof.
  intros acts.
  destruct (turn_shape w userText s) as (o & restart & Hacts & Hres & _).
  subst acts. rewrite Hacts.
  split; [exact Hres|].
  split; [intros pre client reply post H;
          eapply turnActions_synthesis_after_generation; exact H|].
  split; [apply turnActions_idle|].
  split; [intros pre post H; eapply turnActions_idle_after_synthesis; exact H|].
  split; [apply turnActions_idle|].
  split; [intros pre post H; eapply turnActions_restart_after_idle; exact H|].
  split.
  - intros t H. destruct (turn_restart_timer w userText s t H) as (Hset & before & Hb).
    split; [exact Hset|]. split.
    + apply (@restart_timer_ready _ _ t 0%Z Hb).
    + intros now. apply (@restart_timer_ready _ _ t now Hb).
  - intros now s0 t. apply expire_connects_only_when_due.
Qed.

Lemma turn_ordering_witness :
  In (GenerateReplySettled (Normal (js "I hear you.")))
     [GenerateReplyCalled (js "hello there");
      GenerateReplySettled (Normal (js "I hear you."));
      SetPhase speaking]
  /\ In {| due := 3300 + 500; callback := RestartRecognition |}
        (timers (turnStore (quietWorld (js "I hear you.")) (js "hello there") freshStore)).
Proof.
  destruct (turn_ordering (quietWorld (js "I hear you.")) (js "hello there") freshStore)
    as (_ & Hsyn & _ & _ & _ & _ & Htimer & _).
  split.
  - refine (proj1 (proj2 (Hsyn _ {| voiceName := voiceEN; outputFormat := mp3Format |}
                               (js "I hear you.")
                               [SynthesizeSettled (Normal tt); SetPhase idle;
                                RecognitionDisconnect;
                                TimeoutSet 500 RestartRecognition] _))).
    reflexivity.
  - apply (Htimer 3300%Z). vm_compute. tauto.
Defined.

End TurnFacts.

(* ===================================================================== *)
(** ** Language, table and voice *)
(* ===================================================================== *)

Section LanguageFacts.

Import Js JsString TextGeneration VoiceInterface Spec.

Lemma turn_voice (w : World) (userText : jsstring) (s : Store)
      (t : Z) (client : AzureTTSClient) (reply : jsstring) :
  In (t, SynthesizeCalled client reply) (turnTrace w userText s) ->
  voiceName client = voiceName_for (detectLanguage reply)
  /\ outputFormat client = mp3Format.
Proof.
  intros H.
  destruct (turn_shape w userText s) as (o & restart & Hacts & _ & Hvoice).
  assert (Hin : In (SynthesizeCalled client reply) (actions (turnTrace w userText s))).
  { unfold actions. change (SynthesizeCalled client reply)
      with (snd (t, SynthesizeCalled client reply)). now apply in_map. }
  rewrite Hacts in Hin.
  destruct o as [e|r|r cl settled], restart; unfold turnActions in Hin; simpl in Hin;
    repeat (destruct Hin as [Hin|Hin]; [inversion Hin; subst; clear Hin|]);
    try contradiction.
  all: rewrite (Hvoice _ _ _ eq_refl); split; reflexivity.
Qed.

(** A turn whose generation yields a reply, with a synthesis client set,
    calls the synthesis once, for that reply and with the voice of the
    reply's language. *)
Lemma turn_speaks (w : World) (userText reply : jsstring) (s s1 : Store) :
  generateReplyW w userText (setIsGeneratingIn true s) = (Normal reply, s1) ->
  ttsClientRef s1 <> None ->
  exists pre post,
    turnTrace w userText s
    = pre ++ (clock s1,
              SynthesizeCalled {| voiceName := voiceName_for (detectLanguage reply);
                                  outputFormat := mp3Format |} reply) :: post
    /\ (forall t client text, ~ In (t, SynthesizeCalled client text) pre)
    /\ (forall t client text, ~ In (t, SynthesizeCalled client text) post).
Proof.
  intros Hw Htts. unfold turnTrace. cbn. rewrite Hw. cbn.
  destruct (ttsClientRef s1) as [c|]; [clear Htts|congruence]. cbn.
  match goal with
  | |- context [synthesizeAndPlayW ?w' ?a ?b ?c] =>
    destruct (synthesizeAndPlayW w' a b c) as [[[]|?] s2]
  end; cbn; destruct (clientRef s2); cbn.
  all: eexists [_; _; _], _; split; [reflexivity|].
  all: split; intros t client text H; simpl in H;
    repeat (destruct H as [H|H]; [discriminate H|]); exact H.
Qed.

(** C7. For every text: the detector answers Chinese exactly when the
    fraction of the text's characters (UTF-16 code units, as [length]
    counts them) that lie in U+4E00-U+9FFF or U+3400-U+4DBF is strictly
    greater than 0.3, and English otherwise.  When it answers Chinese,
    the fallback reply for that text comes from the Chinese table; every
    synthesis of that text is called with the voice zh-CN-YunyangNeural;
    and a turn whose generation yields that text as its reply, with a
    synthesis client set, does call the synthesis, once, for that text,
    with a client of voice zh-CN-YunyangNeural and the mp3 format.  When
    it answers English, the table is the English one and the synthesis
    that the turn calls has the voice en-US-JennyNeural. *)
Theorem language_selects_table_and_voice (text : jsstring) :
  (detectLanguage text = zh_CN <-> (0.3 < cjkFraction text)%Q)
  /\ (detectLanguage text = en_US <-> ~ (0.3 < cjkFraction text)%Q)
  /\ (detectLanguage text = zh_CN <-> (3 * List.length text < 10 * cjkCount text)%nat)
  /\ (detectLanguage text = zh_CN ->
      (forall fetch random systemPrompt,
          (0 <= random)%Q -> (random < 1)%Q ->
          (forall req, httpFails (fetch req)) ->
          exists s,
            TextGeneration.generateReply fetch random text systemPrompt = Normal (Some s)
            /\ In s empatheticResponsesCN)
      /\ (forall w userText s t client,
             In (t, SynthesizeCalled client text) (turnTrace w userText s) ->
             voiceName client = js "zh-CN-YunyangNeural")
      /\ (forall w userText s s1,
             generateReplyW w userText (setIsGeneratingIn true s) = (Normal text, s1) ->
             ttsClientRef s1 <> None ->
             exists pre post,
               turnTrace w userText s
               = pre ++ (clock s1,
                         SynthesizeCalled
                           {| voiceName := js "zh-CN-YunyangNeural";
                              outputFormat := js "audio-24khz-48kbitrate-mono-mp3" |}
                           text) :: post
               /\ (forall t client reply, ~ In (t, SynthesizeCalled client reply) pre)
               /\ (forall t client reply, ~ In (t, SynthesizeCalled client reply) post)))
  /\ (detectLanguage text = en_US ->
      (forall fetch random systemPrompt,
          (0 <= random)%Q -> (random < 1)%Q ->
          (forall req, httpFails (fetch req)) ->
          exists s,
            TextGeneration.generateReply fetch random text systemPrompt = Normal (Some s)
            /\ In s empatheticResponsesEN)
      /\ (forall w userText s s1,
             generateReplyW w userText (setIsGeneratingIn true s) = (Normal text, s1) ->
             ttsClientRef s1 <> None ->
             exists pre post,
               turnTrace w userText s
               = pre ++ (clock s1,
                         SynthesizeCalled
                           {| voiceName := js "en-US-JennyNeural";
                              outputFormat := js "audio-24khz-48kbitrate-mono-mp3" |}
                           text) :: post
               /\ (forall t client reply, ~ In (t, SynthesizeCalled client reply) pre)
               /\ (forall t client reply, ~ In (t, SynthesizeCalled client reply) post))).
Proof.
  pose proof (detectLanguage_zh text) as Hzh.
  assert (Htable : forall fetch random systemPrompt,
             (0 <= random)%Q -> (random < 1)%Q ->
             (forall req, httpFails (fetch req)) ->
             exists s,
               TextGeneration.generateReply fetch random text systemPrompt = Normal (Some s)
               /\ In s (cannedResponses (detectLanguage text))).
  { intros fetch random systemPrompt H0 H1 Hfail.
    destruct (@fallback_draw random (detectLanguage text) H0 H1) as (s & Hs & _ & Hin).
    exists s. split; [|exact Hin].
    rewrite (@generateReply_on_http_failure fetch random text systemPrompt Hfail).
    now rewrite Hs. }
  split; [exact Hzh|]. split; [|split; [apply detectLanguage_zh_counts|split]].
  - destruct (detectLanguage text) eqn:E.
    + split; [discriminate|]. intros H. exfalso. apply H. now apply Hzh.
    + split; [|reflexivity]. intros _ H. apply Hzh in H. discriminate.
  - intros E. rewrite E in Htable. split; [exact Htable|]. split.
    + intros w userText s t client H.
      apply turn_voice in H. destruct H as [H _]. rewrite H, E. reflexivity.
    + intros w userText s s1 Hw Htts.
      destruct (turn_speaks w userText s Hw Htts) as (pre & post & Htr & Hpre & Hpost).
      rewrite E in Htr. exists pre, post. split; [exact Htr|]. split; assumption.
  - intros E. rewrite E in Htable. split; [exact Htable|].
    intros w userText s s1 Hw Htts.
    destruct (turn_speaks w userText s Hw Htts) as (pre & post & Htr & Hpre & Hpost).
    rewrite E in Htr. exists pre, post. split; [exact Htr|]. split; assumption.
Qed.

Lemma language_selects_table_and_voice_witness :
  detectLanguage (js "你好吗") = zh_CN
  /\ (exists s,
         TextGeneration.generateReply (fun _ => Throw NonError) (1 # 2) (js "你好吗") None
         = Normal (Some s)
         /\ In s empatheticResponsesCN)
  /\ (exists pre post,
         turnTrace (quietWorld (js "你好吗")) (js "hello") freshStore
         = pre ++ (1800%Z,
                   SynthesizeCalled
                     {| voiceName := js "zh-CN-YunyangNeural";
                        outputFormat := js "audio-24khz-48kbitrate-mono-mp3" |}
                     (js "你好吗")) :: post).
Proof.
  destruct (language_selects_table_and_voice (js "你好吗")) as (_ & _ & _ & H & _).
  assert (E : detectLanguage (js "你好吗") = zh_CN) by reflexivity.
  destruct (H E) as (Htable & _ & Hcalled).
  split; [exact E|]. split.
  - apply Htable.
    + unfold Qle; simpl; lia.
    + unfold Qlt; simpl; lia.
    + intros req. exact I.
  - destruct (Hcalled (quietWorld (js "你好吗")) (js "hello") freshStore
                      (setClockIn (clock (setIsGeneratingIn true freshStore) + 800)
                                  (setIsGeneratingIn true freshStore))
                      eq_refl ltac:(discriminate))
      as (pre & post & Htr & _).
    exists pre, post. exact Htr.
Defined.

(** The canned Chinese replies are themselves detected as Chinese, so a
    fallback reply to a Chinese prompt is spoken with the Chinese voice. *)
Lemma canned_chinese_detected :
  Forall (fun s => detectLanguage s = zh_CN) empatheticResponsesCN.
Proof. repeat constructor. Qed.

(** The turn of the specification's scenario: "hello there" is answered
    with "I hear you.", spoken with the English voice; the recognition is
    disconnected when the playback ends and the restart timer is due
    500 ms later. *)
Example scenario_turn :
  turnTrace (quietWorld (js "I hear you.")) (js "hello there")
            (storeAfter (handleTranscript (js "hello there") true) freshStore)
  = [ (1000, GenerateReplyCalled (js "hello there"));
      (1800, GenerateReplySettled (Normal (js "I hear you.")));
      (1800, SetPhase speaking);
      (1800, SynthesizeCalled {| voiceName := voiceEN; outputFormat := mp3Format |}
                              (js "I hear you."));
      (3300, SynthesizeSettled (Normal tt));
      (3300, SetPhase idle);
      (3300, RecognitionDisconnect);
      (3300, TimeoutSet 500 RestartRecognition) ]%Z
  /\ transcripts
       (turnStore (quietWorld (js "I hear you.")) (js "hello there")
                  (storeAfter (handleTranscript (js "hello there") true) freshStore))
     = [ {| role := "user"; text := js "hello there" |};
         {| role := "assistant"; text := js "I hear you." |} ]
  /\ timers
       (turnStore (quietWorld (js "I hear you.")) (js "hello there")
                  (storeAfter (handleTranscript (js "hello there") true) freshStore))
     = [ {| due := 3800; callback := RestartRecognition |} ].
Proof. repeat split. Qed.

End LanguageFacts.

(* ===================================================================== *)
(** ** The freeze of the visual feedback *)
(* ===================================================================== *)

Section FreezeFacts.

Import VoiceInterface Spec.
Local Open Scope Q_scope.

Lemma Phase_eqb_eq (a b : Phase) : Phase_eqb a b = true <-> a = b.
Proof. destruct a, b; simpl; split; intros H; try reflexivity; discriminate H. Qed.

Lemma frozen_not_listening (ph : Phase) : frozen ph = true -> Phase_eqb ph listening = false.
Proof. destruct ph; simpl; intros H; try reflexivity; discriminate H. Qed.

Lemma frozen_iff (ph : Phase) : frozen ph = true <-> ph = processing \/ ph = speaking.
Proof.
  destruct ph; simpl; split; intros H; try discriminate; auto;
    destruct H; discriminate.
Qed.

Lemma setNumber_eq (new old : Q) : setNumber new old == new.
Proof.
  unfold setNumber. destruct (Qeq_bool new old) eqn:E; [|reflexivity].
  apply Qeq_bool_iff in E. now symmetry.
Qed.

Lemma feedbackOf_same (a b : Q) : a == b -> sameValues (feedbackOf (Some a)) (feedbackOf (Some b)).
Proof.
  intros E. unfold sameValues; simpl. split; [exact E|].
  split; rewrite E; reflexivity.
Qed.

Lemma sameValues_trans x y z : sameValues x y -> sameValues y z -> sameValues x z.
Proof.
  unfold sameValues. intros (A1 & A2 & A3) (B1 & B2 & B3).
  split; [|split]; etransitivity; eassumption.
Qed.

Lemma sameValues_refl x : sameValues x x.
Proof. unfold sameValues. repeat split; reflexivity. Qed.

Lemma mounted_consistent : consistent mounted None.
Proof.
  unfold consistent, mounted; simpl. split; [reflexivity|]. split; [reflexivity|].
  split; [apply sameValues_refl | discriminate].
Qed.

Lemma listeningEffect_refs (ph : Phase) (ai : Q) (v : Visual) :
  frozenRefs (listeningEffect ph ai v)
  = if Phase_eqb ph listening then feedbackOf (Some ai) else frozenRefs v.
Proof. unfold listeningEffect. destruct (Phase_eqb ph listening); reflexivity. Qed.

Lemma commit_state (batch : list Update) (vw : View) :
  (viewPhase (fst (commit batch vw)), audioIntensity (fst (commit batch vw)))
  = applyBatch batch (viewPhase vw, audioIntensity vw).
Proof.
  unfold commit.
  destruct (applyBatch batch (viewPhase vw, audioIntensity vw)) as [ph ai]; simpl.
  destruct (depsEqb (ph, ai) (effectDeps vw)); reflexivity.
Qed.

Lemma commit_consistent (batch : list Update) (vw : View) (seen : option Q) :
  consistent vw seen ->
  consistent (fst (commit batch vw))
             (seenAfter (applyBatch batch (viewPhase vw, audioIntensity vw)) seen).
Proof.
  intros (Hd1 & Hd2 & Hrefs & Hlis). unfold commit, seenAfter.
  destruct (applyBatch batch (viewPhase vw, audioIntensity vw)) as [ph ai]; simpl fst; simpl snd.
  destruct (depsEqb (ph, ai) (effectDeps vw)) eqn:D; simpl fst.
  - unfold depsEqb in D. apply andb_true_iff in D. destruct D as [Dp Da].
    simpl in Dp, Da. apply Phase_eqb_eq in Dp. apply Qeq_bool_iff in Da.
    unfold consistent; simpl.
    split; [congruence|]. split; [now symmetry|].
    destruct (Phase_eqb ph listening) eqn:L.
    + apply Phase_eqb_eq in L. subst ph.
      destruct (Hlis ltac:(congruence)) as (a & Ea & Ha). subst seen.
      assert (Eai : a == ai).
      { rewrite Ha, <- Hd2. now symmetry. }
      split.
      * eapply sameValues_trans; [exact Hrefs | now apply feedbackOf_same].
      * intros _. exists ai. split; reflexivity.
    + split; [exact Hrefs|]. intros E. rewrite E in L. discriminate L.
  - unfold consistent; simpl.
    split; [reflexivity|]. split; [reflexivity|].
    rewrite listeningEffect_refs.
    destruct (Phase_eqb ph listening) eqn:L.
    + split; [apply sameValues_refl|]. intros _. exists ai. split; reflexivity.
    + split; [exact Hrefs|]. intros E. rewrite E in L. discriminate L.
Qed.

Lemma frozen_frame (ph : Phase) (ai : Q) (v : Visual) (values : Q * Q * Q) :
  frozen ph = true -> sameValues (frozenRefs v) values ->
  feedbackMatches (render ph ai v) values.
Proof.
  intros F (A & B & C).
  unfold feedbackMatches, render, effectiveAudioIntensity, effectiveBrightness,
    effectiveBloom; simpl. rewrite F. auto.
Qed.

Lemma commit_frames (batch : list Update) (vw : View) (seen : option Q) (f : Frame) :
  consistent vw seen ->
  frozen (fst (applyBatch batch (viewPhase vw, audioIntensity vw))) = true ->
  In f (snd (commit batch vw)) ->
  feedbackMatches f (feedbackOf seen).
Proof.
  intros (_ & _ & Hrefs & _) F. unfold commit.
  destruct (applyBatch batch (viewPhase vw, audioIntensity vw)) as [ph ai];
    simpl fst in *; simpl snd.
  assert (Hsame : sameValues (frozenRefs (listeningEffect ph ai (visual vw)))
                             (feedbackOf seen)).
  { rewrite listeningEffect_refs, (frozen_not_listening _ F). exact Hrefs. }
  destruct (depsEqb (ph, ai) (effectDeps vw)); simpl snd.
  - intros [E|[]]. subst f. now apply frozen_frame.
  - destruct (_ && _); simpl; intros H.
    + destruct H as [E|[]]. subst f. now apply frozen_frame.
    + destruct H as [E|[E|[]]]; subst f; now apply frozen_frame.
Qed.

Lemma runCommits_snoc (history : list (list Update)) (batch : list Update) (vw : View) :
  runCommits (history ++ [batch]) vw = fst (commit batch (runCommits history vw)).
Proof. unfold runCommits. now rewrite fold_left_app. Qed.

Lemma runCommits_consistent (history : list (list Update)) :
  forall (vw : View) (seen : option Q),
    consistent vw seen ->
    consistent (runCommits history vw)
               (lastListeningIntensity (viewPhase vw, audioIntensity vw) seen history).
Proof.
  induction history as [|b rest IH]; intros vw seen Hc; simpl.
  - exact Hc.
  - pose proof (commit_consistent b Hc) as Hc'.
    pose proof (commit_state b vw) as Hst.
    specialize (IH _ _ Hc'). rewrite Hst in IH. exact IH.
Qed.

Lemma lastListeningIntensity_snoc (history : list (list Update)) (batch : list Update) :
  forall (st : Phase * Q) (seen : option Q),
    lastListeningIntensity st seen (history ++ [batch])
    = seenAfter (applyBatch batch (fold_left (fun x b => applyBatch b x) history st))
                (lastListeningIntensity st seen history).
Proof.
  induction history as [|b rest IH]; intros st seen; simpl.
  - reflexivity.
  - apply IH.
Qed.

Lemma runCommits_state (history : list (list Update)) :
  forall vw : View,
    (viewPhase (runCommits history vw), audioIntensity (runCommits history vw))
    = fold_left (fun x b => applyBatch b x) history (viewPhase vw, audioIntensity vw).
Proof.
  induction history as [|b rest IH]; intros vw; simpl.
  - reflexivity.
  - unfold runCommits in *. simpl. rewrite IH. now rewrite commit_state.
Qed.

Lemma glowSettled_mounted : glowSettled mounted.
Proof. unfold glowSettled, mounted; simpl. repeat split; reflexivity. Qed.

Lemma commit_glowSettled (batch : list Update) (vw : View) :
  glowSettled vw -> glowSettled (fst (commit batch vw)).
Proof.
  intros (D1 & D2 & B & L). unfold commit.
  destruct (applyBatch batch (viewPhase vw, audioIntensity vw)) as [ph ai]; simpl fst; simpl snd.
  destruct (depsEqb (ph, ai) (effectDeps vw)) eqn:D; simpl fst.
  - unfold depsEqb in D. apply andb_true_iff in D. destruct D as [Dp Da].
    simpl in Dp, Da. apply Phase_eqb_eq in Dp. apply Qeq_bool_iff in Da.
    assert (Eph : ph = viewPhase vw) by congruence.
    assert (Eai : ai == audioIntensity vw) by (rewrite Da; exact D2).
    unfold glowSettled; simpl. split; [congruence|]. split; [now symmetry|].
    rewrite Eph. destruct (Phase_eqb (viewPhase vw) listening);
      rewrite ?Eai; split; assumption.
  - unfold glowSettled, listeningEffect; simpl.
    split; [reflexivity|]. split; [reflexivity|].
    destruct (Phase_eqb ph listening); simpl; split; apply setNumber_eq.
Qed.

Lemma runCommits_glowSettled (history : list (list Update)) :
  forall vw : View, glowSettled vw -> glowSettled (runCommits history vw).
Proof.
  induction history as [|b rest IH]; intros vw H; [exact H|].
  apply (IH (fst (commit b vw))). now apply commit_glowSettled.
Qed.

(** Outside Processing and Speaking every frame of a commit carries the
    intensity the component holds, and the last one the brightness and
    bloom the component holds after the commit. *)
Lemma commit_live (batch : list Update) (vw : View) :
  frozen (viewPhase (fst (commit batch vw))) = false ->
  (forall f, In f (snd (commit batch vw)) ->
             sphereAudioIntensity f == audioIntensity (fst (commit batch vw)))
  /\ exists earlier f,
      snd (commit batch vw) = earlier ++ [f]
      /\ sphereAudioIntensity f == audioIntensity (fst (commit batch vw))
      /\ sphereBrightness f == brightness (visual (fst (commit batch vw)))
      /\ bloomIntensity f == bloom (visual (fst (commit batch vw))).
Proof.
  unfold commit.
  destruct (applyBatch batch (viewPhase vw, audioIntensity vw)) as [ph ai]; simpl fst; simpl snd.
  assert (R : forall v, frozen ph = false ->
                        sphereAudioIntensity (render ph ai v) = ai
                        /\ sphereBrightness (render ph ai v) = brightness v
                        /\ bloomIntensity (render ph ai v) = bloom v).
  { intros v F. unfold render, effectiveAudioIntensity, effectiveBrightness, effectiveBloom.
    simpl. rewrite F. auto. }
  destruct (depsEqb (ph, ai) (effectDeps vw)); simpl fst; simpl snd.
  - intros F. destruct (R (visual vw) F) as (R1 & R2 & R3). split.
    + intros f [E|[]]. subst f. rewrite R1. reflexivity.
    + exists [], (render ph ai (visual vw)). rewrite R1, R2, R3.
      repeat split; reflexivity.
  - intros F. destruct (R (visual vw) F) as (R1 & R2 & R3).
    destruct (R (listeningEffect ph ai (visual vw)) F) as (S1 & S2 & S3).
    destruct (Qeq_bool (brightness (listeningEffect ph ai (visual vw))) (brightness (visual vw))
              && Qeq_bool (bloom (listeningEffect ph ai (visual vw))) (bloom (visual vw)))
      eqn:Q; simpl.
    + apply andb_true_iff in Q. destruct Q as [Q1 Q2].
      apply Qeq_bool_iff in Q1. apply Qeq_bool_iff in Q2. split.
      * intros f [E|[]]. subst f. rewrite R1. reflexivity.
      * exists [], (render ph ai (visual vw)). rewrite R1, R2, R3.
        split; [reflexivity|]. split; [reflexivity|]. split; now symmetry.
    + split.
      * intros f [E|[E|[]]]; subst f; [rewrite R1 | rewrite S1]; reflexivity.
      * exists [render ph ai (visual vw)], (render ph ai (listeningEffect ph ai (visual vw))).
        rewrite S1, S2, S3. repeat split; reflexivity.
Qed.

(** C5, as the code has it. For every history of batches of updates
    (phase transitions and intensity samples) since the mount, and every
    further batch: each frame rendered by a commit whose phase is
    Processing or Speaking carries the feedback values computed from the
    intensity of the last commit in phase Listening (the initial values
    of the refs when there was none).  In the two other phases the
    intensity handed to the renderer is the live one: every frame of a
    commit in phase Idle or Listening carries the intensity the component
    holds; the last frame of a commit in phase Idle carries brightness 1
    and bloom 1, and the last frame of a commit in phase Listening the
    brightness and bloom computed from the live intensity.  The effect
    recomputes brightness and bloom from the intensity, and stores the
    values to freeze, in phase Listening only: in any other phase it
    leaves the frozen values untouched and sets brightness and bloom
    to 1. *)
Theorem feedback_frozen_while_processing_or_speaking
        (history : list (list Update)) (batch : list Update) :
  let vw := runCommits history mounted in
  let vw' := fst (commit batch vw) in
  let frames := snd (commit batch vw) in
  (forall f : Frame,
      In f frames ->
      viewPhase vw' = processing \/ viewPhase vw' = speaking ->
      feedbackMatches f
        (feedbackOf (lastListeningIntensity (idle, 0) None (history ++ [batch]))))
  /\ (forall f : Frame,
         In f frames ->
         viewPhase vw' = idle \/ viewPhase vw' = listening ->
         sphereAudioIntensity f == audioIntensity vw')
  /\ (viewPhase vw' = idle ->
      exists earlier f,
        frames = earlier ++ [f] /\ feedbackMatches f (audioIntensity vw', 1, 1))
  /\ (viewPhase vw' = listening ->
      exists earlier f,
        frames = earlier ++ [f]
        /\ feedbackMatches f (feedbackOf (Some (audioIntensity vw'))))
  /\ (forall (ph : Phase) (ai : Q) (v : Visual),
         ph <> listening ->
         frozenRefs (listeningEffect ph ai v) = frozenRefs v
         /\ brightness (listeningEffect ph ai v) == 1
         /\ bloom (listeningEffect ph ai v) == 1)
  /\ (forall (ai : Q) (v : Visual),
         frozenRefs (listeningEffect listening ai v) = feedbackOf (Some ai)
         /\ brightness (listeningEffect listening ai v) == 1.0 + ai * 2.0
         /\ bloom (listeningEffect listening ai v) == 1.5 + ai * 4.5).
Proof.
  intros vw vw' frames.
  assert (G : glowSettled vw').
  { apply commit_glowSettled, runCommits_glowSettled, glowSettled_mounted. }
  destruct G as (_ & _ & GB & GL).
  split; [|split; [|split; [|split; [|split]]]].
  - intros f Hin Hph.
    pose proof (runCommits_consistent history mounted_consistent) as Hc.
    fold vw in Hc. simpl viewPhase in Hc. simpl audioIntensity in Hc.
    pose proof (commit_state batch vw) as Hst.
    assert (F : frozen (fst (applyBatch batch (viewPhase vw, audioIntensity vw))) = true).
    { rewrite <- Hst. simpl. now apply frozen_iff. }
    rewrite lastListeningIntensity_snoc.
    replace (fold_left (fun x b => applyBatch b x) history (idle, 0))
      with (viewPhase vw, audioIntensity vw)
      by (unfold vw; now rewrite runCommits_state).
    unfold seenAfter. rewrite (frozen_not_listening _ F).
    eapply commit_frames; eassumption.
  - intros f Hin Hph.
    assert (F : frozen (viewPhase vw') = false) by (destruct Hph as [E|E]; now rewrite E).
    exact (proj1 (commit_live batch vw F) f Hin).
  - intros E.
    assert (F : frozen (viewPhase vw') = false) by now rewrite E.
    destruct (proj2 (commit_live batch vw F)) as (earlier & f & Hf & A & B & C).
    exists earlier, f. split; [exact Hf|].
    rewrite E in GB, GL. cbn [Phase_eqb] in GB, GL.
    unfold feedbackMatches; cbn [fst snd feedbackOf]. split; [exact A|].
    split; (eapply Qeq_trans; [eassumption|]); (eapply Qeq_trans; [eassumption|]);
      reflexivity.
  - intros E.
    assert (F : frozen (viewPhase vw') = false) by now rewrite E.
    destruct (proj2 (commit_live batch vw F)) as (earlier & f & Hf & A & B & C).
    exists earlier, f. split; [exact Hf|].
    rewrite E in GB, GL. cbn [Phase_eqb] in GB, GL.
    unfold feedbackMatches; cbn [fst snd feedbackOf]. split; [exact A|].
    split; (eapply Qeq_trans; [eassumption|]); (eapply Qeq_trans; [eassumption|]);
      reflexivity.
  - intros ph ai v Hne. rewrite listeningEffect_refs.
    assert (L : Phase_eqb ph listening = false).
    { destruct (Phase_eqb ph listening) eqn:E; [|reflexivity].
      apply Phase_eqb_eq in E. contradiction. }
    rewrite L. split; [reflexivity|].
    unfold listeningEffect. rewrite L. simpl.
    split; (rewrite setNumber_eq; reflexivity).
  - intros ai v. rewrite listeningEffect_refs. split; [reflexivity|].
    unfold listeningEffect; simpl. split; apply setNumber_eq.
Qed.

Lemma feedback_frozen_while_processing_or_speaking_witness :
  Forall (fun f => feedbackMatches f (0.5, 1.0 + 0.5 * 2.0, 1.5 + 0.5 * 4.5))
         (snd (commit [UpdatePhase speaking] (runCommits sampleHistory mounted)))
  /\ snd (commit [UpdatePhase speaking] (runCommits sampleHistory mounted)) <> [].
Proof.
  destruct (feedback_frozen_while_processing_or_speaking sampleHistory [UpdatePhase speaking])
    as (H & _).
  split; [|discriminate].
  apply Forall_forall. intros f Hin.
  apply (H f Hin). right. reflexivity.
Defined.

(** C5, refuted as stated. The audio intensity is not frozen outside
    Listening: once the turn is over and the phase is Idle, a new sample
    of 0.9 reaches the renderer in every frame of its commit, although
    the last intensity seen in phase Listening was 0.5. *)
Lemma idle_frames_carry_the_live_intensity :
  let vw := runCommits idleHistory mounted in
  let frames := snd (commit [UpdateAudioIntensity 0.9] vw) in
  viewPhase (fst (commit [UpdateAudioIntensity 0.9] vw)) = idle
  /\ lastListeningIntensity (idle, 0) None (idleHistory ++ [[UpdateAudioIntensity 0.9]])
     = Some 0.5
  /\ frames <> []
  /\ Forall (fun f => sphereAudioIntensity f == 0.9 /\ ~ sphereAudioIntensity f == 0.5)
            frames.
Proof.
  cbv zeta. split; [reflexivity|]. split; [reflexivity|]. split; [discriminate|].
  repeat constructor; simpl; try reflexivity; intros H; discriminate H.
Qed.

End FreezeFacts.

(* ===================================================================== *)
(** ** More on reply generation and the provider chain *)
(* ===================================================================== *)

Section GenerationCoverage.

Import Js JsString TextGeneration Spec GenerationSpec.
Import JsNumber (Qltb, numberOfNat).

Lemma generateReply_table
      (fetch : Request -> completion Response) (random : Q)
      (prompt : jsstring) (systemPrompt : option jsstring) :
  generateReply fetch random prompt systemPrompt
  = match fetch (requestOf prompt systemPrompt) with
    | Normal r =>
      if ok r
      then match json r with
           | Normal j => Normal (text j)
           | Throw _ => Normal (cannedReply random prompt)
           end
      else Normal (cannedReply random prompt)
    | Throw _ => Normal (cannedReply random prompt)
    end.
Proof.
  unfold generateReply, requestOf, cannedReply.
  destruct (fetch _) as [r|e]; simpl.
  - destruct (ok r); simpl.
    + destruct (json r) as [j|e]; simpl; [reflexivity|].
      now rewrite responses_by_language.
    + now rewrite responses_by_language.
  - now rewrite responses_by_language.
Qed.

(** X1. [generateReply] never throws, whatever the network does and
    whatever [Math.random] yields.  When the call succeeds with an ok
    status and a body that parses, the result is the [text] of that body.
    In every other case (a rejected call, a status that is not ok, an ok
    response whose body does not parse) the result is, for a random
    number in [0, 1), a non-empty entry of the canned table of the
    prompt's language, and it is the same whichever of these failures
    occurred and whatever system prompt was sent. *)
Theorem generateReply_never_throws
        (fetch : Request -> completion Response) (random : Q)
        (prompt : jsstring) (systemPrompt : option jsstring) :
  let result := generateReply fetch random prompt systemPrompt in
  let answer := fetch (requestOf prompt systemPrompt) in
  (exists v, result = Normal v)
  /\ (forall r j,
         answer = Normal r -> ok r = true -> json r = Normal j ->
         result = Normal (text j))
  /\ (noReply answer ->
      (0 <= random)%Q -> (random < 1)%Q ->
      exists s,
        result = Normal (Some s)
        /\ s <> []
        /\ In s (cannedResponses (detectLanguage prompt)))
  /\ (noReply answer ->
      forall fetch' systemPrompt',
        noReply (fetch' (requestOf prompt systemPrompt')) ->
        generateReply fetch' random prompt systemPrompt' = result).
Proof.
  assert (Hno : forall f sp,
             noReply (f (requestOf prompt sp)) ->
             generateReply f random prompt sp = Normal (cannedReply random prompt)).
  { intros f sp H. rewrite generateReply_table.
    destruct (f _) as [r|e]; [|reflexivity].
    destruct (ok r) eqn:Eok; [|reflexivity].
    destruct H as [H|[e H]]; [rewrite Eok in H; discriminate H|]. now rewrite H. }
  intros result answer. subst result answer.
  split; [|split; [|split]].
  - rewrite generateReply_table. destruct (fetch _) as [r|e]; [|eauto].
    destruct (ok r); [|eauto]. destruct (json r); eauto.
  - intros r j Hr Hok Hj. rewrite generateReply_table, Hr, Hok, Hj. reflexivity.
  - intros H H0 H1. rewrite (Hno _ _ H).
    destruct (@fallback_draw random (detectLanguage prompt) H0 H1) as (s & Hs & Hne & Hin).
    exists s. split; [|split; assumption].
    unfold cannedReply. now rewrite Hs.
  - intros H fetch' systemPrompt' H'. now rewrite (Hno _ _ H), (Hno _ _ H').
Qed.

Lemma attempt_truthy (u : GenerateReplyRoute.Upstream) (t : jsstring) :
  GenerateReplyRoute.attempt u = Normal (Some t) -> truthy t = true.
Proof.
  destruct u as [e|st errText|content]; simpl.
  - discriminate.
  - destruct errText; simpl; discriminate.
  - destruct content as [[t'|]|e]; simpl; try discriminate.
    destruct (truthy t') eqn:T; intros H; inversion H; subst. exact T.
Qed.

Lemma tryOpenAI_truthy env up t :
  GenerateReplyRoute.tryOpenAI env up = Normal (Some t) -> truthy t = true.
Proof.
  unfold GenerateReplyRoute.tryOpenAI.
  destruct (negb _); [discriminate|].
  destruct (GenerateReplyRoute.attempt (GenerateReplyRoute.openaiChat up))
    as [[t1|]|e1] eqn:E1; simpl.
  - intros H. inversion H; subst. eapply attempt_truthy; eassumption.
  - destruct (GenerateReplyRoute.attempt (GenerateReplyRoute.openaiResponses up))
      as [[t2|]|e2] eqn:E2; simpl; try discriminate.
    intros H. inversion H; subst. eapply attempt_truthy; eassumption.
  - discriminate.
Qed.

Lemma tryGroq_truthy env up t :
  GenerateReplyRoute.tryGroq env up = Normal (Some t) -> truthy t = true.
Proof.
  unfold GenerateReplyRoute.tryGroq.
  destruct (negb _); [discriminate|].
  destruct (GenerateReplyRoute.attempt (GenerateReplyRoute.groqChat up))
    as [[t1|]|e1] eqn:E1; simpl; try discriminate.
  intros H. inversion H; subst. eapply attempt_truthy; eassumption.
Qed.

Lemma POST_chain
      (env : GenerateReplyRoute.Env) (up : GenerateReplyRoute.Upstreams) (rq : Request) :
  GenerateReplyRoute.POST env up (Normal rq)
  = if prefersGroq env
    then chain (GenerateReplyRoute.tryGroq env up) (GenerateReplyRoute.tryOpenAI env up)
    else chain (GenerateReplyRoute.tryOpenAI env up) (GenerateReplyRoute.tryGroq env up).
Proof.
  unfold GenerateReplyRoute.POST, prefersGroq, chain. simpl.
  destruct (GenerateReplyRoute.jsstring_eqb _ _).
  - destruct (GenerateReplyRoute.tryGroq env up) as [[tg|]|eg] eqn:Eg; simpl.
    + rewrite (tryGroq_truthy _ _ Eg). simpl. now rewrite (tryGroq_truthy _ _ Eg).
    + destruct (GenerateReplyRoute.tryOpenAI env up) as [[to|]|eo] eqn:Eo; simpl;
        try reflexivity.
      now rewrite (tryOpenAI_truthy _ _ Eo).
    + reflexivity.
  - destruct (GenerateReplyRoute.tryOpenAI env up) as [[to|]|eo] eqn:Eo; simpl.
    + rewrite (tryOpenAI_truthy _ _ Eo). simpl. now rewrite (tryOpenAI_truthy _ _ Eo).
    + destruct (GenerateReplyRoute.tryGroq env up) as [[tg|]|eg] eqn:Eg; simpl;
        try reflexivity.
      now rewrite (tryGroq_truthy _ _ Eg).
    + reflexivity.
Qed.

(** X2. The route is a chain of its two providers in the preferred order
    (Groq first exactly when LLM_PROVIDER, lower-cased, is "groq"): the
    first text wins with status 200, the second provider is tried only when
    the first returned without a text, a provider that throws ends the
    request with 500 without the other being tried, and no text at all gives
    429; a request body that cannot be read gives 500. *)
Theorem POST_is_a_chain
        (env : GenerateReplyRoute.Env) (up : GenerateReplyRoute.Upstreams) :
  (forall rq : Request,
      GenerateReplyRoute.POST env up (Normal rq)
      = if prefersGroq env
        then chain (GenerateReplyRoute.tryGroq env up) (GenerateReplyRoute.tryOpenAI env up)
        else chain (GenerateReplyRoute.tryOpenAI env up) (GenerateReplyRoute.tryGroq env up))
  /\ (forall e : JsError,
         GenerateReplyRoute.POST env up (Throw e)
         = GenerateReplyRoute.NextResponse_json 500 None).
Proof.
  split.
  - intros rq. apply POST_chain.
  - intros e. reflexivity.
Qed.

Lemma chain_status (first second : completion (option jsstring)) :
  (forall t, first = Normal (Some t) -> truthy t = true) ->
  (forall t, second = Normal (Some t) -> truthy t = true) ->
  (status (chain first second) = 200%N
   /\ ok (chain first second) = true
   /\ exists t, bodyText (chain first second) = Some t /\ t <> []
                /\ (first = Normal (Some t) \/ second = Normal (Some t)))
  \/ ((status (chain first second) = 429%N \/ status (chain first second) = 500%N)
      /\ ok (chain first second) = false
      /\ bodyText (chain first second) = None).
Proof.
  intros H1 H2. unfold chain.
  destruct first as [[t1|]|e1].
  - left. repeat split. exists t1. repeat split; auto.
    specialize (H1 t1 eq_refl). destruct t1; [discriminate H1 | discriminate].
  - destruct second as [[t2|]|e2].
    + left. repeat split. exists t2. repeat split; auto.
      specialize (H2 t2 eq_refl). destruct t2; [discriminate H2 | discriminate].
    + right. repeat split. now left.
    + right. repeat split. now right.
  - right. repeat split. now right.
Qed.

Lemma POST_status_and_text_core
        (env : GenerateReplyRoute.Env) (up : GenerateReplyRoute.Upstreams)
        (request : completion Request) :
  let r := GenerateReplyRoute.POST env up request in
  (status r = 200%N
   /\ ok r = true
   /\ exists t, bodyText r = Some t /\ t <> []
                /\ (GenerateReplyRoute.tryOpenAI env up = Normal (Some t)
                    \/ GenerateReplyRoute.tryGroq env up = Normal (Some t)))
  \/ ((status r = 429%N \/ status r = 500%N)
      /\ ok r = false
      /\ bodyText r = None).
Proof.
  intros r. unfold r. destruct request as [rq|e].
  - rewrite POST_chain.
    destruct (prefersGroq env).
    + destruct (@chain_status (GenerateReplyRoute.tryGroq env up)
                              (GenerateReplyRoute.tryOpenAI env up)
                              (tryGroq_truthy env up) (tryOpenAI_truthy env up))
        as [(A & B & t & C & D & E)|H]; [left|right; exact H].
      split; [exact A|]. split; [exact B|]. exists t. split; [exact C|].
      split; [exact D|]. tauto.
    + destruct (@chain_status (GenerateReplyRoute.tryOpenAI env up)
                              (GenerateReplyRoute.tryGroq env up)
                              (tryOpenAI_truthy env up) (tryGroq_truthy env up))
        as [(A & B & t & C & D & E)|H]; [left|right; exact H].
      split; [exact A|]. split; [exact B|]. exists t. split; [exact C|].
      split; [exact D|]. tauto.
  - right. repeat split. now right.
Qed.

(** X3. Whatever the providers do, the route answers 200, 429 or 500; it
    answers 200 (an ok response) only together with a non-empty text that
    one of the providers produced, and a response that is not ok carries no
    text. *)
Theorem POST_status_and_text
        (env : GenerateReplyRoute.Env) (up : GenerateReplyRoute.Upstreams)
        (request : completion Request) :
  let r := GenerateReplyRoute.POST env up request in
  (status r = 200%N \/ status r = 429%N \/ status r = 500%N)
  /\ (ok r = true <-> status r = 200%N)
  /\ (ok r = true ->
      exists t, bodyText r = Some t /\ t <> []
                /\ (GenerateReplyRoute.tryOpenAI env up = Normal (Some t)
                    \/ GenerateReplyRoute.tryGroq env up = Normal (Some t)))
  /\ (ok r = false -> bodyText r = None).
Proof.
  intros r.
  destruct (POST_status_and_text_core env up request)
    as [(A & B & C)|([A|A] & B & C)]; fold r in A, B, C.
  - split; [now left|]. split; [tauto|]. split; [intros _; exact C|].
    intros F. congruence.
  - split; [right; now left|]. split; [|split].
    + split; intros F; [congruence | rewrite A in F; discriminate].
    + intros F. congruence.
    + intros _. exact C.
  - split; [right; now right|]. split; [|split].
    + split; intros F; [congruence | rewrite A in F; discriminate].
    + intros F. congruence.
    + intros _. exact C.
Qed.

Lemma attempt_yields u t : yields u t -> GenerateReplyRoute.attempt u = Normal (Some t).
Proof.
  intros [E Hne]. subst u. simpl. destruct t; [congruence | reflexivity].
Qed.

Lemma attempt_soft u : softFailure u -> GenerateReplyRoute.attempt u = Normal None.
Proof.
  destruct u as [e|st errText|content]; simpl.
  - contradiction.
  - intros [t E]. now subst errText.
  - intros [E|E]; subst content; reflexivity.
Qed.

Lemma keySet_truthy k : keySet k -> GenerateReplyRoute.truthyOpt k = true.
Proof. intros (c & r & E). now subst k. Qed.

Lemma key_unset_cases k :
  GenerateReplyRoute.truthyOpt k = false <-> k = None \/ k = Some [].
Proof.
  destruct k as [[|c r]|]; simpl; split; intros H; auto; try discriminate;
    destruct H as [H|H]; discriminate.
Qed.

(** X4. What the OpenAI helper does, call by call: without a key (unset or
    empty) it returns null whatever the upstream calls would answer; with a
    key, a chat call that yields a text decides; after a chat call that
    fails softly (not ok, or ok without a text) the Responses call decides;
    and a call that throws (the fetch rejects, or a body cannot be read)
    makes the helper throw instead of moving on. *)
Theorem tryOpenAI_behaviour
        (env : GenerateReplyRoute.Env) (up : GenerateReplyRoute.Upstreams) :
  (GenerateReplyRoute.OPENAI_API_KEY env = None
   \/ GenerateReplyRoute.OPENAI_API_KEY env = Some [] ->
   GenerateReplyRoute.tryOpenAI env up = Normal None)
  /\ (keySet (GenerateReplyRoute.OPENAI_API_KEY env) ->
      (forall t, yields (GenerateReplyRoute.openaiChat up) t ->
                 GenerateReplyRoute.tryOpenAI env up = Normal (Some t))
      /\ (softFailure (GenerateReplyRoute.openaiChat up) ->
          (forall t, yields (GenerateReplyRoute.openaiResponses up) t ->
                     GenerateReplyRoute.tryOpenAI env up = Normal (Some t))
          /\ (softFailure (GenerateReplyRoute.openaiResponses up) ->
              GenerateReplyRoute.tryOpenAI env up = Normal None)
          /\ (forall e, GenerateReplyRoute.openaiResponses up
                        = GenerateReplyRoute.Rejected e ->
                        GenerateReplyRoute.tryOpenAI env up = Throw e))
      /\ (forall e, GenerateReplyRoute.openaiChat up = GenerateReplyRoute.Rejected e ->
                    GenerateReplyRoute.tryOpenAI env up = Throw e)).
Proof.
  unfold GenerateReplyRoute.tryOpenAI. split.
  - intros H. apply key_unset_cases in H. now rewrite H.
  - intros K. rewrite (keySet_truthy K). simpl. split; [|split].
    + intros t Y. now rewrite (attempt_yields Y).
    + intros S1. rewrite (attempt_soft _ S1). simpl. split; [|split].
      * intros t Y. now rewrite (attempt_yields Y).
      * intros S2. now rewrite (attempt_soft _ S2).
      * intros e E. now rewrite E.
    + intros e E. now rewrite E.
Qed.

Lemma tryOpenAI_behaviour_witness :
  GenerateReplyRoute.tryOpenAI
    {| GenerateReplyRoute.OPENAI_API_KEY := Some (js "sk-test");
       GenerateReplyRoute.GROQ_API_KEY := None;
       GenerateReplyRoute.LLM_PROVIDER := None |}
    {| GenerateReplyRoute.openaiChat := GenerateReplyRoute.NotOk 429 (Normal (js "quota"));
       GenerateReplyRoute.openaiResponses :=
         GenerateReplyRoute.Ok (Normal (Some (js "I hear you.")));
       GenerateReplyRoute.groqChat := GenerateReplyRoute.Rejected NonError |}
  = Normal (Some (js "I hear you.")).
Proof.
  refine (proj1 (proj1 (proj2 (proj2 (@tryOpenAI_behaviour _ _) _)) _) _ _).
  - exists 115%N, (js "k-test"). reflexivity.
  - exists (js "quota"). reflexivity.
  - split; [reflexivity | discriminate].
Defined.

(** X5. The Groq helper: without a key it returns null whatever the
    upstream call would answer, a call that yields a text gives that text,
    a soft failure gives null, and a rejected call makes it throw. *)
Theorem tryGroq_behaviour
        (env : GenerateReplyRoute.Env) (up : GenerateReplyRoute.Upstreams) :
  (GenerateReplyRoute.GROQ_API_KEY env = None
   \/ GenerateReplyRoute.GROQ_API_KEY env = Some [] ->
   GenerateReplyRoute.tryGroq env up = Normal None)
  /\ (keySet (GenerateReplyRoute.GROQ_API_KEY env) ->
      (forall t, yields (GenerateReplyRoute.groqChat up) t ->
                 GenerateReplyRoute.tryGroq env up = Normal (Some t))
      /\ (softFailure (GenerateReplyRoute.groqChat up) ->
          GenerateReplyRoute.tryGroq env up = Normal None)
      /\ (forall e, GenerateReplyRoute.groqChat up = GenerateReplyRoute.Rejected e ->
                    GenerateReplyRoute.tryGroq env up = Throw e)).
Proof.
  unfold GenerateReplyRoute.tryGroq. split.
  - intros H. apply key_unset_cases in H. now rewrite H.
  - intros K. rewrite (keySet_truthy K). simpl. split; [|split].
    + intros t Y. now rewrite (attempt_yields Y).
    + intros S1. now rewrite (attempt_soft _ S1).
    + intros e E. now rewrite E.
Qed.

Lemma tryGroq_behaviour_witness :
  GenerateReplyRoute.tryGroq
    {| GenerateReplyRoute.OPENAI_API_KEY := None;
       GenerateReplyRoute.GROQ_API_KEY := Some (js "gsk");
       GenerateReplyRoute.LLM_PROVIDER := None |}
    {| GenerateReplyRoute.openaiChat := GenerateReplyRoute.Rejected NonError;
       GenerateReplyRoute.openaiResponses := GenerateReplyRoute.Rejected NonError;
       GenerateReplyRoute.groqChat := GenerateReplyRoute.Ok (Normal (Some [])) |}
  = Normal None.
Proof.
  refine (proj1 (proj2 (proj2 (@tryGroq_behaviour _ _) _)) _).
  - exists 103%N, (js "sk"). reflexivity.
  - right. reflexivity.
Defined.

Lemma canned_english_detected :
  Forall (fun s => detectLanguage s = en_US) empatheticResponsesEN.
Proof. repeat constructor. Qed.

Lemma canned_language (l : Language) :
  Forall (fun s => detectLanguage s = l) (cannedResponses l).
Proof.
  destruct l; simpl; [repeat constructor | apply canned_english_detected].
Qed.

(** X6. Through the route, the browser always gets a reply it can speak:
    for every behaviour of the providers and every prompt, with
    [Math.random] in [0, 1), [generateReply] returns a non-empty string,
    which is a text a provider produced when the route answered ok, and an
    entry of the canned table of the prompt's language otherwise. *)
Theorem generateReply_via_route
        (env : GenerateReplyRoute.Env) (up : GenerateReplyRoute.Upstreams)
        (random : Q) (prompt : jsstring) (systemPrompt : option jsstring) :
  (0 <= random)%Q -> (random < 1)%Q ->
  exists s,
    generateReply (viaRoute env up) random prompt systemPrompt = Normal (Some s)
    /\ s <> []
    /\ ((ok (GenerateReplyRoute.POST env up (Normal (requestOf prompt systemPrompt))) = true
         /\ (GenerateReplyRoute.tryOpenAI env up = Normal (Some s)
             \/ GenerateReplyRoute.tryGroq env up = Normal (Some s)))
        \/ (ok (GenerateReplyRoute.POST env up (Normal (requestOf prompt systemPrompt))) = false
            /\ In s (cannedResponses (detectLanguage prompt)))).
Proof.
  intros H0 H1. rewrite generateReply_table. unfold viaRoute.
  destruct (POST_status_and_text_core env up (Normal (requestOf prompt systemPrompt)))
    as [(_ & Hok & t & Ht & Hne & Hfrom)|(_ & Hok & _)].
  - exists t. rewrite Hok. unfold bodyText in Ht.
    destruct (json _) as [j|e]; [|discriminate].
    rewrite Ht. split; [reflexivity|]. split; [exact Hne|]. left. auto.
  - rewrite Hok.
    destruct (@fallback_draw random (detectLanguage prompt) H0 H1) as (s & Hs & Hne & Hin).
    exists s. unfold cannedReply. rewrite Hs. split; [reflexivity|].
    split; [exact Hne|]. right. auto.
Qed.

Lemma generateReply_via_route_witness :
  exists s,
    generateReply
      (viaRoute
         {| GenerateReplyRoute.OPENAI_API_KEY := None;
            GenerateReplyRoute.GROQ_API_KEY := Some (js "gsk");
            GenerateReplyRoute.LLM_PROVIDER := Some (js "GROQ") |}
         {| GenerateReplyRoute.openaiChat := GenerateReplyRoute.Rejected NonError;
            GenerateReplyRoute.openaiResponses := GenerateReplyRoute.Rejected NonError;
            GenerateReplyRoute.groqChat :=
              GenerateReplyRoute.Ok (Normal (Some (js "I hear you."))) |})
      (1 # 2) (js "hello there") None
    = Normal (Some s)
    /\ s <> [].
Proof.
  destruct (@generateReply_via_route
              {| GenerateReplyRoute.OPENAI_API_KEY := None;
                 GenerateReplyRoute.GROQ_API_KEY := Some (js "gsk");
                 GenerateReplyRoute.LLM_PROVIDER := Some (js "GROQ") |}
              {| GenerateReplyRoute.openaiChat := GenerateReplyRoute.Rejected NonError;
                 GenerateReplyRoute.openaiResponses := GenerateReplyRoute.Rejected NonError;
                 GenerateReplyRoute.groqChat :=
                   GenerateReplyRoute.Ok (Normal (Some (js "I hear you."))) |}
              (1 # 2) (js "hello there") None)
    as (s & Hs & Hne & _).
  - unfold Qle; simpl; lia.
  - unfold Qlt; simpl; lia.
  - exists s. split; assumption.
Defined.

(** X7. The canned reply is in the language of the prompt: whenever the
    fallback answers (with [Math.random] in [0, 1)), the detector classifies
    the reply as it classifies the prompt, so the voice chosen for the reply
    is the voice of the prompt's language. *)
Theorem fallback_reply_keeps_language (random : Q) (prompt : jsstring) :
  (0 <= random)%Q -> (random < 1)%Q ->
  exists s,
    cannedReply random prompt = Some s
    /\ detectLanguage s = detectLanguage prompt
    /\ VoiceInterface.voiceName_for (detectLanguage s)
       = VoiceInterface.voiceName_for (detectLanguage prompt).
Proof.
  intros H0 H1.
  destruct (@fallback_draw random (detectLanguage prompt) H0 H1) as (s & Hs & _ & Hin).
  exists s. split; [exact Hs|].
  pose proof (canned_language (detectLanguage prompt)) as Hall.
  rewrite Forall_forall in Hall. specialize (Hall s Hin).
  split; [exact Hall | now rewrite Hall].
Qed.

Lemma fallback_reply_keeps_language_witness :
  exists s,
    cannedReply (6 # 7) (js "我今天很难过") = Some s
    /\ detectLanguage s = detectLanguage (js "我今天很难过")
    /\ VoiceInterface.voiceName_for (detectLanguage s)
       = VoiceInterface.voiceName_for (detectLanguage (js "我今天很难过")).
Proof.
  apply fallback_reply_keeps_language.
  - unfold Qle; simpl; lia.
  - unfold Qlt; simpl; lia.
Defined.

Lemma cjkCount_app (a b : jsstring) : cjkCount (a ++ b) = (cjkCount a + cjkCount b)%nat.
Proof.
  induction a as [|c a IH]; simpl; [reflexivity|]. rewrite IH. lia.
Qed.

Lemma cjkCount_none (t : jsstring) :
  Forall (fun c => inCjkRanges c = false) t -> cjkCount t = 0%nat.
Proof.
  induction 1 as [|c t Hc _ IH]; simpl; [reflexivity|]. now rewrite Hc, IH.
Qed.

Lemma cjkCount_all (t : jsstring) :
  Forall (fun c => inCjkRanges c = true) t -> cjkCount t = List.length t.
Proof.
  induction 1 as [|c t Hc _ IH]; simpl; [reflexivity|]. now rewrite Hc, IH.
Qed.

(** X8. The detector at its extremes: a text with no character in the CJK
    ranges (the empty text included) is English, a non-empty text made of
    such characters only is Chinese; and appending characters outside the
    ranges never turns an English text Chinese, as appending characters
    inside them never turns a Chinese text English. *)
Theorem detectLanguage_extremes (text more : jsstring) :
  (Forall (fun c => inCjkRanges c = false) text -> detectLanguage text = en_US)
  /\ (text <> [] -> Forall (fun c => inCjkRanges c = true) text ->
      detectLanguage text = zh_CN)
  /\ (detectLanguage text = en_US ->
      Forall (fun c => inCjkRanges c = false) more ->
      detectLanguage (text ++ more) = en_US)
  /\ (detectLanguage text = zh_CN ->
      Forall (fun c => inCjkRanges c = true) more ->
      detectLanguage (text ++ more) = zh_CN).
Proof.
  assert (Hen : forall t, detectLanguage t = en_US
                          <-> ~ (3 * List.length t < 10 * cjkCount t)%nat).
  { intros t. pose proof (detectLanguage_zh_counts t) as Hz.
    destruct (detectLanguage t); split; intros H; try discriminate; try reflexivity.
    - exfalso. apply H. now apply Hz.
    - intros F. apply Hz in F. discriminate. }
  split; [|split; [|split]].
  - intros Hnone. apply Hen. rewrite (cjkCount_none Hnone). lia.
  - intros Hne Hall. apply detectLanguage_zh_counts. rewrite (cjkCount_all Hall).
    destruct text; [congruence | simpl; lia].
  - intros E Hnone. apply Hen in E. apply Hen.
    rewrite cjkCount_app, length_app, (cjkCount_none Hnone). lia.
  - intros E Hall. apply detectLanguage_zh_counts in E. apply detectLanguage_zh_counts.
    rewrite cjkCount_app, length_app, (cjkCount_all Hall). lia.
Qed.

Lemma detectLanguage_extremes_witness :
  detectLanguage (js "hello") = en_US
  /\ detectLanguage (js "你好") = zh_CN
  /\ detectLanguage (js "hello" ++ js ", world") = en_US
  /\ detectLanguage (js "你好" ++ js "世界") = zh_CN.
Proof.
  split; [|split; [|split]].
  - apply (proj1 (detectLanguage_extremes (js "hello") [])). repeat constructor.
  - apply (proj1 (proj2 (detectLanguage_extremes (js "你好") []))).
    + discriminate.
    + repeat constructor.
  - apply (proj1 (proj2 (proj2 (detectLanguage_extremes (js "hello") (js ", world"))))).
    + reflexivity.
    + repeat constructor.
  - apply (proj2 (proj2 (proj2 (detectLanguage_extremes (js "你好") (js "世界"))))).
    + reflexivity.
    + repeat constructor.
Defined.

End GenerationCoverage.

(* ===================================================================== *)
(** ** More on the audio intensity *)
(* ===================================================================== *)

Section IntensityCoverage.

Import AudioProcessor Spec AudioProcessorObject.
Local Open Scope R_scope.

Lemma sqrt_ge_square (a c : R) : 0 <= a -> 0 <= c -> (c <= sqrt a <-> c * c <= a).
Proof.
  intros Ha Hc. pose proof (sqrt_pos a) as Hs. pose proof (sqrt_sqrt a Ha) as Hq.
  split; intros H.
  - rewrite <- Hq. nra.
  - destruct (Rle_lt_dec c (sqrt a)) as [L|L]; [exact L|]. nra.
Qed.

Lemma sqrt_gt_square (a c : R) : 0 <= a -> 0 <= c -> (c < sqrt a <-> c * c < a).
Proof.
  intros Ha Hc. pose proof (sqrt_pos a) as Hs. pose proof (sqrt_sqrt a Ha) as Hq.
  split; intros H.
  - rewrite <- Hq. nra.
  - destruct (Rlt_le_dec c (sqrt a)) as [L|L]; [exact L|]. nra.
Qed.

Lemma squares_nonneg (frame : list Z) : 0 <= squares frame.
Proof.
  rewrite <- sumOfSquares_squares. apply IZR_le.
  unfold sumOfSquares.
  assert (G : forall l acc, (acc <= fold_left (fun sum x => (sum + x * x)%Z) l acc)%Z).
  { induction l as [|x l IH]; intros acc; simpl; [lia|].
    specialize (IH (acc + x * x)%Z). nia. }
  apply G.
Qed.

Lemma sumOfSquares_zero (frame : list Z) :
  sumOfSquares frame = 0%Z <-> Forall (fun x => x = 0%Z) frame.
Proof.
  unfold sumOfSquares.
  assert (G : forall l acc, (0 <= acc)%Z ->
             (fold_left (fun sum x => (sum + x * x)%Z) l acc = 0%Z
              <-> acc = 0%Z /\ Forall (fun x => x = 0%Z) l)).
  { induction l as [|x l IH]; intros acc Hacc; simpl.
    - split; [intros H; split; [exact H | constructor] | tauto].
    - rewrite IH by nia. split.
      + intros [H1 H2]. assert (x = 0)%Z by nia. split; [nia|]. now constructor.
      + intros [H1 H2]. inversion H2; subst. split; [lia | assumption]. }
  rewrite G by lia. tauto.
Qed.

Lemma mean_nonneg (frame : list Z) :
  frame <> [] -> 0 <= squares frame / INR (List.length frame).
Proof.
  intros Hne. apply Rmult_le_pos; [apply squares_nonneg|].
  apply Rlt_le, Rinv_0_lt_compat, lt_0_INR.
  destruct frame; [congruence | simpl; lia].
Qed.

Lemma length_pos_R (frame : list Z) : frame <> [] -> 0 < INR (List.length frame).
Proof.
  intros Hne. apply lt_0_INR. destruct frame; [congruence | simpl; lia].
Qed.

(** The comparison of the root mean square with a non-negative bound,
    without the square root and the division. *)
Lemma rms_ge (frame : list Z) (c : R) :
  frame <> [] -> 0 <= c ->
  (c <= sqrt (squares frame / INR (List.length frame))
   <-> c * c * INR (List.length frame) <= squares frame).
Proof.
  intros Hne Hc. rewrite sqrt_ge_square by (auto using mean_nonneg).
  pose proof (length_pos_R Hne) as Hn.
  assert (Hmean : forall s, s = s / INR (List.length frame) * INR (List.length frame))
    by (intros s; field; lra).
  split; intros H.
  - rewrite (Hmean (squares frame)).
    apply Rmult_le_compat_r; [lra | exact H].
  - apply (Rmult_le_reg_r (INR (List.length frame))); [exact Hn|].
    now rewrite <- Hmean.
Qed.

Lemma rms_gt (frame : list Z) (c : R) :
  frame <> [] -> 0 <= c ->
  (c < sqrt (squares frame / INR (List.length frame))
   <-> c * c * INR (List.length frame) < squares frame).
Proof.
  intros Hne Hc. rewrite sqrt_gt_square by (auto using mean_nonneg).
  pose proof (length_pos_R Hne) as Hn.
  assert (Hmean : forall s, s = s / INR (List.length frame) * INR (List.length frame))
    by (intros s; field; lra).
  split; intros H.
  - rewrite (Hmean (squares frame)).
    apply Rmult_lt_compat_r; [lra | exact H].
  - apply (Rmult_lt_reg_r (INR (List.length frame))); [exact Hn|].
    now rewrite <- Hmean.
Qed.

Lemma getAudioIntensity_value (frame : list Z) :
  frame <> [] ->
  getAudioIntensity frame
  = Some (Rmin (sqrt (squares frame / INR (List.length frame)) / 128) 1).
Proof.
  intros Hne. unfold getAudioIntensity. rewrite sumOfSquares_squares.
  destruct frame; [congruence | reflexivity].
Qed.

Lemma squares_monotone (quiet loud : list Z) :
  Forall2 (fun a b => (0 <= a <= b)%Z) quiet loud -> squares quiet <= squares loud.
Proof.
  induction 1 as [|a b quiet loud Hab _ IH]; simpl; [lra|].
  assert (IZR a * IZR a <= IZR b * IZR b).
  { rewrite <- !mult_IZR. apply IZR_le. nia. }
  lra.
Qed.

(** X9. The intensity at its ends, and its growth: on a non-empty frame
    the value is 1 exactly when the sum of squares reaches 16384 times the
    number of bins (a root mean square of 128 or more, half of the byte
    range), it is 0 exactly when every bin is 0, and a frame that is
    nowhere quieter than another has no smaller intensity. *)
Theorem getAudioIntensity_extremes (dataArray : list Z) :
  dataArray <> [] ->
  exists intensity,
    getAudioIntensity dataArray = Some intensity
    /\ (intensity = 1
        <-> (16384 * Z.of_nat (List.length dataArray) <= sumOfSquares dataArray)%Z)
    /\ (intensity = 0 <-> Forall (fun x => x = 0%Z) dataArray)
    /\ (forall louder : list Z,
           Forall2 (fun a b => (0 <= a <= b)%Z) dataArray louder ->
           exists intensity',
             getAudioIntensity louder = Some intensity' /\ intensity <= intensity').
Proof.
  intros Hne. rewrite (getAudioIntensity_value Hne).
  eexists. split; [reflexivity|].
  set (rms := sqrt (squares dataArray / INR (List.length dataArray))).
  assert (Hrms : 0 <= rms) by apply sqrt_pos.
  split; [|split].
  - assert (E : Rmin (rms / 128) 1 = 1 <-> 128 <= rms).
    { unfold Rmin. destruct (Rle_dec (rms / 128) 1); lra. }
    rewrite E. unfold rms. rewrite rms_ge by (auto; lra).
    rewrite <- sumOfSquares_squares, INR_IZR_INZ.
    replace (128 * 128) with (IZR 16384) by (simpl; lra).
    rewrite <- mult_IZR. split; [apply le_IZR | apply IZR_le].
  - assert (E : Rmin (rms / 128) 1 = 0 <-> rms <= 0).
    { unfold Rmin. destruct (Rle_dec (rms / 128) 1); lra. }
    rewrite E. rewrite <- sumOfSquares_zero.
    assert (E2 : rms <= 0 <-> ~ 0 < rms) by lra.
    rewrite E2. unfold rms. rewrite rms_gt by (auto; lra).
    rewrite <- sumOfSquares_squares.
    pose proof (squares_nonneg dataArray) as Hs.
    rewrite <- sumOfSquares_squares in Hs.
    split; intros H.
    + apply eq_IZR. lra.
    + rewrite H. lra.
  - intros louder Hl.
    assert (Hne' : louder <> []).
    { destruct Hl; [congruence | discriminate]. }
    rewrite (getAudioIntensity_value Hne'). eexists. split; [reflexivity|].
    apply Rle_min_compat_r.
    apply Rmult_le_compat_r; [lra|].
    unfold rms. apply sqrt_le_1_alt.
    rewrite <- (Forall2_length Hl).
    apply Rmult_le_compat_r.
    + apply Rlt_le, Rinv_0_lt_compat, (length_pos_R Hne).
    + now apply squares_monotone.
Qed.

Lemma getAudioIntensity_extremes_witness :
  exists intensity,
    getAudioIntensity [128; 200]%Z = Some intensity
    /\ (intensity = 1
        <-> (16384 * Z.of_nat (List.length [128; 200]%Z) <= sumOfSquares [128; 200]%Z)%Z)
    /\ (intensity = 0 <-> Forall (fun x => x = 0%Z) [128; 200]%Z)
    /\ (forall louder : list Z,
           Forall2 (fun a b => (0 <= a <= b)%Z) [128; 200]%Z louder ->
           exists intensity',
             getAudioIntensity louder = Some intensity' /\ intensity <= intensity').
Proof.
  apply getAudioIntensity_extremes. discriminate.
Defined.

Lemma intensity_monotone (quiet loud : list Z) :
  quiet <> [] ->
  Forall2 (fun a b => (0 <= a <= b)%Z) quiet loud ->
  Rmin (sqrt (squares quiet / INR (List.length quiet)) / 128) 1
  <= Rmin (sqrt (squares loud / INR (List.length loud)) / 128) 1.
Proof.
  intros Hne Hl.
  apply Rle_min_compat_r.
  apply Rmult_le_compat_r; [lra|].
  apply sqrt_le_1_alt.
  rewrite <- (Forall2_length Hl).
  apply Rmult_le_compat_r.
  - apply Rlt_le, Rinv_0_lt_compat, (length_pos_R Hne).
  - now apply squares_monotone.
Qed.

(** X10. Voice activity at the thresholds where no rounding can matter.
    On an empty frame the answer is false.  On a non-empty one: a
    negative threshold is always exceeded and a threshold of 1 or more
    never; the default threshold 0.1 is exceeded exactly when
    [4096 * length < 25 * sum of squares]; a silent frame exceeds the
    negative thresholds only, and a frame whose intensity is capped at 1
    every threshold below 1; and activity is kept when the threshold is
    lowered and no bin gets quieter. *)
Theorem detectVoiceActivity_criterion (dataArray : list Z) :
  (dataArray = [] -> forall t, ~ detectVoiceActivity t dataArray)
  /\ (dataArray <> [] ->
      (forall t, t < 0 -> detectVoiceActivity (Some t) dataArray)
      /\ (forall t, 1 <= t -> ~ detectVoiceActivity (Some t) dataArray)
      /\ (detectVoiceActivity None dataArray
          <-> (4096 * Z.of_nat (List.length dataArray) < 25 * sumOfSquares dataArray)%Z)
      /\ (Forall (fun x => x = 0%Z) dataArray ->
          forall t, detectVoiceActivity (Some t) dataArray <-> t < 0)
      /\ ((16384 * Z.of_nat (List.length dataArray) <= sumOfSquares dataArray)%Z ->
          forall t, detectVoiceActivity (Some t) dataArray <-> t < 1)
      /\ (forall (t t' : R) (louder : list Z),
             detectVoiceActivity (Some t) dataArray ->
             t' <= t ->
             Forall2 (fun a b => (0 <= a <= b)%Z) dataArray louder ->
             detectVoiceActivity (Some t') louder)).
Proof.
  split.
  - intros E t. subst dataArray. unfold detectVoiceActivity. simpl. tauto.
  - intros Hne. unfold detectVoiceActivity. rewrite (getAudioIntensity_value Hne).
    set (rms := sqrt (squares dataArray / INR (List.length dataArray))).
    assert (Hrms : 0 <= rms) by apply sqrt_pos.
    assert (Hmin : forall t, t < 1 -> (t < Rmin (rms / 128) 1 <-> 128 * t < rms)).
    { intros t Ht. unfold Rmin. destruct (Rle_dec (rms / 128) 1); lra. }
    split; [|split; [|split; [|split; [|split]]]].
    + intros t Ht. apply Hmin; lra.
    + intros t Ht. pose proof (Rmin_r (rms / 128) 1). lra.
    + rewrite Hmin by lra.
      unfold rms. rewrite rms_gt by (auto; lra).
      rewrite <- sumOfSquares_squares, INR_IZR_INZ.
      split; intros H.
      * apply lt_IZR. rewrite !mult_IZR. lra.
      * apply IZR_lt in H. rewrite !mult_IZR in H. lra.
    + intros Hz t. apply sumOfSquares_zero in Hz.
      assert (E : rms = 0).
      { unfold rms. rewrite <- sumOfSquares_squares, Hz.
        unfold Rdiv. rewrite Rmult_0_l. apply sqrt_0. }
      rewrite E. unfold Rmin. destruct (Rle_dec (0 / 128) 1); lra.
    + intros Hfull t.
      assert (E : 128 <= rms).
      { unfold rms. apply rms_ge; [exact Hne | lra|].
        rewrite <- sumOfSquares_squares, INR_IZR_INZ.
        apply IZR_le in Hfull. rewrite mult_IZR in Hfull. lra. }
      unfold Rmin. destruct (Rle_dec (rms / 128) 1); lra.
    + intros t t' louder Hact Hle Hl.
      assert (Hne' : louder <> []).
      { destruct Hl; [congruence | discriminate]. }
      rewrite (getAudioIntensity_value Hne').
      pose proof (intensity_monotone Hne Hl) as Hmono. fold rms in Hmono. lra.
Qed.

Lemma detectVoiceActivity_criterion_witness :
  detectVoiceActivity None [0; 64; 64; 0]%Z
  /\ ~ detectVoiceActivity None [0; 10; 10; 0]%Z
  /\ detectVoiceActivity (Some (1 / 2)) [200; 200]%Z
  /\ ~ detectVoiceActivity (Some 0) [0; 0]%Z.
Proof.
  split; [|split; [|split]].
  - apply (proj1 (proj2 (proj2 (proj2 (detectVoiceActivity_criterion [0; 64; 64; 0]%Z)
                                      ltac:(discriminate))))).
    vm_compute. reflexivity.
  - intros H.
    apply (proj1 (proj2 (proj2 (proj2 (detectVoiceActivity_criterion [0; 10; 10; 0]%Z)
                                      ltac:(discriminate))))) in H.
    vm_compute in H. discriminate H.
  - apply (proj1 (proj2 (proj2 (proj2 (proj2
             (proj2 (detectVoiceActivity_criterion [200; 200]%Z) ltac:(discriminate))))))).
    + vm_compute. discriminate.
    + lra.
  - intros H.
    apply (proj1 (proj2 (proj2 (proj2
             (proj2 (detectVoiceActivity_criterion [0; 0]%Z) ltac:(discriminate)))))) in H.
    + lra.
    + repeat constructor.
Defined.

End IntensityCoverage.

(* ===================================================================== *)
(** ** The silence detector and its intervals *)
(* ===================================================================== *)

Section MonitorCoverage.

Import AudioProcessor AudioProcessorObject.
Import JsNumber (Qltb).

Local Open Scope Z_scope.

Lemma stopSilenceDetection_field (d : SilenceDetector) :
  silenceCheckIntervalId (stopSilenceDetection d) = None.
Proof.
  unfold stopSilenceDetection. destruct (silenceCheckIntervalId d) eqn:E; [reflexivity | exact E].
Qed.

Lemma stopSilenceDetection_stopped (d : SilenceDetector) :
  silenceCheckIntervalId d = None -> stopSilenceDetection d = d.
Proof. intros E. unfold stopSilenceDetection. now rewrite E. Qed.

Lemma clearInterval_single (id : N) : clearInterval id [id] = [].
Proof. unfold clearInterval. simpl. now rewrite N.eqb_refl. Qed.

Lemma singleInterval_stop (m : Monitor) :
  singleInterval m ->
  singleInterval (stopSilence m) /\ silenceCheckIntervalId (detector (stopSilence m)) = None.
Proof.
  unfold singleInterval. intros H. simpl. rewrite stopSilenceDetection_field.
  split; [|reflexivity]. rewrite H.
  destruct (silenceCheckIntervalId (detector m)); [apply clearInterval_single | reflexivity].
Qed.

Lemma singleInterval_start (m : Monitor) threshold duration now id :
  singleInterval m -> silenceCheckIntervalId (detector m) = None ->
  singleInterval (startSilence threshold duration now id m).
Proof.
  unfold singleInterval. intros H E. rewrite E in H. simpl. now rewrite H.
Qed.

Lemma intervalBody_fired now intensity d d' :
  intervalBody now intensity d = (d', true) -> d' = stopSilenceDetection d.
Proof.
  unfold intervalBody.
  destruct (Qltb _ _); [discriminate|].
  destruct (hasDetectedSound d); [|discriminate].
  destruct (_ <=? _); [|discriminate]. congruence.
Qed.

Lemma intervalBody_quiet_field now intensity d d' :
  intervalBody now intensity d = (d', false) ->
  silenceCheckIntervalId d' = silenceCheckIntervalId d.
Proof.
  unfold intervalBody.
  destruct (Qltb _ _); [intros E; inversion E; reflexivity|].
  destruct (hasDetectedSound d); [|congruence].
  destruct (_ <=? _); [discriminate | congruence].
Qed.

Lemma singleInterval_tick (m : Monitor) id now intensity :
  singleInterval m ->
  singleInterval (fst (tick id now intensity m))
  /\ (snd (tick id now intensity m) = true ->
      silenceCheckIntervalId (detector (fst (tick id now intensity m))) = None).
Proof.
  intros H. unfold tick.
  destruct (existsb _ _); [|split; [exact H | discriminate]].
  destruct (intervalBody now intensity (detector m)) as [d' fired] eqn:E.
  destruct fired; simpl.
  - apply intervalBody_fired in E. subst d'.
    destruct (singleInterval_stop H) as [H1 H2]. split; [exact H1 | intros _; exact H2].
  - split; [|discriminate]. unfold singleInterval in *. simpl.
    now rewrite (intervalBody_quiet_field _ _ _ E).
Qed.

Lemma stopped_tick (m : Monitor) id now intensity :
  singleInterval m -> silenceCheckIntervalId (detector m) = None ->
  tick id now intensity m = (m, false).
Proof.
  unfold singleInterval. intros H E. rewrite E in H. unfold tick. now rewrite H.
Qed.

Lemma singleInterval_call (c : Call) (m : Monitor) :
  singleInterval m ->
  match c with Start _ _ _ _ => silenceCheckIntervalId (detector m) = None | _ => True end ->
  singleInterval (fst (call c m)).
Proof.
  intros H Hc. destruct c as [t d n id| |id n x]; simpl.
  - now apply singleInterval_start.
  - apply (singleInterval_stop H).
  - apply (singleInterval_tick _ _ _ H).
Qed.

(** While no detection runs, nothing invokes the callback until the next
    start. *)
Lemma stopped_until_start (cs : list Call) :
  forall (m : Monitor) (j : nat),
    singleInterval m -> startsWhenStopped cs m ->
    silenceCheckIntervalId (detector m) = None ->
    nth_error (calls cs m) j = Some true ->
    exists k c, (k < j)%nat /\ nth_error cs k = Some c /\ isStart c.
Proof.
  induction cs as [|c rest IH]; intros m j Hs Hd Hoff Hj.
  - destruct j; discriminate.
  - destruct Hd as [Hc Hd]. destruct j as [|j]; simpl in Hj.
    + exfalso. destruct c as [t d n id| |id n x]; simpl in Hj; try discriminate.
      rewrite (stopped_tick _ _ _ Hs Hoff) in Hj. discriminate.
    + destruct c as [t d n id| |id n x].
      * exists 0%nat, (Start t d n id). split; [lia|]. split; [reflexivity | exact I].
      * destruct (singleInterval_stop Hs) as [H1 H2].
        destruct (IH _ j H1 Hd H2 Hj) as (k & c & Hk & Ec & Hst).
        exists (S k), c. split; [lia|]. split; assumption.
      * simpl in Hj, Hd. rewrite (stopped_tick _ _ _ Hs Hoff) in Hj, Hd. simpl in Hj, Hd.
        destruct (IH _ j Hs Hd Hoff Hj) as (k & c & Hk & Ec & Hst).
        exists (S k), c. split; [lia|]. split; assumption.
Qed.

Lemma one_callback_between (cs : list Call) (m : Monitor) (i j : nat) :
  singleInterval m -> startsWhenStopped cs m ->
  (i < j)%nat ->
  nth_error (calls cs m) i = Some true \/ nth_error cs i = Some Stop ->
  nth_error (calls cs m) j = Some true ->
  exists k c, (i < k < j)%nat /\ nth_error cs k = Some c /\ isStart c.
Proof.
  revert m i j. induction cs as [|c rest IH]; intros m i j Hs Hd Hij Hi Hj.
  - destruct j; discriminate.
  - destruct Hd as [Hc Hd].
    pose proof (singleInterval_call c Hs Hc) as Hs'.
    destruct j as [|j]; [lia|]. simpl in Hj.
    destruct i as [|i].
    + assert (Hoff : silenceCheckIntervalId (detector (fst (call c m))) = None).
      { destruct Hi as [Hi|Hi]; simpl in Hi.
        - destruct c as [t d n id| |id n x]; simpl in Hi; try discriminate.
          inversion Hi as [Hi']. now apply (singleInterval_tick _ _ _ Hs).
        - inversion Hi; subst c. apply (singleInterval_stop Hs). }
      destruct (stopped_until_start rest j Hs' Hd Hoff Hj) as (k & c' & Hk & Ec & Hst).
      exists (S k), c'. split; [lia|]. split; assumption.
    + destruct (IH _ i j Hs' Hd ltac:(lia) Hi Hj) as (k & c' & Hk & Ec & Hst).
      exists (S k), c'. split; [lia|]. split; assumption.
Qed.

Lemma singleInterval_after (cs : list Call) :
  forall (m : Monitor) (n : nat),
    singleInterval m -> startsWhenStopped cs m ->
    singleInterval (stateAfter (firstn n cs) m).
Proof.
  induction cs as [|c rest IH]; intros m n Hs Hd.
  - destruct n; exact Hs.
  - destruct n as [|n]; [exact Hs|]. destruct Hd as [Hc Hd].
    simpl. apply IH; [|exact Hd]. now apply singleInterval_call.
Qed.

(** X11. One callback per start, none after a stop: when detection is
    only started while none is running, at most one interval is live at any
    time, and between a call that invoked the callback, or a
    [stopSilenceDetection], and any later invocation of the callback there
    is a [startSilenceDetection]. *)
Theorem one_callback_per_start (cs : list Call) (m : Monitor) :
  singleInterval m -> startsWhenStopped cs m ->
  (forall n, (List.length (liveIntervals (stateAfter (firstn n cs) m)) <= 1)%nat)
  /\ (forall i j,
         (i < j)%nat ->
         nth_error (calls cs m) i = Some true \/ nth_error cs i = Some Stop ->
         nth_error (calls cs m) j = Some true ->
         exists k c, (i < k < j)%nat /\ nth_error cs k = Some c /\ isStart c).
Proof.
  intros Hs Hd. split.
  - intros n. pose proof (singleInterval_after cs n Hs Hd) as H.
    unfold singleInterval in H. rewrite H.
    destruct (silenceCheckIntervalId _); simpl; lia.
  - intros i j. now apply one_callback_between.
Qed.

Lemma one_callback_per_start_witness :
  let cs := [Start 0.03%Q 500 0 1%N; Tick 1%N 150 0.5%Q; Tick 1%N 750 0%Q;
             Tick 1%N 900 0%Q; Start 0.03%Q 500 1000 2%N; Tick 2%N 1150 0.5%Q;
             Tick 2%N 1750 0%Q] in
  calls cs newMonitor = [false; false; true; false; false; false; true]
  /\ exists k c, (2 < k < 6)%nat /\ nth_error cs k = Some c /\ isStart c.
Proof.
  intros cs. split; [reflexivity|].
  refine (proj2 (@one_callback_per_start cs newMonitor _ _) 2%nat 6%nat _ _ _).
  - reflexivity.
  - simpl. repeat split.
  - lia.
  - left. reflexivity.
  - reflexivity.
Defined.

Lemma clearInterval_other (id other : N) (live : list N) :
  other <> id -> In other live -> In other (clearInterval id live).
Proof.
  intros Hne Hin. unfold clearInterval. apply filter_In. split; [exact Hin|].
  apply negb_true_iff, N.eqb_neq. exact Hne.
Qed.

Lemma live_existsb (id : N) (live : list N) : In id live -> existsb (N.eqb id) live = true.
Proof.
  intros H. apply existsb_exists. exists id. split; [exact H | apply N.eqb_refl].
Qed.

(** Once the handle is lost, an interval that is still live reports every
    quiet tick after enough silence. *)
Lemma orphan_fires (id : N) (quiet : list (Z * Q)) :
  forall m : Monitor,
    In id (liveIntervals m) ->
    silenceCheckIntervalId (detector m) = None ->
    hasDetectedSound (detector m) = true ->
    Forall (fun s => (snd s <= silenceThreshold (detector m))%Q
                     /\ silenceDuration (detector m) <= fst s - lastSoundTime (detector m))
           quiet ->
    calls (map (fun s => Tick id (fst s) (snd s)) quiet) m = map (fun _ => true) quiet.
Proof.
  induction quiet as [|[now x] rest IH]; intros m Hin Hoff Hhas Hq; [reflexivity|].
  inversion Hq as [|? ? [Hx Ht] Hrest]; subst. simpl in Hx, Ht.
  simpl map. simpl calls. unfold tick. rewrite (live_existsb _ _ Hin).
  unfold intervalBody.
  assert (E1 : Qltb (silenceThreshold (detector m)) x = false).
  { unfold Qltb. apply negb_false_iff, Qle_bool_iff. exact Hx. }
  rewrite E1, Hhas.
  assert (E2 : (silenceDuration (detector m) <=? now - lastSoundTime (detector m)) = true)
    by (apply Z.leb_le; exact Ht).
  rewrite E2. simpl. f_equal.
  rewrite (stopSilenceDetection_stopped _ Hoff). rewrite Hoff.
  apply IH; simpl; assumption.
Qed.

(** X12. An interval left behind: a second [startSilenceDetection] without
    a stop in between overwrites the handle of the first interval, so
    [stopSilenceDetection] clears only the second; the first stays live,
    and once it has seen a sample above the threshold it invokes the
    callback at every quiet tick from the moment the silence has lasted the
    duration, stop or no stop. *)
Theorem interval_left_behind
        (m : Monitor) (threshold1 threshold2 : Q) (duration1 duration2 now1 now2 : Z)
        (id1 id2 : N) (t : Z * Q) (quiet : list (Z * Q)) :
  id1 <> id2 ->
  let m2 := stopSilence (startSilence threshold2 duration2 now2 id2
                           (startSilence threshold1 duration1 now1 id1 m)) in
  In id1 (liveIntervals m2)
  /\ silenceCheckIntervalId (detector m2) = None
  /\ ((threshold2 < snd t)%Q ->
      Forall (fun s => (snd s <= threshold2)%Q /\ duration2 <= fst s - fst t) quiet ->
      calls (Tick id1 (fst t) (snd t) :: map (fun s => Tick id1 (fst s) (snd s)) quiet) m2
      = false :: map (fun _ => true) quiet).
Proof.
  intros Hne m2.
  assert (Hin : In id1 (liveIntervals m2)).
  { simpl. rewrite N.eqb_refl. simpl.
    destruct (N.eqb id1 id2) eqn:E; [apply N.eqb_eq in E; contradiction|].
    simpl. now left. }
  split; [exact Hin|]. split; [reflexivity|].
  intros Hloud Hq. simpl calls. unfold tick at 1 2. rewrite (live_existsb _ _ Hin).
  unfold intervalBody. simpl detector. simpl silenceThreshold.
  assert (E1 : Qltb threshold2 (snd t) = true).
  { unfold Qltb. apply negb_true_iff. destruct (Qle_bool (snd t) threshold2) eqn:E; [|reflexivity].
    apply Qle_bool_iff in E. exfalso. revert E. now apply Qlt_not_le. }
  rewrite E1. simpl. f_equal.
  apply orphan_fires; simpl; auto.
Qed.

Lemma interval_left_behind_witness :
  let m2 := stopSilence (startSilence 0.03%Q 500 100 2%N
                           (startSilence 0.03%Q 500 0 1%N newMonitor)) in
  calls [Tick 1%N 150 0.5%Q; Tick 1%N 750 0%Q; Tick 1%N 900 0%Q] m2
  = [false; true; true].
Proof.
  intros m2.
  refine (proj2 (proj2 (@interval_left_behind newMonitor 0.03%Q 0.03%Q 500 500 0 100
                          1%N 2%N (150, 0.5%Q) [(750, 0%Q); (900, 0%Q)] _)) _ _).
  - discriminate.
  - reflexivity.
  - repeat constructor; simpl; try lia; unfold Qle; simpl; lia.
Defined.

End MonitorCoverage.

(* ===================================================================== *)
(** ** The playback queue *)
(* ===================================================================== *)

Section OutputCoverage.

Import JsNumber AudioProcessorObject.
Import AudioProcessor (int16ToFloat32).

Lemma afterEmpty_snoc (bs : list (list number)) (b : list number) :
  afterEmpty (bs ++ [b])
  = match afterEmpty bs with
    | Some after => Some (after ++ [b])
    | None => match b with [] => Some [] | _ :: _ => None end
    end.
Proof.
  induction bs as [|[|x c] bs IH]; simpl.
  - destruct b; reflexivity.
  - reflexivity.
  - exact IH.
Qed.

Lemma untilEmpty_snoc (bs : list (list number)) (b : list number) :
  untilEmpty (bs ++ [b])
  = match afterEmpty bs with
    | Some _ => untilEmpty bs
    | None => match b with [] => bs | _ :: _ => bs ++ [b] end
    end.
Proof.
  induction bs as [|[|x c] bs IH]; simpl.
  - destruct b; reflexivity.
  - reflexivity.
  - rewrite IH. destruct (afterEmpty bs); [reflexivity|]. destruct b; reflexivity.
Qed.

Lemma untilEmpty_all (bs : list (list number)) :
  afterEmpty bs = None -> untilEmpty bs = bs /\ Forall (fun b => b <> []) bs.
Proof.
  induction bs as [|[|x c] bs IH]; simpl; intros H.
  - split; [reflexivity | constructor].
  - discriminate H.
  - destruct (IH H) as [E F]. rewrite E. split; [reflexivity|].
    constructor; [discriminate | exact F].
Qed.

Lemma untilEmpty_nonempty (bs : list (list number)) : Forall (fun b => b <> []) (untilEmpty bs).
Proof.
  induction bs as [|[|x c] bs IH]; simpl; constructor; [discriminate | exact IH].
Qed.

Lemma tracks_new : tracks [] newOutput.
Proof. unfold tracks, oneSource. simpl. auto. Qed.

Lemma tracks_step (bs : list (list number)) (o : Output) (e : OutputEvent) :
  noStop e -> tracks bs o -> tracks (bs ++ pushed [e]) (outputStep o e).
Proof.
  intros He H. destruct e as [pcm| |]; [| |contradiction]; simpl pushed.
  - (* playAudio *)
    unfold tracks in *. rewrite afterEmpty_snoc, untilEmpty_snoc.
    set (b := int16ToFloat32 pcm) in *.
    destruct o as [queue playing st n]. simpl outputStep. unfold playAudio. fold b. simpl in *.
    destruct (afterEmpty bs) as [after|] eqn:A.
    + destruct H as [Hp H]. subst playing. simpl. split; [reflexivity|].
      destruct H as [(Hn & waiting & Hq & Hs)|(Hn & Hs & Hq)].
      * left. split; [exact Hn|]. exists waiting. subst queue.
        rewrite <- app_assoc. simpl. auto.
      * right. subst queue. auto.
    + destruct H as [[Hn Hq] Hs]. simpl in Hn, Hq.
      destruct playing; simpl.
      * subst n. destruct b as [|x c] eqn:B.
        -- split; [reflexivity|]. left. split; [reflexivity|].
           exists queue. split; [reflexivity | exact Hs].
        -- unfold oneSource; simpl. split; [split; [reflexivity | discriminate]|].
           now rewrite app_assoc, Hs.
      * rewrite (Hq eq_refl) in *. rewrite app_nil_r in Hs. subst n st.
        unfold processAudioQueue; simpl.
        destruct b as [|x c] eqn:B; simpl.
        -- split; [reflexivity|]. right. auto.
        -- unfold oneSource; simpl. split; [split; [reflexivity | discriminate]|].
           now rewrite app_nil_r.
  - (* a source ends *)
    simpl pushed. rewrite app_nil_r. unfold tracks in *.
    destruct o as [queue playing st n]. simpl outputStep. unfold onended. simpl in *.
    destruct (afterEmpty bs) as [after|] eqn:A.
    + destruct H as [Hp H]. subst playing.
      destruct H as [(Hn & waiting & Hq & Hs)|(Hn & Hs & Hq)]; subst n.
      * unfold processAudioQueue; simpl. subst queue.
        destruct waiting as [|w waiting]; simpl.
        -- split; [reflexivity|]. right. rewrite app_nil_r in Hs. auto.
        -- assert (Hw : w <> []).
           { pose proof (untilEmpty_nonempty bs) as F. rewrite <- Hs in F.
             apply Forall_app in F. destruct F as [_ F]. now inversion F. }
           destruct w as [|x c]; [congruence|]. simpl.
           split; [reflexivity|]. left. split; [reflexivity|].
           exists waiting. split; [reflexivity|]. now rewrite <- app_assoc.
      * simpl. split; [reflexivity|]. right. auto.
    + destruct H as [[Hn Hq] Hs]. simpl in Hn, Hq.
      destruct playing; subst n; simpl.
      * unfold processAudioQueue; simpl.
        destruct queue as [|w queue]; simpl.
        -- unfold oneSource; simpl. auto.
        -- assert (Hw : w <> []).
           { destruct (untilEmpty_all bs A) as [_ F]. rewrite <- Hs in F.
             apply Forall_app in F. destruct F as [_ F]. now inversion F. }
           destruct w as [|x c]; [congruence|]. simpl.
           unfold oneSource; simpl. split; [split; [reflexivity | discriminate]|].
           now rewrite <- app_assoc.
      * unfold oneSource; simpl. auto.
Qed.

Lemma pushed_app (es fs : list OutputEvent) : pushed (es ++ fs) = pushed es ++ pushed fs.
Proof.
  induction es as [|[pcm| |] es IH]; simpl; [reflexivity| |exact IH|exact IH].
  now rewrite IH.
Qed.

Lemma pushed_ended (n : nat) : pushed (repeat Ended n) = [].
Proof. induction n; [reflexivity | exact IHn]. Qed.

Lemma tracks_run (es : list OutputEvent) :
  forall (bs : list (list number)) (o : Output),
    Forall noStop es -> tracks bs o -> tracks (bs ++ pushed es) (outputRun es o).
Proof.
  induction es as [|e es IH]; intros bs o Hes H.
  - simpl. now rewrite app_nil_r.
  - inversion Hes as [|? ? He Hrest]; subst.
    change (outputRun (e :: es) o) with (outputRun es (outputStep o e)).
    change (e :: es) with ([e] ++ es). rewrite pushed_app, app_assoc.
    apply IH; [exact Hrest | now apply tracks_step].
Qed.

(** Once [isPlaying] is set and no source sounds, nothing starts any
    more: [playAudio] only queues, and no source is left to end. *)
Lemma stalled_stays (fs : list OutputEvent) :
  forall o : Output,
    Forall noStop fs -> isPlaying o = true -> sounding o = 0%nat ->
    isPlaying (outputRun fs o) = true
    /\ sounding (outputRun fs o) = 0%nat
    /\ started (outputRun fs o) = started o
    /\ audioQueue (outputRun fs o) = audioQueue o ++ pushed fs.
Proof.
  induction fs as [|e fs IH]; intros o Hfs Hp Hn.
  - simpl. now rewrite app_nil_r.
  - inversion Hfs as [|? ? He Hrest]; subst.
    change (outputRun (e :: fs) o) with (outputRun fs (outputStep o e)).
    destruct o as [queue playing st n]. simpl in Hp, Hn. subst playing n.
    destruct e as [pcm| |]; [| |contradiction].
    + destruct (IH (outputStep {| audioQueue := queue; isPlaying := true;
                                  started := st; sounding := 0 |} (PlayAudio pcm))
                   Hrest eq_refl eq_refl) as (A & B & C & D).
      rewrite A, B, C, D. simpl. rewrite <- app_assoc. auto.
    + destruct (IH (outputStep {| audioQueue := queue; isPlaying := true;
                                  started := st; sounding := 0 |} Ended)
                   Hrest eq_refl eq_refl) as (A & B & C & D).
      rewrite A, B, C, D. simpl. auto.
Qed.

Lemma drain (n : nat) :
  forall (bs : list (list number)) (o : Output),
    afterEmpty bs = None -> tracks bs o ->
    (List.length (audioQueue o) + (if isPlaying o then 1 else 0) <= n)%nat ->
    let o' := outputRun (repeat Ended n) o in
    started o' = bs /\ audioQueue o' = [] /\ isPlaying o' = false /\ sounding o' = 0%nat.
Proof.
  induction n as [|n IH]; intros bs o A H Hn.
  - unfold tracks in H. rewrite A in H. destruct H as [[Hk Hq] Hs].
    destruct (isPlaying o) eqn:P; [lia|]. simpl.
    rewrite (Hq eq_refl) in Hs. rewrite app_nil_r in Hs. auto.
  - simpl repeat. change (outputRun (Ended :: repeat Ended n) o)
      with (outputRun (repeat Ended n) (onended o)).
    pose proof (@tracks_step bs o Ended I H) as H1. simpl in H1. rewrite app_nil_r in H1.
    apply (IH bs (onended o) A H1).
    unfold tracks in H. rewrite A in H. destruct H as [[Hk Hq] Hs].
    destruct o as [queue playing st k]. simpl in *.
    unfold onended. simpl. destruct playing; subst k; simpl.
    + unfold processAudioQueue. simpl.
      destruct queue as [|[|x c] queue]; simpl in *; lia.
    + rewrite (Hq eq_refl). simpl. lia.
Qed.

Lemma drain_to_the_stall (n : nat) :
  forall (bs after : list (list number)) (o : Output),
    afterEmpty bs = Some after -> tracks bs o ->
    (List.length (audioQueue o) <= n + List.length after)%nat ->
    let o' := outputRun (repeat Ended n) o in
    isPlaying o' = true /\ sounding o' = 0%nat
    /\ started o' = untilEmpty bs /\ audioQueue o' = after.
Proof.
  induction n as [|n IH]; intros bs after o A H Hn.
  - unfold tracks in H. rewrite A in H.
    destruct H as [Hp [(Hk & waiting & Hq & Hs)|(Hk & Hs & Hq)]].
    + rewrite Hq, length_app in Hn. simpl in Hn. lia.
    + simpl. auto.
  - simpl repeat. change (outputRun (Ended :: repeat Ended n) o)
      with (outputRun (repeat Ended n) (onended o)).
    pose proof (@tracks_step bs o Ended I H) as H1. simpl in H1. rewrite app_nil_r in H1.
    apply (IH bs after (onended o) A H1).
    unfold tracks in H. rewrite A in H.
    destruct o as [queue playing st k]. simpl in *.
    destruct H as [Hp [(Hk & waiting & Hq & Hs)|(Hk & Hs & Hq)]]; subst k.
    + unfold onended, processAudioQueue. simpl. subst queue.
      rewrite length_app in Hn. simpl in Hn.
      destruct waiting as [|[|x c] waiting]; simpl in *;
        rewrite ?length_app; simpl; lia.
    + unfold onended. simpl. subst queue. lia.
Qed.

(** Whatever the state: the buffers that start are taken from the head of
    the queue, in order, and an empty one is taken off without starting. *)
Lemma taken_step (o : Output) (e : OutputEvent) :
  noStop e ->
  exists k,
    (k <= List.length (audioQueue o ++ pushed [e]))%nat
    /\ started (outputStep o e)
       = started o ++ filter hasSamples (firstn k (audioQueue o ++ pushed [e]))
    /\ audioQueue (outputStep o e) = skipn k (audioQueue o ++ pushed [e]).
Proof.
  intros He. destruct o as [queue playing st n].
  destruct e as [pcm| |]; [| |contradiction]; simpl.
  - unfold playAudio. simpl. destruct playing; simpl.
    + exists 0%nat. simpl. rewrite app_nil_r. split; [lia | auto].
    + unfold processAudioQueue. simpl.
      destruct (queue ++ [int16ToFloat32 pcm]) as [|[|x c] rest] eqn:Q.
      * destruct queue; discriminate Q.
      * exists 1%nat. simpl. rewrite app_nil_r. split; [lia | auto].
      * exists 1%nat. simpl. split; [lia | auto].
  - rewrite app_nil_r. unfold onended. simpl. destruct n as [|n].
    + exists 0%nat. simpl. rewrite app_nil_r. split; [lia | auto].
    + unfold processAudioQueue. simpl. destruct queue as [|[|x c] rest]; simpl.
      * exists 0%nat. simpl. rewrite app_nil_r. split; [lia | auto].
      * exists 1%nat. simpl. rewrite app_nil_r. split; [lia | auto].
      * exists 1%nat. simpl. split; [lia | auto].
Qed.

Lemma taken_run (es : list OutputEvent) :
  forall o : Output,
    Forall noStop es ->
    exists k,
      (k <= List.length (audioQueue o ++ pushed es))%nat
      /\ started (outputRun es o)
         = started o ++ filter hasSamples (firstn k (audioQueue o ++ pushed es))
      /\ audioQueue (outputRun es o) = skipn k (audioQueue o ++ pushed es).
Proof.
  induction es as [|e es IH]; intros o Hes.
  - exists 0%nat. simpl. rewrite !app_nil_r. split; [lia | auto].
  - inversion Hes as [|? ? He Hrest]; subst.
    change (outputRun (e :: es) o) with (outputRun es (outputStep o e)).
    destruct (@taken_step o e He) as (k1 & L1 & S1 & Q1).
    destruct (IH (outputStep o e) Hrest) as (k2 & L2 & S2 & Q2).
    change (e :: es) with ([e] ++ es). rewrite pushed_app, app_assoc.
    set (A := audioQueue o ++ pushed [e]) in *.
    rewrite Q1 in L2, S2, Q2.
    exists (k1 + k2)%nat.
    assert (Hskip : skipn k1 (A ++ pushed es) = skipn k1 A ++ pushed es).
    { rewrite skipn_app. replace (k1 - List.length A)%nat with 0%nat by lia. reflexivity. }
    assert (Hfirst : firstn (k1 + k2) (A ++ pushed es)
                     = firstn k1 A ++ firstn k2 (skipn k1 A ++ pushed es)).
    { rewrite <- Hskip.
      rewrite <- (firstn_skipn k1 (A ++ pushed es)) at 1.
      rewrite firstn_app.
      rewrite length_firstn.
      replace (Nat.min k1 (List.length (A ++ pushed es))) with k1
        by (rewrite length_app; lia).
      replace (k1 + k2 - k1)%nat with k2 by lia.
      rewrite firstn_all2 by (rewrite length_firstn, length_app; lia).
      rewrite firstn_app.
      replace (k1 - List.length A)%nat with 0%nat by lia.
      simpl. now rewrite app_nil_r. }
    split; [|split].
    + rewrite length_app in *. rewrite length_skipn in L2. lia.
    + rewrite S2, S1, Hfirst, filter_app, app_assoc. reflexivity.
    + rewrite Q2, <- Hskip, skipn_skipn. f_equal. lia.
Qed.

(** Each [stopAudio] followed by a [playAudio] of a chunk with samples
    starts that chunk at once, and ends no source. *)
Lemma stop_and_play (chunks : list (list Z)) :
  forall o : Output,
    Forall (fun c => c <> []) chunks ->
    let o' := outputRun (flat_map (fun c => [StopAudio; PlayAudio c]) chunks) o in
    started o' = started o ++ map int16ToFloat32 chunks
    /\ sounding o' = (sounding o + List.length chunks)%nat
    /\ (chunks <> [] -> isPlaying o' = true /\ audioQueue o' = []).
Proof.
  induction chunks as [|c chunks IH]; intros o Hc.
  - cbv zeta. simpl. rewrite app_nil_r. split; [reflexivity|]. split; [lia | congruence].
  - inversion Hc as [|? ? Hne Hrest]; subst.
    simpl flat_map.
    change (outputRun (StopAudio :: PlayAudio c :: flat_map (fun c => [StopAudio; PlayAudio c]) chunks) o)
      with (outputRun (flat_map (fun c => [StopAudio; PlayAudio c]) chunks)
                      (playAudio c (stopAudio o))).
    destruct (IH (playAudio c (stopAudio o)) Hrest) as (A & B & C).
    assert (E : playAudio c (stopAudio o)
                = {| audioQueue := []; isPlaying := true;
                     started := started o ++ [int16ToFloat32 c];
                     sounding := S (sounding o) |}).
    { destruct c as [|x c]; [congruence|]. reflexivity. }
    cbv zeta. rewrite A, B. rewrite E in *. simpl.
    split; [now rewrite <- app_assoc|]. split; [lia|].
    intros _. destruct chunks as [|c' chunks]; [simpl; auto|].
    apply C. discriminate.
Qed.

(** X13. The playback queue over any sequence of [playAudio] calls and
    ended sources on a new object (no [stopAudio]).  The buffers started
    are, in arrival order, buffers that came before the first empty one;
    at most one source sounds, and only while [isPlaying] is set.  While
    no empty buffer has arrived the queue is first in, first out: started
    buffers followed by queued buffers are the decoded inputs in arrival
    order, a source sounds exactly while [isPlaying] is set, nothing is
    queued while nothing plays, and after more ended sources than queued
    buffers every buffer has been started once, in order, and the object
    is at rest.  Once an empty buffer has arrived, [isPlaying] stays set:
    when the sources have ended, exactly the buffers before the empty one
    have been started, no source sounds, and whatever is handed to
    [playAudio] from then on is queued and never started. *)
Theorem playback_first_in_first_out (es : list OutputEvent) :
  Forall noStop es ->
  let o := outputRun es newOutput in
  (exists rest, untilEmpty (pushed es) = started o ++ rest)
  /\ (sounding o <= 1)%nat
  /\ (sounding o = 1%nat -> isPlaying o = true)
  /\ (afterEmpty (pushed es) = None ->
      started o ++ audioQueue o = pushed es
      /\ (isPlaying o = true <-> sounding o = 1%nat)
      /\ (isPlaying o = false -> audioQueue o = [])
      /\ (forall n, (List.length (audioQueue o) < n)%nat ->
                    let o' := outputRun (repeat Ended n) o in
                    started o' = pushed es /\ audioQueue o' = []
                    /\ isPlaying o' = false /\ sounding o' = 0%nat))
  /\ (forall after,
         afterEmpty (pushed es) = Some after ->
         isPlaying o = true
         /\ (forall n, (List.length (audioQueue o) < n)%nat ->
                       let o' := outputRun (repeat Ended n) o in
                       started o' = untilEmpty (pushed es) /\ audioQueue o' = after
                       /\ isPlaying o' = true /\ sounding o' = 0%nat
                       /\ (forall fs,
                              Forall noStop fs ->
                              started (outputRun fs o') = untilEmpty (pushed es)
                              /\ isPlaying (outputRun fs o') = true
                              /\ audioQueue (outputRun fs o') = after ++ pushed fs))).
Proof.
  intros Hes o.
  pose proof (@tracks_run es [] newOutput Hes tracks_new) as H.
  simpl in H. fold o in H.
  assert (T := H). unfold tracks in T.
  destruct (afterEmpty (pushed es)) as [after|] eqn:A.
  - destruct T as [Hp T].
    split; [|split; [|split; [|split]]].
    + destruct T as [(Hk & waiting & Hq & Hs)|(Hk & Hs & Hq)].
      * exists waiting. now symmetry.
      * exists []. now rewrite app_nil_r.
    + destruct T as [(Hk & _)|(Hk & _)]; lia.
    + intros _. exact Hp.
    + discriminate.
    + intros after' E. inversion E; subst after'. split; [exact Hp|].
      intros n Hn.
      destruct (@drain_to_the_stall n (pushed es) after o A H ltac:(lia)) as (D1 & D2 & D3 & D4).
      cbv zeta. split; [exact D3|]. split; [exact D4|]. split; [exact D1|].
      split; [exact D2|].
      intros fs Hfs.
      destruct (@stalled_stays fs _ Hfs D1 D2) as (S1 & S2 & S3 & S4).
      rewrite S3, D3, S4, D4. auto.
  - destruct T as [[Hk Hq] Hs].
    destruct (untilEmpty_all (pushed es) A) as [U _].
    split; [|split; [|split; [|split]]].
    + exists (audioQueue o). now rewrite U.
    + rewrite Hk. destruct (isPlaying o); lia.
    + rewrite Hk. destruct (isPlaying o); [reflexivity | discriminate].
    + intros _. split; [exact Hs|]. split; [|split].
      * rewrite Hk. destruct (isPlaying o); split; intros E; try reflexivity; discriminate.
      * exact Hq.
      * intros n Hn. apply (@drain n (pushed es) o A H).
        destruct (isPlaying o); lia.
    + discriminate.
Qed.

Lemma playback_first_in_first_out_witness :
  let es := [PlayAudio [1; 2]%Z; PlayAudio []; PlayAudio [3]%Z; Ended; PlayAudio [4; 5]%Z] in
  let o := outputRun es newOutput in
  (exists rest, untilEmpty (pushed es) = started o ++ rest)
  /\ (sounding o <= 1)%nat
  /\ isPlaying (outputRun (repeat Ended 4) o) = true
  /\ started (outputRun (repeat Ended 4) o) = [int16ToFloat32 [1; 2]%Z].
Proof.
  intros es o.
  destruct (@playback_first_in_first_out es ltac:(repeat constructor))
    as (H1 & H2 & _ & _ & H5).
  split; [exact H1|]. split; [exact H2|].
  destruct (H5 [int16ToFloat32 [3]%Z; int16ToFloat32 [4; 5]%Z] eq_refl) as [_ H6].
  destruct (H6 4%nat ltac:(simpl; lia)) as (S1 & _ & S3 & _).
  split; [exact S3 | exact S1].
Defined.

(** X14. [stopAudio] empties the queue and clears [isPlaying], and that is
    all.  None of the buffers that were queued is ever started afterwards:
    what starts after it is taken, in order, from the buffers handed over
    later.  The sources that sound are not stopped, and each [stopAudio]
    followed by a [playAudio] of a chunk with samples starts that chunk
    at once, on top of whatever still sounds; so stopping a queue that
    plays and playing one more chunk leaves two sources sounding, which
    never happens without [stopAudio]. *)
Theorem stopAudio_drops_queue_keeps_source
        (o : Output) (es : list OutputEvent) (chunks : list (list Z)) :
  Forall noStop es ->
  Forall (fun c => c <> []) chunks ->
  (exists k,
      (k <= List.length (pushed es))%nat
      /\ started (outputRun es (stopAudio o))
         = started o ++ filter hasSamples (firstn k (pushed es))
      /\ audioQueue (outputRun es (stopAudio o)) = skipn k (pushed es))
  /\ sounding (stopAudio o) = sounding o
  /\ (let o' := outputRun (flat_map (fun c => [StopAudio; PlayAudio c]) chunks) o in
      started o' = started o ++ map int16ToFloat32 chunks
      /\ sounding o' = (sounding o + List.length chunks)%nat)
  /\ (forall (before : list OutputEvent) (c : list Z),
         Forall noStop before ->
         afterEmpty (pushed before) = None ->
         isPlaying (outputRun before newOutput) = true ->
         c <> [] ->
         sounding (outputRun (before ++ [StopAudio; PlayAudio c]) newOutput) = 2%nat).
Proof.
  intros Hes Hc. split; [|split; [reflexivity|split]].
  - destruct (@taken_run es (stopAudio o) Hes) as (k & L & S & Q).
    exists k. auto.
  - destruct (@stop_and_play chunks o Hc) as (A & B & _). auto.
  - intros before c Hb A P Hne.
    pose proof (@tracks_run before [] newOutput Hb tracks_new) as T.
    unfold tracks in T. simpl in T. rewrite A in T. destruct T as [[Hk _] _].
    rewrite P in Hk.
    unfold outputRun in *. rewrite fold_left_app.
    set (o1 := fold_left outputStep before newOutput) in *.
    change (sounding (playAudio c (stopAudio o1)) = 2%nat).
    destruct c as [|x c]; [congruence|]. simpl. now rewrite Hk.
Qed.

Lemma stopAudio_drops_queue_keeps_source_witness :
  let o := outputRun [PlayAudio [1]%Z; PlayAudio [2]%Z; PlayAudio [3]%Z] newOutput in
  let es := [PlayAudio [4]%Z; Ended; Ended] in
  (exists k,
      started (outputRun es (stopAudio o))
      = started o ++ filter hasSamples (firstn k (pushed es)))
  /\ sounding (outputRun [StopAudio; PlayAudio [5]%Z; StopAudio; PlayAudio [6]%Z] o) = 3%nat
  /\ sounding (outputRun [PlayAudio [1]%Z; StopAudio; PlayAudio [7]%Z] newOutput) = 2%nat.
Proof.
  intros o es.
  destruct (@stopAudio_drops_queue_keeps_source o es [[5]; [6]]%Z
              ltac:(repeat constructor)
              ltac:(repeat constructor; discriminate))
    as ((k & _ & S & _) & _ & (_ & B) & C).
  split; [exists k; exact S|]. split; [exact B|].
  apply (C [PlayAudio [1]%Z] [7]%Z); [repeat constructor | reflexivity | reflexivity | discriminate].
Defined.

End OutputCoverage.

(* ===================================================================== *)
(** ** Decoding and encoding again *)
(* ===================================================================== *)

Section PcmCoverage.

Import JsNumber AudioProcessor DeepgramRealtime AudioProcessorObject.

Local Open Scope Z_scope.

Lemma wrap16_small (z : Z) : -32768 <= z <= 32767 -> wrap16 z = z.
Proof. intros H. unfold wrap16. rewrite Z.mod_small by lia. lia. Qed.

Lemma decoded_bounds (x : Z) :
  -32768 <= x <= 32767 ->
  (-1 <= inject_Z x / 32768)%Q /\ (inject_Z x / 32768 < 1)%Q.
Proof.
  intros H. unfold Qle, Qlt, Qdiv, Qmult, Qinv, inject_Z. simpl. lia.
Qed.

Lemma encode_decoded (x : Z) :
  -32768 <= x <= 32767 -> encodeSample (Fin (inject_Z x / 32768)) = roundTrip x.
Proof.
  intros H. destruct (decoded_bounds H) as [Hlo Hhi].
  set (q := (inject_Z x / 32768)%Q) in *.
  assert (Hnum : Qnum q = x * 1) by reflexivity.
  assert (Hden : Qden q = 32768%positive) by reflexivity.
  unfold encodeSample. simpl Math_min.
  rewrite (proj2 (Qltb_true_iff q 1) Hhi). simpl Math_max.
  unfold roundTrip.
  destruct (Qltb (-1) q) eqn:E1.
  - simpl ltb. destruct (Qltb q 0) eqn:E0; simpl scale; simpl ToInt16.
    + apply Qltb_true_iff in E0.
      assert (Hneg : x < 0) by (revert E0; unfold Qlt; rewrite Hnum, Hden; simpl; lia).
      change (q * 32768)%Q with (q * inject_Z 32768)%Q.
      rewrite truncate_scaled, Hnum, Hden.
      replace (x * 1 * 32768) with (x * 32768) by lia.
      rewrite Z.quot_mul by lia.
      rewrite wrap16_small by lia.
      destruct (x <=? 0) eqn:L; [reflexivity | apply Z.leb_gt in L; lia].
    + apply Qltb_false_iff in E0.
      assert (Hpos : 0 <= x) by (revert E0; unfold Qle; rewrite Hnum, Hden; simpl; lia).
      change (q * 32767)%Q with (q * inject_Z 32767)%Q.
      rewrite truncate_scaled, Hnum, Hden.
      rewrite Z.quot_div_nonneg by lia.
      destruct (x <=? 0) eqn:L.
      * apply Z.leb_le in L. assert (x = 0) by lia. subst x. reflexivity.
      * apply Z.leb_gt in L.
        assert (Ediv : x * 1 * 32767 / 32768 = x - 1).
        { symmetry. apply (Z.div_unique _ _ _ (32768 - x)); lia. }
        rewrite Ediv. apply wrap16_small. lia.
  - apply Qltb_false_iff in E1.
    assert (x = -32768) by (revert E1; unfold Qle; rewrite Hnum, Hden; simpl; lia).
    subst x. reflexivity.
Qed.

(** X15. Decoding PCM16 to Float32 and encoding it again is not the
    identity: every decoded sample lies in [-1, 1), and the encoder gives a
    sample that is zero or negative back unchanged, but every positive
    sample one step lower (the decoder divides by 32768, the encoder
    multiplies what is not negative by 32767 and truncates). *)
Theorem pcm16_round_trip_loses_one (int16Array : list Z) :
  Forall (fun x => -32768 <= x <= 32767) int16Array ->
  float32ToPCM16 (int16ToFloat32 int16Array) = map roundTrip int16Array
  /\ Forall (fun y => exists q, y = Fin q /\ (-1 <= q)%Q /\ (q < 1)%Q)
            (int16ToFloat32 int16Array)
  /\ (float32ToPCM16 (int16ToFloat32 int16Array) = int16Array
      <-> Forall (fun x => x <= 0) int16Array).
Proof.
  intros Hall.
  assert (E : float32ToPCM16 (int16ToFloat32 int16Array) = map roundTrip int16Array).
  { unfold float32ToPCM16, int16ToFloat32. rewrite map_map.
    apply map_ext_in. intros x Hx. apply encode_decoded.
    rewrite Forall_forall in Hall. now apply Hall. }
  split; [exact E|]. split.
  - unfold int16ToFloat32. apply Forall_map.
    eapply Forall_impl; [|exact Hall]. simpl. intros x Hx.
    eexists. split; [reflexivity|]. now apply decoded_bounds.
  - rewrite E. clear E Hall. induction int16Array as [|x rest IH]; simpl.
    + split; auto.
    + split.
      * intros H. injection H as Hx Hrest. constructor.
        -- unfold roundTrip in Hx. destruct (x <=? 0) eqn:L; [now apply Z.leb_le | lia].
        -- apply IH. exact Hrest.
      * intros H. inversion H as [|? ? Hx Hrest]; subst. f_equal.
        -- unfold roundTrip. apply Z.leb_le in Hx. now rewrite Hx.
        -- now apply IH.
Qed.

Lemma pcm16_round_trip_loses_one_witness :
  float32ToPCM16 (int16ToFloat32 [-32768; -1; 0; 1; 32767])
  = map roundTrip [-32768; -1; 0; 1; 32767].
Proof.
  apply (@pcm16_round_trip_loses_one [-32768; -1; 0; 1; 32767]).
  repeat constructor; lia.
Defined.

End PcmCoverage.

Section EncoderCoverage.

Import JsNumber DeepgramRealtime.

Local Open Scope Z_scope.

Lemma truncate_nonneg (q : Q) : (0 <= q)%Q -> truncate q = Qfloor q.
Proof.
  destruct q as [n d]. unfold Qle, truncate. simpl. intros H.
  apply Z.quot_div_nonneg; lia.
Qed.

Lemma truncate_nonpos (q : Q) : (q <= 0)%Q -> truncate q = Qceiling q.
Proof.
  destruct q as [n d]. unfold Qle, truncate, Qceiling. simpl. intros H.
  replace n with (- - n) at 1 by lia.
  rewrite Z.quot_opp_l by lia. rewrite Z.quot_div_nonneg by lia. reflexivity.
Qed.

Lemma truncate_monotone (a b : Q) : (a <= b)%Q -> truncate a <= truncate b.
Proof.
  intros Hab.
  destruct (Qlt_le_dec a 0) as [Ha|Ha]; destruct (Qlt_le_dec b 0) as [Hb|Hb].
  - rewrite !truncate_nonpos by (now apply Qlt_le_weak). now apply Qceiling_resp_le.
  - rewrite (truncate_nonpos (Qlt_le_weak _ _ Ha)), (truncate_nonneg Hb).
    transitivity 0.
    + change 0 with (Qceiling 0). apply Qceiling_resp_le. now apply Qlt_le_weak.
    + change 0 with (Qfloor 0). now apply Qfloor_resp_le.
  - exfalso. apply (Qlt_irrefl 0).
    eapply Qle_lt_trans; [exact Ha|]. eapply Qle_lt_trans; [exact Hab | exact Hb].
  - rewrite !truncate_nonneg by assumption. now apply Qfloor_resp_le.
Qed.

Lemma truncate_integer (z : Z) : truncate (inject_Z z) = z.
Proof. unfold truncate. simpl. apply Z.quot_1_r. Qed.

(** Inside the interval the encoder is a scaling followed by a truncation
    toward zero. *)
Lemma encodeSample_inside (q : Q) :
  (-1 < q)%Q -> (q < 1)%Q ->
  encodeSample (Fin q) = truncate (if Qltb q 0 then q * 32768 else q * 32767)%Q.
Proof.
  intros Hlo Hhi. unfold encodeSample. simpl Math_min.
  rewrite (proj2 (Qltb_true_iff q 1) Hhi). simpl Math_max.
  rewrite (proj2 (Qltb_true_iff (-1) q) Hlo). simpl ltb.
  assert (B : forall c : Z, 0 < c <= 32768 ->
                -32768 <= truncate (q * inject_Z c) <= 32767 \/ truncate (q * inject_Z c) = 32768).
  { intros c Hc.
    assert (L : truncate (inject_Z (-32768)) <= truncate (q * inject_Z c)).
    { apply truncate_monotone. revert Hlo. unfold Qlt, Qle. simpl. nia. }
    assert (U : truncate (q * inject_Z c) <= truncate (inject_Z 32768)).
    { apply truncate_monotone. revert Hhi. unfold Qlt, Qle. simpl. nia. }
    rewrite truncate_integer in L, U. lia. }
  destruct (Qltb q 0) eqn:E0; simpl scale; simpl ToInt16.
  - apply wrap16_small.
    apply Qltb_true_iff in E0.
    assert (U : truncate (q * 32768) <= truncate 0).
    { apply truncate_monotone. revert E0. unfold Qlt, Qle. simpl. nia. }
    change (truncate 0) with 0 in U.
    destruct (B 32768 ltac:(lia)) as [H|H]; [exact H|].
    change (inject_Z 32768) with (32768%Q) in H. lia.
  - apply wrap16_small.
    assert (U : truncate (q * 32767) <= truncate (inject_Z 32767)).
    { apply truncate_monotone. revert Hhi. unfold Qlt, Qle. simpl. nia. }
    rewrite truncate_integer in U.
    destruct (B 32767 ltac:(lia)) as [H|H].
    + exact H.
    + change (inject_Z 32767) with (32767%Q) in H. lia.
Qed.

Lemma encodeSample_monotone_finite (a b : Q) :
  (a <= b)%Q -> encodeSample (Fin a) <= encodeSample (Fin b).
Proof.
  intros Hab.
  destruct (Qlt_le_dec (-1) a) as [Ha|Ha].
  2:{ rewrite (encodeSample_low (Fin a)) by exact Ha. apply encodeSample_range. }
  destruct (Qlt_le_dec b 1) as [Hb|Hb].
  2:{ rewrite (encodeSample_high (Fin b)) by exact Hb. apply encodeSample_range. }
  assert (Ha1 : (a < 1)%Q) by (eapply Qle_lt_trans; [exact Hab | exact Hb]).
  assert (Hb1 : (-1 < b)%Q) by (eapply Qlt_le_trans; [exact Ha | exact Hab]).
  rewrite (encodeSample_inside Ha Ha1), (encodeSample_inside Hb1 Hb).
  destruct (Qltb a 0) eqn:Ea; destruct (Qltb b 0) eqn:Eb.
  - apply truncate_monotone. apply Qmult_le_compat_r; [exact Hab | discriminate].
  - apply Qltb_true_iff in Ea. apply Qltb_false_iff in Eb.
    transitivity (truncate 0).
    + apply truncate_monotone. revert Ea. unfold Qlt, Qle. simpl. nia.
    + apply truncate_monotone. revert Eb. unfold Qle. simpl. nia.
  - apply Qltb_false_iff in Ea. apply Qltb_true_iff in Eb.
    exfalso. apply (Qlt_irrefl 0).
    eapply Qle_lt_trans; [exact Ea|]. eapply Qle_lt_trans; [exact Hab | exact Eb].
  - apply truncate_monotone. apply Qmult_le_compat_r; [exact Hab | discriminate].
Qed.

(** X16. The encoder keeps the order of samples and never wraps around:
    of two samples (infinities included) the larger never gets the smaller
    code; NaN is encoded as 0; a sample that is not negative never gets a
    negative code nor a negative sample a positive one; and a sample
    closer to zero than one step (above -1/32768 and below 1/32767) is
    encoded as 0. *)
Theorem encodeSample_order (x y : number) (q : Q) :
  (le x y -> encodeSample x <= encodeSample y)
  /\ encodeSample NaN = 0
  /\ ((0 <= q)%Q -> 0 <= encodeSample (Fin q))
  /\ ((q <= 0)%Q -> encodeSample (Fin q) <= 0)
  /\ ((-1 # 32768 < q)%Q -> (q < 1 # 32767)%Q -> encodeSample (Fin q) = 0).
Proof.
  split; [|split; [reflexivity|split; [|split]]].
  - destruct x as [a| | |], y as [b| | |]; intros H; simpl in H; try contradiction;
      try (now apply encodeSample_monotone_finite); try apply Z.le_refl;
      try (rewrite (encodeSample_high PosInf) by exact I; apply encodeSample_range);
      rewrite (encodeSample_low NegInf) by exact I; apply encodeSample_range.
  - intros H. change 0 with (encodeSample (Fin 0)). now apply encodeSample_monotone_finite.
  - intros H. change 0 with (encodeSample (Fin 0)). now apply encodeSample_monotone_finite.
  - intros Hlo Hhi.
    assert (H1 : (-1 < q)%Q) by (revert Hlo; unfold Qlt; simpl; lia).
    assert (H2 : (q < 1)%Q) by (revert Hhi; unfold Qlt; simpl; lia).
    rewrite (encodeSample_inside H1 H2).
    destruct (Qltb q 0) eqn:E0.
    + apply Qltb_true_iff in E0.
      rewrite truncate_nonpos by (revert E0; unfold Qlt, Qle; simpl; nia).
      unfold Qceiling, Qfloor. destruct q as [n d]. simpl.
      revert Hlo E0. unfold Qlt. simpl. intros Hlo E0.
      assert (E : - (n * 32768) / Z.pos (d * 1) = 0); [|lia].
      apply Z.div_small. lia.
    + apply Qltb_false_iff in E0.
      rewrite truncate_nonneg by (revert E0; unfold Qle; simpl; nia).
      unfold Qfloor. destruct q as [n d]. simpl.
      revert Hhi E0. unfold Qlt, Qle. simpl. intros Hhi E0.
      apply Z.div_small. lia.
Qed.

Lemma encodeSample_order_witness :
  encodeSample (Fin (-1 # 4)) <= encodeSample (Fin (1 # 3))
  /\ 0 <= encodeSample (Fin (1 # 3))
  /\ encodeSample (Fin (-1 # 4)) <= 0
  /\ encodeSample (Fin (1 # 40000)) = 0.
Proof.
  split; [|split; [|split]].
  - apply (proj1 (encodeSample_order (Fin (-1 # 4)) (Fin (1 # 3)) 0)).
    simpl. unfold Qle; simpl; lia.
  - apply (proj1 (proj2 (proj2 (encodeSample_order NaN NaN (1 # 3))))).
    unfold Qle; simpl; lia.
  - apply (proj1 (proj2 (proj2 (proj2 (encodeSample_order NaN NaN (-1 # 4)))))).
    unfold Qle; simpl; lia.
  - apply (proj2 (proj2 (proj2 (proj2 (encodeSample_order NaN NaN (1 # 40000)))))).
    + unfold Qlt; simpl; lia.
    + unfold Qlt; simpl; lia.
Defined.

End EncoderCoverage.

(* ===================================================================== *)
(** ** What the recognition client delivers *)
(* ===================================================================== *)

Section RecognitionCoverage.

Import Js JsString WebSpeechSTT RecognitionSpec.

Lemma trimStart_split (s : jsstring) :
  exists pre, s = pre ++ trimStart s /\ blank pre = true.
Proof.
  induction s as [|c r IH]; simpl.
  - exists []. split; reflexivity.
  - destruct (isWhiteSpace c) eqn:E.
    + destruct IH as (pre & E1 & E2). exists (c :: pre). split.
      * simpl. now rewrite <- E1.
      * simpl. now rewrite E, E2.
    + exists []. split; reflexivity.
Qed.

Lemma trimStart_head (s : jsstring) (c : code_unit) (r : jsstring) :
  trimStart s = c :: r -> isWhiteSpace c = false.
Proof.
  induction s as [|d t IH]; simpl; [discriminate|].
  destruct (isWhiteSpace d) eqn:E; [exact IH|].
  intros H. inversion H; subst. exact E.
Qed.

Lemma trimStart_blank (s : jsstring) : trimStart s = [] <-> blank s = true.
Proof.
  induction s as [|c r IH]; simpl; [tauto|].
  destruct (isWhiteSpace c); simpl; [exact IH|]. split; discriminate.
Qed.

(** A character that is not white space stops [trimStart]. *)
Lemma trimStart_keeps (l : jsstring) (c : code_unit) (r : jsstring) :
  isWhiteSpace c = false -> exists l', trimStart (l ++ c :: r) = l' ++ c :: r.
Proof.
  intros Hc. induction l as [|d l IH]; simpl.
  - rewrite Hc. exists []. reflexivity.
  - destruct (isWhiteSpace d); [exact IH|]. exists (d :: l). reflexivity.
Qed.

Lemma blank_rev (s : jsstring) : blank (rev s) = blank s.
Proof.
  unfold blank. induction s as [|c r IH]; simpl; [reflexivity|].
  rewrite forallb_app, IH. simpl. rewrite andb_true_r. apply andb_comm.
Qed.

Lemma blank_app (a b : jsstring) : blank (a ++ b) = blank a && blank b.
Proof. apply forallb_app. Qed.

Lemma trimEnd_split (s : jsstring) :
  exists post, s = trimEnd s ++ post /\ blank post = true.
Proof.
  unfold trimEnd. destruct (trimStart_split (rev s)) as (pre & E1 & E2).
  exists (rev pre). split.
  - rewrite <- rev_app_distr, <- E1. now rewrite rev_involutive.
  - now rewrite blank_rev.
Qed.

(** [trim] cuts a blank prefix and a blank suffix, and what it leaves
    neither starts nor ends with white space. *)
Lemma trim_spec (s : jsstring) :
  (exists pre post, s = pre ++ trim s ++ post /\ blank pre = true /\ blank post = true)
  /\ (forall c r, trim s = c :: r ->
                  isWhiteSpace c = false /\ isWhiteSpace (last r c) = false)
  /\ (trim s = [] <-> blank s = true).
Proof.
  unfold trim.
  destruct (trimStart_split s) as (pre & E1 & B1).
  destruct (trimEnd_split (trimStart s)) as (post & E2 & B2).
  split; [|split].
  - exists pre, post. rewrite <- E2. auto.
  - intros c r H. unfold trimEnd in H.
    assert (Hlast : isWhiteSpace (last r c) = false).
    { destruct (trimStart (rev (trimStart s))) as [|d t] eqn:E; [discriminate|].
      apply trimStart_head in E. simpl in H.
      assert (L : last (c :: r) c = d) by (rewrite <- H; apply last_last).
      destruct r as [|x r]; simpl in L |- *; [now subst d|].
      now rewrite L. }
    split; [|exact Hlast].
    destruct (trimStart s) as [|c0 r0] eqn:E0; [discriminate|].
    pose proof (trimStart_head _ E0) as Hc0.
    simpl rev in H.
    destruct (@trimStart_keeps (rev r0) c0 [] Hc0) as (l' & El). rewrite El in H.
    rewrite rev_app_distr in H. simpl in H. inversion H; subst. exact Hc0.
  - split.
    + intros H.
      assert (B : blank (trimStart s) = true) by (rewrite E2, H; exact B2).
      rewrite E1, blank_app, B1. exact B.
    + intros H. apply trimStart_blank in H. rewrite H. reflexivity.
Qed.

Lemma collect_spoken (rs : list SpeechRecognitionResult) :
  forall collected,
    (Forall (fun r => best r <> None) rs ->
     collect rs collected = Normal (collected ++ spoken rs))
    /\ (Exists (fun r => best r = None) rs -> exists e, collect rs collected = Throw e).
Proof.
  induction rs as [|r rest IH]; intros collected; simpl.
  - split; [intros _; now rewrite app_nil_r | intros H; inversion H].
  - unfold best in *. destruct (alternatives r) as [|alt alts] eqn:E.
    + split.
      * intros H. inversion H as [|? ? Hr _]; subst. rewrite E in Hr. congruence.
      * intros _. eexists. reflexivity.
    + split.
      * intros H. inversion H as [|? ? _ Hrest]; subst.
        rewrite (proj1 (IH _) Hrest). unfold spoken, best. simpl.
        now rewrite <- !app_assoc.
      * intros H. inversion H as [? ? Hr|? ? Hrest]; subst;
          [rewrite E in Hr; discriminate|].
        now apply (proj2 (IH _)).
Qed.

Lemma spoken_blank (rs : list SpeechRecognitionResult) :
  blank (spoken rs) = true
  <-> Forall (fun r => forall t, best r = Some t -> blank t = true) rs.
Proof.
  unfold spoken. induction rs as [|r rest IH]; simpl.
  - split; [constructor | reflexivity].
  - rewrite blank_app, andb_true_iff, IH. split.
    + intros [H1 H2]. constructor; [|exact H2].
      intros t Et. rewrite Et in H1. rewrite blank_app in H1.
      now apply andb_true_iff in H1.
    + intros H. inversion H as [|? ? Hr Hrest]; subst. split; [|exact Hrest].
      destruct (best r) as [t|]; [|reflexivity].
      rewrite blank_app, (Hr t eq_refl). reflexivity.
Qed.

(** X17. What [onresult] delivers, exactly: it reads the results from
    [resultIndex] on and of each only the best alternative.  If one of
    them has no alternative it throws and delivers nothing.  Otherwise it
    makes no call when every best transcript is blank, and else exactly one
    call, final, with the transcripts joined by spaces and trimmed: the
    text is what is left of the joined transcripts after a blank prefix and
    a blank suffix are cut, and it neither starts nor ends with white
    space. *)
Theorem onresult_delivers_trimmed_text (event : SpeechRecognitionEvent) :
  (Exists (fun r => best r = None) (heard event) -> exists e, onresult event = Throw e)
  /\ (Forall (fun r => best r <> None) (heard event) ->
      (Forall (fun r => forall t, best r = Some t -> blank t = true) (heard event) ->
       onresult event = Normal [])
      /\ (~ Forall (fun r => forall t, best r = Some t -> blank t = true) (heard event) ->
          exists text c r pre post,
            onresult event = Normal [(text, true)]
            /\ text = c :: r
            /\ isWhiteSpace c = false /\ isWhiteSpace (last r c) = false
            /\ spoken (heard event) = pre ++ text ++ post
            /\ blank pre = true /\ blank post = true)).
Proof.
  unfold onresult. fold (heard event).
  destruct (collect_spoken (heard event) []) as [Hok Hthrow]. split.
  - intros H. destruct (Hthrow H) as (e & E). rewrite E. now exists e.
  - intros H. rewrite (Hok H). simpl.
    destruct (trim_spec (spoken (heard event))) as ((pre & post & E & B1 & B2) & Hends & Hblank).
    split.
    + intros Hall. apply spoken_blank in Hall. apply Hblank in Hall.
      now rewrite Hall.
    + intros Hnot.
      destruct (trim (spoken (heard event))) as [|c r] eqn:T.
      * exfalso. apply Hnot. apply spoken_blank. now apply Hblank.
      * destruct (Hends c r eq_refl) as [H1 H2].
        exists (c :: r), c, r, pre, post. simpl. auto 10.
Qed.

Lemma onresult_delivers_trimmed_text_witness :
  exists text c r pre post,
    onresult Spec.sampleEvent = Normal [(text, true)]
    /\ text = c :: r
    /\ isWhiteSpace c = false /\ isWhiteSpace (last r c) = false
    /\ spoken (heard Spec.sampleEvent) = pre ++ text ++ post
    /\ blank pre = true /\ blank post = true.
Proof.
  apply (proj2 (onresult_delivers_trimmed_text Spec.sampleEvent)).
  - repeat constructor; discriminate.
  - intros H. inversion H as [|? ? H1 _]. specialize (H1 _ eq_refl). discriminate H1.
Defined.

End RecognitionCoverage.

(* ===================================================================== *)
(** ** Turns, conversations and frames *)
(* ===================================================================== *)

Section ConversationCoverage.

Import Js JsString VoiceInterface Spec ConversationSpec.

Lemma turn_log (w : World) (userText : jsstring) (s : Store) :
  leavesLogAlone w ->
  exists o restart,
    actions (turnTrace w userText s) = turnActions userText o restart
    /\ transcripts (turnStore w userText s)
       = transcripts s ++ [assistantEntry (loggedText o)].
Proof.
  intros [Hg Hs]. unfold turnTrace, turnStore. cbn.
  pose proof (Hg userText (setIsGeneratingIn true s)) as G.
  destruct (generateReplyW w userText (setIsGeneratingIn true s)) as [[reply|e] s1];
    cbn in G |- *.
  - destruct (ttsClientRef s1); cbn.
    + match goal with
      | |- context [synthesizeAndPlayW ?w' ?a ?b ?c] =>
        pose proof (Hs a b c) as S;
          destruct (synthesizeAndPlayW w' a b c) as [[[]|e'] s2]
      end; cbn in S |- *.
      * exists (ReplySpoken reply
                  {| voiceName := voiceName_for (TextGeneration.detectLanguage reply);
                     outputFormat := mp3Format |} (Normal tt)).
        destruct (clientRef s2); cbn;
          [exists true | exists false]; (split; [reflexivity|]);
            rewrite S, G; reflexivity.
      * exists (ReplySpoken reply
                  {| voiceName := voiceName_for (TextGeneration.detectLanguage reply);
                     outputFormat := mp3Format |} (Throw e')).
        destruct (clientRef s2); cbn;
          [exists true | exists false]; (split; [reflexivity|]);
            unfold slice_0_m1; rewrite S, removelast_last, G; reflexivity.
    + exists (ReplyUnspoken reply).
      destruct (clientRef s1); cbn;
        [exists true | exists false]; (split; [reflexivity|]); rewrite G; reflexivity.
  - exists (ReplyFailed e).
    destruct (clientRef s1); cbn;
      [exists true | exists false]; (split; [reflexivity|]);
        rewrite G; destruct e; reflexivity.
Qed.

(** X18. How every turn ends: whatever the world answers and whatever it
    does to the store during the awaits, [generateAndSpeak] fulfils, and it
    leaves the phase idle, [isGenerating] false and the recognition client,
    if there is one, disconnected; and in a world that leaves the log alone
    the turn adds exactly one entry to it, an assistant entry: the reply,
    the reply followed by " (audio failed)" when the synthesis rejected, or
    the apology with the error's message when the generation rejected. *)
Theorem turn_ends_idle_with_one_entry (w : World) (userText : jsstring) (s : Store) :
  turnResult w userText s = Normal tt
  /\ phase (turnStore w userText s) = idle
  /\ isGenerating (turnStore w userText s) = false
  /\ (forall c, clientRef (turnStore w userText s) = Some c ->
                WebSpeechSTT.isListening c = false
                /\ WebSpeechSTT.hasMediaStream c = false)
  /\ (leavesLogAlone w ->
      exists o restart,
        actions (turnTrace w userText s) = turnActions userText o restart
        /\ transcripts (turnStore w userText s)
           = transcripts s ++ [assistantEntry (loggedText o)]).
Proof.
  split; [|split; [|split; [|split]]]; [| | | |apply turn_log].
  all: unfold turnResult, turnStore.
  all: repeat (cbn;
               match goal with
               | |- context [generateReplyW ?w' ?a ?b] =>
                 destruct (generateReplyW w' a b) as [[?|?] ?]
               | |- context [match ttsClientRef ?x with _ => _ end] =>
                 destruct (ttsClientRef x)
               | |- context [synthesizeAndPlayW ?w' ?a ?b ?c] =>
                 destruct (synthesizeAndPlayW w' a b c) as [[[]|?] ?]
               | |- context [match clientRef ?x with _ => _ end] =>
                 let E := fresh "EC" in destruct (clientRef x) eqn:E
               end).
  all: cbn; try reflexivity.
  all: intros ? H; first [congruence | inversion H; subst; split; reflexivity].
Qed.

Lemma turn_ends_idle_with_one_entry_witness :
  exists o restart,
    actions (turnTrace (quietWorld (js "I hear you.")) (js "hello there") freshStore)
    = turnActions (js "hello there") o restart
    /\ transcripts (turnStore (quietWorld (js "I hear you.")) (js "hello there") freshStore)
       = transcripts freshStore ++ [assistantEntry (loggedText o)].
Proof.
  apply (proj2 (proj2 (proj2 (proj2
          (turn_ends_idle_with_one_entry (quietWorld (js "I hear you."))
                                         (js "hello there") freshStore))))).
  split; intros; reflexivity.
Defined.

Lemma exchanges_app (a b : list (jsstring * jsstring)) :
  exchanges (a ++ b) = exchanges a ++ exchanges b.
Proof.
  induction a as [|[u x] a IH]; simpl; [reflexivity|]. now rewrite IH.
Qed.

Lemma withoutTrailingUser_snoc_assistant (log : list Entry) (t : jsstring) :
  withoutTrailingUser (log ++ [assistantEntry t]) = log ++ [assistantEntry t].
Proof. unfold withoutTrailingUser. rewrite rev_unit. reflexivity. Qed.

Lemma withoutTrailingUser_exchanges (turns : list (jsstring * jsstring)) :
  withoutTrailingUser (exchanges turns) = exchanges turns.
Proof.
  destruct turns as [|[u a] turns] using rev_ind; [reflexivity|].
  rewrite exchanges_app. simpl.
  change [userEntry u; assistantEntry a] with ([userEntry u] ++ [assistantEntry a]).
  rewrite app_assoc. apply withoutTrailingUser_snoc_assistant.
Qed.

Lemma converse_snoc (w : World) (events : list (jsstring * bool)) (e : jsstring * bool) :
  forall s,
    converse w (events ++ [e]) s
    = fst (fst (drive w (handleTranscript (fst e) (snd e)) (converse w events s))).
Proof.
  induction events as [|[t f] events IH]; intros s; simpl.
  - destruct e. reflexivity.
  - apply IH.
Qed.

Lemma combine_snoc {A B} (xs : list A) (ys : list B) (x : A) (y : B) :
  List.length xs = List.length ys ->
  combine (xs ++ [x]) (ys ++ [y]) = combine xs ys ++ [(x, y)].
Proof.
  revert ys. induction xs as [|a xs IH]; intros [|b ys] H; simpl in *; try discriminate.
  - reflexivity.
  - now rewrite IH by lia.
Qed.

Lemma pendingInterim_cases (events : list (jsstring * bool)) :
  pendingInterim events = [] \/ exists x, pendingInterim events = [x].
Proof.
  unfold pendingInterim. destruct (rev events) as [|[t [|]] r]; eauto.
Qed.

Lemma log_before_upsert (turns : list (jsstring * jsstring)) (pend : list jsstring) :
  pend = [] \/ (exists x, pend = [x]) ->
  withoutTrailingUser (exchanges turns ++ map userEntry pend) = exchanges turns.
Proof.
  intros [E|(x & E)]; subst pend; simpl.
  - rewrite app_nil_r. apply withoutTrailingUser_exchanges.
  - apply withoutTrailingUser_snoc_user.
Qed.

Lemma finals_snoc (events : list (jsstring * bool)) (t : jsstring) (f : bool) :
  finals (events ++ [(t, f)]) = finals events ++ (if f then [t] else []).
Proof.
  unfold finals. rewrite filter_app, map_app. destruct f; reflexivity.
Qed.

Lemma pendingInterim_snoc (events : list (jsstring * bool)) (t : jsstring) (f : bool) :
  pendingInterim (events ++ [(t, f)]) = if f then [] else [t ++ ellipsis].
Proof.
  unfold pendingInterim. rewrite rev_unit. destruct f; reflexivity.
Qed.

Lemma interim_log (w : World) (t : jsstring) (s : Store) :
  transcripts (fst (fst (drive w (handleTranscript t false) s)))
  = withoutTrailingUser (transcripts s) ++ [userEntry (t ++ ellipsis)].
Proof.
  rewrite drive_resumes.
  pose proof (transcripts_after_transcript t false s) as Hsync.
  unfold storeAfter in Hsync.
  pose proof (suspension_of_interim t s) as Hfin.
  unfold suspensionOf in Hfin.
  destruct (runSync (handleTranscript t false) s) as [[s2 tr] susp].
  simpl in Hsync, Hfin. subst susp. exact Hsync.
Qed.

Lemma final_log (w : World) (t : jsstring) (s : Store) :
  leavesLogAlone w ->
  exists o,
    transcripts (fst (fst (drive w (handleTranscript t true) s)))
    = withoutTrailingUser (transcripts s) ++ [userEntry t; assistantEntry (loggedText o)].
Proof.
  intros Hw. destruct (handleTranscript_final_turn w t s) as [_ Hfinal].
  rewrite Hfinal.
  match goal with
  | |- context [turnStore w t ?s0] =>
    destruct (@turn_log w t s0 Hw) as (o & restart & _ & Hturn)
  end.
  exists o. rewrite Hturn. cbn [transcripts setPhaseIn setTranscriptsIn].
  cbn. now rewrite <- app_assoc.
Qed.

(** X19. The log is the conversation: when each transcript event is
    handled to the end of its turn before the next arrives, in a world that
    leaves the log alone, then from an empty log the log consists of one
    exchange per final transcript, in order (a user entry with exactly that
    text followed by one assistant entry), followed by the interim text
    with its ellipsis if the last event was an interim one.  Interim texts
    that were superseded leave no trace. *)
Theorem log_is_the_conversation
        (w : World) (events : list (jsstring * bool)) (s : Store) :
  leavesLogAlone w ->
  transcripts s = [] ->
  exists replies,
    List.length replies = List.length (finals events)
    /\ transcripts (converse w events s)
       = exchanges (combine (finals events) replies)
         ++ map userEntry (pendingInterim events).
Proof.
  intros Hw Hs. induction events as [|[t f] events IH] using rev_ind.
  - exists []. split; [reflexivity | exact Hs].
  - destruct IH as (replies & Hlen & Hlog).
    rewrite converse_snoc, finals_snoc, pendingInterim_snoc. cbn [fst snd].
    set (s1 := converse w events s) in *.
    pose proof (log_before_upsert (combine (finals events) replies)
                                  (pendingInterim_cases events)) as Hcut.
    rewrite <- Hlog in Hcut.
    destruct f.
    + destruct (final_log t s1 Hw) as (o & Hfinal).
      rewrite Hfinal, Hcut.
      exists (replies ++ [loggedText o]). split.
      * rewrite !length_app. simpl. lia.
      * rewrite (@combine_snoc _ _ (finals events) replies t (loggedText o) (eq_sym Hlen)),
          exchanges_app.
        simpl. now rewrite app_nil_r.
    + exists replies. split.
      * rewrite app_nil_r. exact Hlen.
      * rewrite app_nil_r, interim_log, Hcut. reflexivity.
Qed.

Lemma log_is_the_conversation_witness :
  exists replies,
    List.length replies
    = List.length (finals [(js "hel", false); (js "hello there", true); (js "and", false)])
    /\ transcripts (converse (quietWorld (js "I hear you."))
                             [(js "hel", false); (js "hello there", true); (js "and", false)]
                             freshStore)
       = exchanges (combine (finals [(js "hel", false); (js "hello there", true);
                                     (js "and", false)]) replies)
         ++ map userEntry (pendingInterim [(js "hel", false); (js "hello there", true);
                                           (js "and", false)]).
Proof.
  apply log_is_the_conversation.
  - split; intros; reflexivity.
  - reflexivity.
Defined.

End ConversationCoverage.

Section FrameCoverage.

Import VoiceInterface ConversationSpec.

Local Open Scope Q_scope.

Lemma setNumber_cases (new old : Q) : setNumber new old = old \/ setNumber new old = new.
Proof. unfold setNumber. destruct (Qeq_bool new old); auto. Qed.

Lemma dynamic_ranges (a : Q) :
  0 <= a -> a <= 1 ->
  1 <= 1.0 + a * 2.0 /\ 1.0 + a * 2.0 <= 3 /\ 1 <= 1.5 + a * 4.5 /\ 1.5 + a * 4.5 <= 6.
Proof. intros H0 H1. repeat split; Lqa.lra. Qed.

Lemma applyBatch_normalized (batch : list Update) :
  forall st : Phase * Q,
    Forall (fun u => match u with
                     | UpdateAudioIntensity a => 0 <= a /\ a <= 1
                     | UpdatePhase _ => True
                     end) batch ->
    0 <= snd st -> snd st <= 1 ->
    0 <= snd (applyBatch batch st) /\ snd (applyBatch batch st) <= 1.
Proof.
  unfold applyBatch.
  induction batch as [|u batch IH]; intros st Hall H0 H1; simpl; [auto|].
  inversion Hall as [|? ? Hu Hrest]; subst.
  apply IH; [exact Hrest| |].
  - destruct u as [p|a]; simpl; [exact H0|].
    destruct (setNumber_cases a (snd st)) as [E|E]; rewrite E; tauto.
  - destruct u as [p|a]; simpl; [exact H1|].
    destruct (setNumber_cases a (snd st)) as [E|E]; rewrite E; tauto.
Qed.

Lemma render_withinRanges (ph : Phase) (ai : Q) (vw : View) :
  withinRanges vw -> 0 <= ai -> ai <= 1 ->
  frameWithinRanges (render ph ai (visual vw)).
Proof.
  intros [(A0 & A1 & B0 & B1 & C0 & C1 & D0 & D1 & E0 & E1 & F0 & F1) Hprev] H0 H1.
  unfold frameWithinRanges, render, effectiveAudioIntensity, effectiveBrightness,
    effectiveBloom, getPhaseNumber. simpl.
  destruct (frozen ph) eqn:Fz.
  - split; [repeat split; assumption|].
    destruct Hprev as [E|E]; rewrite E; auto.
  - split; [repeat split; assumption|].
    destruct ph; simpl in Fz; try discriminate; auto.
Qed.

Lemma listeningEffect_withinRanges (ph : Phase) (ai : Q) (vw : View) (deps : Phase * Q) :
  withinRanges vw -> 0 <= ai -> ai <= 1 ->
  withinRanges {| viewPhase := ph; audioIntensity := ai;
                  visual := listeningEffect ph ai (visual vw); effectDeps := deps |}.
Proof.
  intros [(A0 & A1 & B0 & B1 & C0 & C1 & D0 & D1 & E0 & E1 & F0 & F1) Hprev] H0 H1.
  destruct (dynamic_ranges H0 H1) as (G0 & G1 & K0 & K1).
  unfold withinRanges, listeningEffect. simpl.
  destruct (Phase_eqb ph listening) eqn:L; simpl.
  - split.
    + destruct (setNumber_cases (1.0 + ai * 2.0) (brightness (visual vw))) as [E|E];
        destruct (setNumber_cases (1.5 + ai * 4.5) (bloom (visual vw))) as [E'|E'];
        rewrite E, E'; repeat split; assumption.
    + right. destruct ph; simpl in L; try discriminate; reflexivity.
  - split; [|exact Hprev].
    destruct (setNumber_cases 1.0 (brightness (visual vw))) as [E|E];
      destruct (setNumber_cases 1.0 (bloom (visual vw))) as [E'|E'];
      rewrite E, E'; repeat split; try assumption; Lqa.lra.
Qed.

Lemma commit_withinRanges (batch : list Update) (vw : View) :
  Forall (fun u => match u with
                   | UpdateAudioIntensity a => 0 <= a /\ a <= 1
                   | UpdatePhase _ => True
                   end) batch ->
  withinRanges vw ->
  withinRanges (fst (commit batch vw))
  /\ Forall frameWithinRanges (snd (commit batch vw)).
Proof.
  intros Hb Hv.
  pose proof Hv as [(A0 & A1 & Hrest) Hprev].
  destruct (@applyBatch_normalized batch (viewPhase vw, audioIntensity vw) Hb A0 A1)
    as [H0 H1].
  unfold commit.
  set (st := applyBatch batch (viewPhase vw, audioIntensity vw)) in *.
  pose proof (@render_withinRanges (fst st) (snd st) vw Hv H0 H1) as Hfirst.
  destruct (depsEqb (fst st, snd st) (effectDeps vw)); simpl.
  - split; [|apply Forall_cons; [exact Hfirst | apply Forall_nil]].
    split; [|exact Hprev]. simpl. tauto.
  - pose proof (@listeningEffect_withinRanges (fst st) (snd st) vw (fst st, snd st)
                                               Hv H0 H1) as Hv'.
    split; [exact Hv'|].
    pose proof (@render_withinRanges (fst st) (snd st) _ Hv' H0 H1) as Hsecond.
    destruct (_ && _).
    + apply Forall_cons; [exact Hfirst | apply Forall_nil].
    + apply Forall_cons; [exact Hfirst|].
      apply Forall_cons; [exact Hsecond | apply Forall_nil].
Qed.

Lemma framesOver_withinRanges (batches : list (list Update)) :
  forall vw : View,
    normalizedSamples batches -> withinRanges vw ->
    Forall frameWithinRanges (framesOver batches vw).
Proof.
  induction batches as [|b rest IH]; intros vw Hn Hv; simpl; [constructor|].
  inversion Hn as [|? ? Hb Hrest]; subst.
  destruct (commit_withinRanges Hb Hv) as [Hv' Hf].
  apply Forall_app. split; [exact Hf|]. now apply IH.
Qed.

(** X20. What the sphere and the bloom are given stays within the ranges
    the effect's comments state: over any history of commits after the
    mount in which every intensity sample lies in [0, 1], every rendered
    frame has an audio intensity in [0, 1], a brightness in [1, 3] and a bloom
    intensity in [1, 6]; and the phase number handed to the sphere is 0 or
    1 in every frame: the value 1.5 of [getPhaseNumber] for processing is
    never produced, because during processing the phase shown is the one
    remembered from before, which is only ever idle or listening. *)
Theorem frames_within_ranges (batches : list (list Update)) :
  normalizedSamples batches ->
  Forall frameWithinRanges (framesOver batches mounted).
Proof.
  intros Hn. apply framesOver_withinRanges; [exact Hn|].
  split; [|now left]. simpl. repeat split; Lqa.lra.
Qed.

Lemma frames_within_ranges_witness :
  Forall frameWithinRanges (framesOver Spec.sampleHistory mounted).
Proof.
  apply frames_within_ranges.
  repeat constructor; simpl; Lqa.lra.
Defined.

End FrameCoverage.

(* ===================================================================== *)
(** ** The speech synthesis route *)
(* ===================================================================== *)

Section AzureRouteCoverage.

Import Js JsString AzureTtsRoute.

Local Open Scope N_scope.

Lemma replaceAll_app (c : code_unit) (r a b : jsstring) :
  replaceAll c r (a ++ b) = replaceAll c r a ++ replaceAll c r b.
Proof. unfold replaceAll. apply flat_map_app. Qed.

Lemma escapeXml_app (a b : jsstring) : escapeXml (a ++ b) = escapeXml a ++ escapeXml b.
Proof. unfold escapeXml. now rewrite !replaceAll_app. Qed.

Lemma escapeXml_one (c : code_unit) : escapeXml [c] = escapeChar c.
Proof.
  unfold escapeXml, escapeChar, replaceAll at 5. simpl flat_map.
  destruct (c =? amp) eqn:E1; [reflexivity|].
  unfold replaceAll at 4. simpl flat_map. destruct (c =? lt) eqn:E2; [reflexivity|].
  unfold replaceAll at 3. simpl flat_map. destruct (c =? gt) eqn:E3; [reflexivity|].
  unfold replaceAll at 2. simpl flat_map. destruct (c =? quot) eqn:E4; [reflexivity|].
  unfold replaceAll. simpl flat_map. destruct (c =? apos) eqn:E5; reflexivity.
Qed.

Lemma escapeXml_cons (c : code_unit) (s : jsstring) :
  escapeXml (c :: s) = escapeChar c ++ escapeXml s.
Proof.
  change (c :: s) with ([c] ++ s). now rewrite escapeXml_app, escapeXml_one.
Qed.

Lemma escapeChar_cases (c : code_unit) :
  (c = amp /\ escapeChar c = js "&amp;")
  \/ (c = lt /\ escapeChar c = js "&lt;")
  \/ (c = gt /\ escapeChar c = js "&gt;")
  \/ (c = quot /\ escapeChar c = js "&quot;")
  \/ (c = apos /\ escapeChar c = js "&apos;")
  \/ (c <> amp /\ isMarkup c = false /\ escapeChar c = [c]).
Proof.
  unfold escapeChar, isMarkup.
  destruct (c =? amp) eqn:E1; [apply N.eqb_eq in E1; auto|].
  destruct (c =? lt) eqn:E2; [apply N.eqb_eq in E2; auto|].
  destruct (c =? gt) eqn:E3; [apply N.eqb_eq in E3; auto 6|].
  destruct (c =? quot) eqn:E4; [apply N.eqb_eq in E4; auto 7|].
  destruct (c =? apos) eqn:E5; [apply N.eqb_eq in E5; auto 8|].
  apply N.eqb_neq in E1. auto 10.
Qed.

Lemma unescapeXml_escapeChar (c : code_unit) (rest : jsstring) :
  unescapeXml (escapeChar c ++ rest) = c :: unescapeXml rest.
Proof.
  destruct (escapeChar_cases c)
    as [[E H]|[[E H]|[[E H]|[[E H]|[[E H]|(Hne & _ & H)]]]]]; rewrite H;
    try (subst c; reflexivity).
  simpl. apply N.eqb_neq in Hne. now rewrite Hne.
Qed.

(** X21. [escapeXml], though written as five replacements in a row, is an
    escape character by character (the ampersand first, so that no entity
    is escaped twice): its result contains none of the characters
    [<], [>], double quote and apostrophe; decoding the five entities gives
    the text back, so the escape loses nothing and different texts have
    different escapes; a text without the five characters passes through
    unchanged; and the result is never shorter than the text. *)
Theorem escapeXml_is_a_faithful_escape (s : jsstring) :
  escapeXml s = flat_map escapeChar s
  /\ Forall (fun c => isMarkup c = false) (escapeXml s)
  /\ unescapeXml (escapeXml s) = s
  /\ (forall s', escapeXml s' = escapeXml s -> s' = s)
  /\ (Forall (fun c => c <> amp /\ isMarkup c = false) s -> escapeXml s = s)
  /\ (List.length s <= List.length (escapeXml s))%nat.
Proof.
  assert (Hback : forall t, unescapeXml (escapeXml t) = t).
  { induction t as [|c t IH]; [reflexivity|].
    now rewrite escapeXml_cons, unescapeXml_escapeChar, IH. }
  split; [|split; [|split; [|split; [|split]]]].
  - induction s as [|c s IH]; [reflexivity|]. rewrite escapeXml_cons, IH. reflexivity.
  - induction s as [|c s IH]; [constructor|]. rewrite escapeXml_cons.
    apply Forall_app. split; [|exact IH].
    destruct (escapeChar_cases c)
      as [[E H]|[[E H]|[[E H]|[[E H]|[[E H]|(_ & Hm & H)]]]]]; rewrite H;
      try (repeat constructor).
    exact Hm.
  - apply Hback.
  - intros s' H. rewrite <- (Hback s'), H. apply Hback.
  - induction 1 as [|c t [Hc Hm] _ IH]; [reflexivity|].
    rewrite escapeXml_cons, IH.
    destruct (escapeChar_cases c)
      as [[E H]|[[E H]|[[E H]|[[E H]|[[E H]|(_ & _ & H)]]]]];
      [ contradiction | subst c; discriminate Hm | subst c; discriminate Hm
      | subst c; discriminate Hm | subst c; discriminate Hm | now rewrite H ].
  - induction s as [|c s IH]; [simpl; lia|]. rewrite escapeXml_cons, length_app. simpl.
    destruct (escapeChar_cases c)
      as [[E H]|[[E H]|[[E H]|[[E H]|[[E H]|(_ & _ & H)]]]]]; rewrite H; simpl; lia.
Qed.

Lemma escapeXml_is_a_faithful_escape_witness :
  escapeXml (js "a<b & 'c'") = js "a&lt;b &amp; &apos;c&apos;"
  /\ unescapeXml (escapeXml (js "a<b & 'c'")) = js "a<b & 'c'"
  /\ escapeXml (js "hello") = js "hello".
Proof.
  destruct (escapeXml_is_a_faithful_escape (js "a<b & 'c'")) as (H1 & _ & H3 & _).
  destruct (escapeXml_is_a_faithful_escape (js "hello")) as (_ & _ & _ & _ & H5 & _).
  split; [rewrite H1; reflexivity|]. split; [exact H3|].
  apply H5. repeat constructor; discriminate.
Defined.

End AzureRouteCoverage.

Section AzureRoutePost.

Import Js JsString AzureTtsRoute.

Local Open Scope N_scope.

Variable env : Env.
Variable issueToken : jsstring -> jsstring -> completion Reply.
Variable synthesize : jsstring -> jsstring -> jsstring -> jsstring -> completion Reply.
Variable refused : N -> JsError.

Lemma bindC_normal {A B} (c : completion A) (f : A -> completion B) (b : B) :
  bindC c f = Normal b -> exists a, c = Normal a /\ f a = Normal b.
Proof. destruct c as [a|e]; simpl; [eauto | discriminate]. Qed.

Lemma newResponse_normal (body : Payload) (st : N) (r : RouteResponse) :
  newResponse refused body st = Normal r ->
  r = {| status := st; payload := body |} /\ 200 <= st <= 599 /\ st <> 304.
Proof.
  unfold newResponse, nullBodyStatus.
  destruct ((200 <=? st) && (st <=? 599) && negb _) eqn:E; [|discriminate].
  intros H. inversion H. split; [reflexivity|].
  apply andb_true_iff in E as [E E3]. apply andb_true_iff in E as [E1 E2].
  apply N.leb_le in E1, E2. apply negb_true_iff in E3.
  apply orb_false_iff in E3 as [_ E3]. apply N.eqb_neq in E3. lia.
Qed.

Lemma error_response (msg : jsstring) (st : N) (r : RouteResponse) :
  newResponse refused (ErrorJson msg) st = Normal r ->
  (200 <=? st) && (st <=? 299) = false ->
  statusTellsBody r.
Proof.
  intros H Hno. apply newResponse_normal in H as [E [[H1 H2] H3]]. subst r.
  assert (Hst : 300 <= st).
  { apply N.leb_le in H1. rewrite H1 in Hno. simpl in Hno. apply N.leb_gt in Hno. lia. }
  unfold statusTellsBody, ok. simpl. rewrite Hno.
  split; [auto 7|]. split.
  - split; [discriminate | intros E; subst st; lia].
  - split; [intros E; subst st; lia | intros (a & ct & E); discriminate].
Qed.

Lemma audio_response (audio : list N) (ct : jsstring) (r : RouteResponse) :
  newResponse refused (AudioData audio ct) 200 = Normal r -> statusTellsBody r.
Proof.
  intros H. apply newResponse_normal in H as [E _]. subst r.
  unfold statusTellsBody, ok. simpl. split; [auto|]. split; [tauto|].
  split; [eauto | reflexivity].
Qed.

(** What the body of the [try] block returns, when it returns. *)
Lemma POST_try_block (b : Fields) (r : RouteResponse) :
  POST env issueToken synthesize refused (Normal b) = Normal r ->
  statusTellsBody r.
Proof.
  unfold POST. simpl bindC.
  match goal with
  | |- tryCatch ?body ?handler = _ -> _ =>
    assert (Hbody : forall r', body = Normal r' -> statusTellsBody r');
      [|assert (Hhandler : forall e r', handler e = Normal r' -> statusTellsBody r');
        [|destruct body as [r0|e] eqn:Eb; simpl; intros H;
          [inversion H; subst; now apply Hbody | now apply (Hhandler e)]]]
  end.
  - intros r' H.
    destruct (text b) as [|[|c t]|tr];
      try (now apply error_response in H).
    apply bindC_normal in H as (region_ & _ & H).
    apply bindC_normal in H as (key_ & _ & H).
    destruct (negb (truthy (trim region_)) || negb (truthy (trim key_)));
      [now apply error_response in H|].
    apply bindC_normal in H as (tokenRes & _ & H).
    destruct (negb (res_ok tokenRes)).
    { apply bindC_normal in H as (msg & _ & H). now apply error_response in H. }
    apply bindC_normal in H as (accessToken & _ & H).
    apply bindC_normal in H as (ttsRes & _ & H).
    destruct (negb (res_ok ttsRes)) eqn:Eok.
    + apply bindC_normal in H as (errText & _ & H).
      apply error_response in H; [exact H|].
      apply negb_true_iff in Eok. exact Eok.
    + apply bindC_normal in H as (audio & _ & H). now apply audio_response in H.
  - intros e r' H. now apply error_response in H.
Qed.

(** X22. The route never rejects, and its status tells what it carries:
    whatever the request body, the environment and the two upstream calls
    do, [POST] returns a response whose status is 200, 400, 401, 500 or
    the synthesis service's own status, which then lies between 300 and
    599 and is not 304 (a status the [Response] constructor refuses ends
    in the [catch] block, with 500); the response is ok exactly when its
    status is 200, and exactly then its body is audio; every other
    response carries a JSON error. *)
Theorem azure_route_status_and_body (body : completion Fields) :
  exists r,
    POST env issueToken synthesize refused body = Normal r
    /\ (status r = 200 \/ status r = 400 \/ status r = 401 \/ status r = 500
        \/ (300 <= status r <= 599 /\ status r <> 304))
    /\ (ok r = true <-> status r = 200)
    /\ (status r = 200 <-> exists audio contentType, payload r = AudioData audio contentType).
Proof.
  assert (Hfulfils : exists r, POST env issueToken synthesize refused body = Normal r).
  { unfold POST.
    match goal with
    | |- exists r, tryCatch ?c ?handler = _ =>
      destruct c as [r0|e]; simpl; [now exists r0|]
    end.
    eexists. reflexivity. }
  destruct Hfulfils as (r & Hr). exists r. split; [exact Hr|].
  destruct body as [b|e].
  - apply (POST_try_block b Hr).
  - unfold POST in Hr. simpl in Hr. now apply error_response in Hr.
Qed.

(** X23. Which failure the route reports, in the order of its checks and
    whatever the upstream services would answer: a body that cannot be read
    gives 500; a [text] that is missing, empty or not a string gives 400
    before the environment is looked at; with a text, a subscription key
    that is unset or empty gives 500 (the missing variable is reported by
    an exception), while a key or a region that is set but blank gives
    400. *)
Theorem azure_route_checks_in_order (b : Fields) :
  (forall e, exists msg,
      POST env issueToken synthesize refused (Throw e)
      = Normal {| status := 500; payload := ErrorJson msg |})
  /\ ((forall c t, text b <> Str (c :: t)) ->
      POST env issueToken synthesize refused (Normal b)
      = Normal {| status := 400; payload := ErrorJson missingText |})
  /\ (forall c t, text b = Str (c :: t) ->
      (AZURE_SPEECH_KEY env = None \/ AZURE_SPEECH_KEY env = Some [] ->
       POST env issueToken synthesize refused (Normal b)
       = Normal {| status := 500;
                   payload := ErrorJson (js "Missing required env var: AZURE_SPEECH_KEY") |})
      /\ (forall k region_,
             AZURE_SPEECH_KEY env = Some k -> k <> [] ->
             getEnv (AZURE_SPEECH_REGION env) (js "AZURE_SPEECH_REGION")
                    (Some (js "eastasia")) = Normal region_ ->
             trim k = [] \/ trim region_ = [] ->
             POST env issueToken synthesize refused (Normal b)
             = Normal {| status := 400;
                         payload := ErrorJson (js "Missing Azure Speech region or key") |})).
Proof.
  split; [|split].
  - intros e. unfold POST. simpl. eexists. reflexivity.
  - intros Hno. unfold POST. simpl.
    destruct (text b) as [|[|c t]|tr]; try reflexivity.
    exfalso. now apply (Hno c t).
  - intros c t Ht. split.
    + intros Hkey. unfold POST. simpl. rewrite Ht.
      destruct (getEnv (AZURE_SPEECH_REGION env) _ _) as [region_|e] eqn:Er.
      * simpl. destruct Hkey as [Hk|Hk]; rewrite Hk; reflexivity.
      * exfalso. unfold getEnv in Er.
        destruct (AZURE_SPEECH_REGION env) as [[|x r]|]; discriminate.
    + intros k region_ Hk Hne Er Hblank. unfold POST. simpl. rewrite Ht, Er, Hk. simpl.
      destruct k as [|x k]; [congruence|]. simpl.
      assert (E : negb (truthy (trim region_)) || negb (truthy (trim (x :: k))) = true).
      { destruct Hblank as [H|H]; rewrite H; simpl; [apply orb_true_r | reflexivity]. }
      rewrite E. reflexivity.
Qed.

End AzureRoutePost.

Section AzureRouteRuns.

Import Js JsString AzureTtsRoute.

Lemma azure_route_checks_in_order_witness :
  POST {| AZURE_SPEECH_REGION := None; AZURE_SPEECH_KEY := Some (js "  ") |}
       (fun _ _ => Throw NonError) (fun _ _ _ _ => Throw NonError) (fun _ => NonError)
       (Normal {| text := Str (js "hello"); voiceName := Undefined;
                  outputFormat := Undefined |})
  = Normal {| status := 400;
              payload := ErrorJson (js "Missing Azure Speech region or key") |}.
Proof.
  refine (proj2 (proj2 (proj2 (@azure_route_checks_in_order
            {| AZURE_SPEECH_REGION := None; AZURE_SPEECH_KEY := Some (js "  ") |}
            (fun _ _ => Throw NonError) (fun _ _ _ _ => Throw NonError) (fun _ => NonError)
            {| text := Str (js "hello"); voiceName := Undefined;
               outputFormat := Undefined |})) 104%N (js "ello") eq_refl)
          (js "  ") (js "eastasia") eq_refl _ eq_refl _).
  - discriminate.
  - left. reflexivity.
Defined.

End AzureRouteRuns.

(* ===================================================================== *)
(** ** The synthesis client, with and without fallback *)
(* ===================================================================== *)

Section SynthesisCoverage.

Import Js JsString AzureTTS.
Import AzureTtsRoute (Reply, res_status, res_text, res_arrayBuffer, res_ok).

Variable voiceName outputFormat : jsstring.
Variable fetch : jsstring -> jsstring -> jsstring -> completion Reply.
Variable prepare : list N -> completion unit.
Variable speechSynthesis : option (completion (list Voice)).

Lemma fallbackSpeak_fulfils (text : jsstring) :
  fst (Fallback.fallbackSpeak voiceName speechSynthesis text) = Normal tt
  /\ (speechSynthesis = None ->
      snd (Fallback.fallbackSpeak voiceName speechSynthesis text) = [])
  /\ (speechSynthesis <> None ->
      exists voice,
        snd (Fallback.fallbackSpeak voiceName speechSynthesis text)
        = [Utterance text voice (js "en-US")]).
Proof.
  unfold Fallback.fallbackSpeak. destruct speechSynthesis as [getVoices|]; simpl.
  - split; [reflexivity|]. split; [discriminate|]. intros _. eexists. reflexivity.
  - split; [reflexivity|]. split; [reflexivity|]. congruence.
Qed.

Lemma fallback_client_sounds (text : jsstring) :
  Fallback.synthesizeAndPlay voiceName outputFormat fetch prepare speechSynthesis text
  = (Normal tt,
     match azureAudio voiceName outputFormat fetch prepare text with
     | Some audio => [AzureAudio audio]
     | None => snd (Fallback.fallbackSpeak voiceName speechSynthesis text)
     end).
Proof.
  destruct (fallbackSpeak_fulfils text) as (Hf & _).
  unfold Fallback.synthesizeAndPlay, azureAudio, playAudio.
  destruct (Fallback.fallbackSpeak voiceName speechSynthesis text) as [c more] eqn:Ef.
  simpl in Hf. subst c.
  destruct (fetch text voiceName outputFormat) as [res|e]; simpl; [|reflexivity].
  destruct (res_ok res); simpl.
  - destruct (res_arrayBuffer res) as [audio|e]; simpl; [|reflexivity].
    destruct (prepare audio) as [[]|e]; reflexivity.
  - destruct (res_text res) as [err|e]; reflexivity.
Qed.

Lemma rethrowing_client_sounds (text : jsstring) :
  match azureAudio voiceName outputFormat fetch prepare text with
  | Some audio =>
    Rethrowing.synthesizeAndPlay voiceName outputFormat fetch prepare text
    = (Normal tt, [AzureAudio audio])
  | None =>
    exists e,
      Rethrowing.synthesizeAndPlay voiceName outputFormat fetch prepare text
      = (Throw e, [])
  end.
Proof.
  unfold Rethrowing.synthesizeAndPlay, azureAudio, playAudio.
  destruct (fetch text voiceName outputFormat) as [res|e]; simpl; [|eauto].
  destruct (res_ok res); simpl.
  - destruct (res_arrayBuffer res) as [audio|e]; simpl; [|eauto].
    destruct (prepare audio) as [[]|e]; eauto.
  - destruct (res_text res) as [err|e]; eauto.
Qed.


(** X25. The client that rethrows rejects exactly when no audio got
    through: [synthesizeAndPlay] fulfils, having played exactly the route's
    audio, when the route answered ok and its body could be read and
    decoded; in every other case (the request failed, the route answered
    with an error status, the body could not be read or not be decoded) it
    rejects, and nothing has sounded. *)
Theorem rethrowing_client_rejects_without_audio (text : jsstring) :
  let result := Rethrowing.synthesizeAndPlay voiceName outputFormat fetch prepare text in
  (forall audio,
      azureAudio voiceName outputFormat fetch prepare text = Some audio ->
      result = (Normal tt, [AzureAudio audio]))
  /\ (azureAudio voiceName outputFormat fetch prepare text = None ->
      exists e, result = (Throw e, []))
  /\ (fst result = Normal tt
      <-> exists audio, azureAudio voiceName outputFormat fetch prepare text = Some audio).
Proof.
  intros result. unfold result.
  pose proof (rethrowing_client_sounds text) as H.
  destruct (azureAudio voiceName outputFormat fetch prepare text) as [audio|].
  - rewrite H. split; [|split].
    + intros a E. inversion E. reflexivity.
    + discriminate.
    + simpl. split; [eauto | reflexivity].
  - destruct H as (e & H). rewrite H. split; [|split].
    + discriminate.
    + eauto.
    + simpl. split; [discriminate | intros (a & E); discriminate].
Qed.

End SynthesisCoverage.

Section SynthesisInTheTurn.

Import Js JsString VoiceInterface AzureTTS ConversationSpec.
Import AzureTtsRoute (Reply).

Variable fetch : jsstring -> jsstring -> jsstring -> completion Reply.
Variable prepare : list N -> completion unit.
Variable speechSynthesis : option (completion (list Voice)).
Variable generate : jsstring -> completion jsstring.

(** The log after a turn in a world that only answers. *)
Lemma turn_log_in (w : World) (speak : AzureTTSClient -> jsstring -> completion unit)
      (userText reply : jsstring) (s : Store) :
  (forall st, generateReplyW w userText st = (Normal reply, st)) ->
  (forall cl r st, synthesizeAndPlayW w cl r st = (speak cl r, st)) ->
  ttsClientRef s <> None ->
  transcripts (turnStore w userText s)
  = transcripts s
    ++ [assistantEntry
          (match speak {| voiceName := voiceName_for (TextGeneration.detectLanguage reply);
                          outputFormat := mp3Format |} reply with
           | Normal _ => reply
           | Throw _ => reply ++ audioFailed
           end)].
Proof.
  intros Hg Hs Htts. unfold turnStore. cbn.
  pose proof (Hg (setIsGeneratingIn true s)) as G.
  destruct (generateReplyW w userText (setIsGeneratingIn true s)) as [o s1].
  injection G as Go Gs. subst o.
  assert (T1 : transcripts s1 = transcripts s) by (now rewrite Gs).
  assert (C1 : ttsClientRef s1 = ttsClientRef s) by (now rewrite Gs).
  clear Gs. cbn.
  destruct (ttsClientRef s1) as [cl|]; [|congruence]. cbn.
  match goal with
  | |- context [synthesizeAndPlayW w ?a ?b ?c] =>
    pose proof (Hs a b c) as S; destruct (synthesizeAndPlayW w a b c) as [o s2]
  end.
  injection S as So Ss. subst o.
  assert (T2 : transcripts s2
               = transcripts s1 ++ [{| role := "assistant"; text := reply |}])
    by (now rewrite Ss).
  clear Ss.
  destruct (speak _ reply) as [[]|e]; cbn.
  - destruct (clientRef s2); cbn; rewrite T2, T1; reflexivity.
  - unfold slice_0_m1.
    destruct (clientRef s2); cbn; rewrite T2, removelast_last, T1; reflexivity.
Qed.

Lemma turn_log_with (speak : AzureTTSClient -> jsstring -> completion unit)
      (userText reply : jsstring) (s : Store) :
  generate userText = Normal reply ->
  ttsClientRef s <> None ->
  transcripts (turnStore (worldWith generate speak) userText s)
  = transcripts s
    ++ [assistantEntry
          (match speak {| voiceName := voiceName_for (TextGeneration.detectLanguage reply);
                          outputFormat := mp3Format |} reply with
           | Normal _ => reply
           | Throw _ => reply ++ audioFailed
           end)].
Proof.
  intros Hg Htts. apply turn_log_in.
  - intros st. simpl. now rewrite Hg.
  - reflexivity.
  - exact Htts.
Qed.

(** X26. Which client decides whether the log ever says "(audio failed)":
    in a turn whose generation yields a reply and that has a synthesis
    client, the request sent to the route names the voice of the reply's
    language; with the client that rethrows, the assistant entry is the
    reply when the audio got through and the reply followed by
    " (audio failed)" when it did not; with the client that falls back to
    the browser's speech synthesis, the entry is always the reply. *)
Theorem audio_failed_entry_by_client (userText reply : jsstring) (s : Store) :
  generate userText = Normal reply ->
  ttsClientRef s <> None ->
  let voice := voiceName_for (TextGeneration.detectLanguage reply) in
  transcripts
    (turnStore
       (worldWith generate
          (fun cl r => fst (Rethrowing.synthesizeAndPlay
                              (voiceName cl) (outputFormat cl) fetch prepare r)))
       userText s)
  = transcripts s
    ++ [assistantEntry
          (match azureAudio voice mp3Format fetch prepare reply with
           | Some _ => reply
           | None => reply ++ audioFailed
           end)]
  /\ transcripts
       (turnStore
          (worldWith generate
             (fun cl r => fst (Fallback.synthesizeAndPlay
                                 (voiceName cl) (outputFormat cl) fetch prepare
                                 speechSynthesis r)))
          userText s)
     = transcripts s ++ [assistantEntry reply].
Proof.
  intros Hg Htts voice. split.
  - rewrite (turn_log_with _ s Hg Htts). cbv beta. cbn [voiceName outputFormat].
    fold voice.
    pose proof (rethrowing_client_sounds voice mp3Format fetch prepare reply) as H.
    destruct (azureAudio voice mp3Format fetch prepare reply) as [audio|].
    + now rewrite H.
    + destruct H as (e & H). now rewrite H.
  - rewrite (turn_log_with _ s Hg Htts). cbv beta. cbn [voiceName outputFormat].
    now rewrite fallback_client_sounds.
Qed.

End SynthesisInTheTurn.

Section SynthesisRuns.

Import Js JsString VoiceInterface AzureTTS ConversationSpec.

Lemma audio_failed_entry_by_client_witness :
  transcripts
    (turnStore
       (worldWith (fun _ => Normal (js "I hear you."))
          (fun cl r => fst (Rethrowing.synthesizeAndPlay
                              (voiceName cl) (outputFormat cl)
                              (fun _ _ _ => Throw NonError) (fun _ => Normal tt) r)))
       (js "hello there") Spec.freshStore)
  = [assistantEntry (js "I hear you. (audio failed)")].
Proof.
  refine (proj1 (@audio_failed_entry_by_client
                   (fun _ _ _ => Throw NonError) (fun _ => Normal tt) None
                   (fun _ => Normal (js "I hear you."))
                   (js "hello there") (js "I hear you.") Spec.freshStore eq_refl _)).
  discriminate.
Defined.

End SynthesisRuns.

(* ===================================================================== *)
(** ** The analyser and the microphone *)
(* ===================================================================== *)

Section MediaCoverage.

Import MediaSession.

Lemma session_snoc (permission : bool) (restarts : list bool) (perm : bool) :
  session permission (restarts ++ [perm])
  = restartRecognition perm (endOfTurn (session permission restarts)).
Proof. unfold session. now rewrite fold_left_app. Qed.

Lemma endOfTurn_page (p : Page) :
  analysed (endOfTurn p) = analysed p
  /\ mediaStream (endOfTurn p) = None
  /\ granted (endOfTurn p) = granted p
  /\ (forall id, In id (stopped (endOfTurn p))
                 <-> In id (stopped p) \/ mediaStream p = Some id).
Proof.
  unfold endOfTurn, disconnect. destruct (mediaStream p) as [m|] eqn:Em; simpl.
  - split; [reflexivity|]. split; [reflexivity|]. split; [reflexivity|].
    intros id. split.
    + intros [H|H]; [right; now f_equal | now left].
    + intros [H|H]; [now right | left; now inversion H].
  - split; [reflexivity|]. split; [exact Em|]. split; [reflexivity|].
    intros id. split; [tauto | intros [H|H]; [exact H | discriminate]].
Qed.

Lemma session_invariant (permission : bool) (restarts : list bool) :
  let p := session permission restarts in
  analysed p = (if permission then [0%nat] else [])
  /\ (forall id, mediaStream p = Some id -> (id < granted p)%nat /\ ~ In id (stopped p))
  /\ (forall id, In id (stopped p) -> (id < granted p)%nat)
  /\ (forall id, (id < granted p)%nat -> In id (stopped p) \/ mediaStream p = Some id)
  /\ (restarts <> [] -> forall id, In id (analysed p) -> In id (stopped p)).
Proof.
  induction restarts as [|perm restarts IH] using rev_ind.
  - destruct permission; simpl.
    + split; [reflexivity|]. split; [|split; [|split]].
      * intros id H. inversion H; subst. split; [lia | tauto].
      * intros id [].
      * intros id H. right. f_equal. lia.
      * congruence.
    + split; [reflexivity|]. split; [|split; [|split]].
      * discriminate.
      * intros id [].
      * intros id H. lia.
      * congruence.
  - rewrite session_snoc. cbv zeta in IH |- *.
    destruct IH as (Ha & Hm & Hs & Hall & Hstopped).
    set (p := session permission restarts) in *.
    destruct (endOfTurn_page p) as (Ea & Em & Eg & Est).
    assert (Hfirst : forall id, In id (analysed p) -> In id (stopped (endOfTurn p))).
    { intros id Hin. apply Est.
      destruct restarts as [|r0 rs] using rev_ind.
      - right. rewrite Ha in Hin. destruct permission; [|contradiction].
        destruct Hin as [E|[]]; subst id. reflexivity.
      - left. apply Hstopped; [now destruct rs | exact Hin]. }
    unfold restartRecognition, connect. destruct perm; simpl.
    + rewrite Ea, Eg. split; [exact Ha|]. split; [|split; [|split]].
      * intros id H. inversion H; subst. split; [lia|].
        intros Hin. apply Est in Hin. destruct Hin as [Hin|Hin].
        -- apply Hs in Hin. lia.
        -- apply Hm in Hin. lia.
      * intros id Hin. apply Est in Hin. destruct Hin as [Hin|Hin].
        -- apply Hs in Hin. lia.
        -- apply Hm in Hin. lia.
      * intros id Hlt.
        destruct (Nat.eq_dec id (granted p)) as [E|E]; [right; now f_equal|].
        left. apply Est. apply Hall. lia.
      * intros _ id Hin. now apply Hfirst.
    + rewrite Ea, Em, Eg. split; [exact Ha|]. split; [|split; [|split]].
      * discriminate.
      * intros id Hin. apply Est in Hin. destruct Hin as [Hin|Hin].
        -- now apply Hs.
        -- now apply Hm.
      * intros id Hlt. left. apply Est. now apply Hall.
      * intros _ id Hin. now apply Hfirst.
Qed.

(** X27. The analyser keeps the first microphone stream: the stream the
    client got when the session started is the only one ever connected to
    the analyser; at the end of the first turn the client stops its tracks,
    and the restart gets a new stream that nothing connects to the
    analyser.  So through a whole session, whatever the microphone
    permission when it starts and at each restart, once a turn has ended
    every stream the analyser is connected to has been stopped and the
    stream the recognition client holds, if any, is not connected to the
    analyser; apart from that, every stream that was ever granted and that
    the client no longer holds has been stopped. *)
Theorem analyser_keeps_the_first_stream (permission : bool) (restarts : list bool) :
  let p := session permission restarts in
  analysed p = (if permission then [0%nat] else [])
  /\ (forall id, (id < granted p)%nat -> In id (stopped p) \/ mediaStream p = Some id)
  /\ (restarts <> [] ->
      (forall id, In id (analysed p) -> In id (stopped p))
      /\ (forall id, mediaStream p = Some id ->
                     ~ In id (analysed p) /\ ~ In id (stopped p))).
Proof.
  intros p. destruct (session_invariant permission restarts)
    as (Ha & Hm & _ & Hall & Hstopped). fold p in Ha, Hm, Hall, Hstopped.
  split; [exact Ha|]. split; [exact Hall|].
  intros Hne. split; [now apply Hstopped|].
  intros id Hid. destruct (Hm id Hid) as [_ Hns]. split; [|exact Hns].
  intros Hin. apply Hns. now apply Hstopped.
Qed.

Lemma analyser_keeps_the_first_stream_witness :
  let p := session true [true; true] in
  analysed p = [0%nat] /\ mediaStream p = Some 2%nat
  /\ (forall id, In id (analysed p) -> In id (stopped p))
  /\ (forall id, mediaStream p = Some id -> ~ In id (analysed p) /\ ~ In id (stopped p)).
Proof.
  intros p.
  destruct (analyser_keeps_the_first_stream true [true; true]) as (Ha & _ & H).
  destruct (H ltac:(discriminate)) as [H1 H2].
  split; [exact Ha|]. split; [reflexivity|]. split; assumption.
Defined.

End MediaCoverage.

(* ===================================================================== *)
(** ** The health check *)
(* ===================================================================== *)

Section HealthCoverage.

Import Js JsString HealthRoute.
Import GenerateReplyRoute (truthyOpt).

Local Open Scope N_scope.

Variable env : Env.
Variable openaiModels : jsstring -> Probe.
Variable groqModels : jsstring -> Probe.
Variable azureToken : jsstring -> jsstring -> Probe.
Variable deepgramMe : jsstring -> Probe.

Lemma probed_coherent (failed : jsstring) (probe : Probe) : coherent (probed failed probe).
Proof.
  unfold coherent, probed. destruct probe as [e|st text]; simpl.
  - split; [discriminate | auto].
  - destruct ((200 <=? st) && (st <=? 299)) eqn:E; simpl.
    + apply andb_true_iff in E as [E1 E2]. apply N.leb_le in E1, E2.
      split; [|discriminate]. intros _. split; [reflexivity|]. exists st. auto.
    + split; [discriminate|]. intros _. right. exists st. split; [reflexivity|].
      intros [H1 H2]. apply N.leb_le in H1, H2. rewrite H1, H2 in E. discriminate.
Qed.

Lemma missing_coherent (msg : jsstring) :
  coherent {| ok := false; status := None; error := Some msg |}.
Proof. unfold coherent. simpl. split; [discriminate | auto]. Qed.

Lemma falsy_cases (k : option jsstring) : truthyOpt k = false <-> k = None \/ k = Some [].
Proof.
  destruct k as [[|c r]|]; simpl; split; intros H; auto; try discriminate;
    destruct H as [H|H]; discriminate.
Qed.

(** X28. The health check and the routes read the configuration alike:
    [GET] never fails, and each status it reports is ok only together with
    a 2xx status and no error; the Deepgram entry is absent exactly when
    neither of its two keys is set; when the OpenAI and the Groq key are
    both unset or empty, both are reported missing whatever the probes
    would answer, and the reply route answers 429 to every request; when
    the Azure key is unset or empty it is reported missing, and the
    synthesis route answers every request that has a text with 500. *)
Theorem health_agrees_with_routes :
  let h := GET env openaiModels groqModels azureToken deepgramMe in
  (coherent (openai h) /\ coherent (groq h) /\ coherent (azureSpeech h)
   /\ forall s, deepgram h = Some s -> coherent s)
  /\ (deepgram h = None
      <-> truthyOpt (NEXT_PUBLIC_DEEPGRAM_API_KEY env) = false
          /\ truthyOpt (DEEPGRAM_API_KEY env) = false)
  /\ (truthyOpt (OPENAI_API_KEY env) = false ->
      truthyOpt (GROQ_API_KEY env) = false ->
      reportsMissing (openai h) (js "OPENAI_API_KEY")
      /\ reportsMissing (groq h) (js "GROQ_API_KEY")
      /\ forall provider up request,
          GenerateReplyRoute.POST
            {| GenerateReplyRoute.OPENAI_API_KEY := OPENAI_API_KEY env;
               GenerateReplyRoute.GROQ_API_KEY := GROQ_API_KEY env;
               GenerateReplyRoute.LLM_PROVIDER := provider |}
            up (Normal request)
          = GenerateReplyRoute.NextResponse_json 429 None)
  /\ (truthyOpt (AZURE_SPEECH_KEY env) = false ->
      reportsMissing (azureSpeech h) (js "AZURE_SPEECH_KEY")
      /\ forall issueToken synthesize refused c t voice format,
          AzureTtsRoute.POST
            {| AzureTtsRoute.AZURE_SPEECH_REGION := AZURE_SPEECH_REGION env;
               AzureTtsRoute.AZURE_SPEECH_KEY := AZURE_SPEECH_KEY env |}
            issueToken synthesize refused
            (Normal {| AzureTtsRoute.text := AzureTtsRoute.Str (c :: t);
                       AzureTtsRoute.voiceName := voice;
                       AzureTtsRoute.outputFormat := format |})
          = Normal {| AzureTtsRoute.status := 500;
                      AzureTtsRoute.payload :=
                        AzureTtsRoute.ErrorJson
                          (js "Missing required env var: AZURE_SPEECH_KEY") |}).
Proof.
  intros h. split; [|split; [|split]].
  - unfold h, GET, checkOpenAI, checkGroq, checkAzureSpeech, checkDeepgram. simpl.
    split; [|split; [|split]].
    + destruct (OPENAI_API_KEY env) as [[|c k]|];
        auto using probed_coherent, missing_coherent.
    + destruct (GROQ_API_KEY env) as [[|c k]|];
        auto using probed_coherent, missing_coherent.
    + destruct (AZURE_SPEECH_KEY env) as [[|c k]|];
        auto using probed_coherent, missing_coherent.
    + intros s.
      destruct (orElse _ _) as [[|c k]|]; try discriminate.
      intros H. inversion H. apply probed_coherent.
  - unfold h, GET, checkDeepgram, orElse. simpl.
    destruct (NEXT_PUBLIC_DEEPGRAM_API_KEY env) as [[|c k]|]; simpl;
      destruct (DEEPGRAM_API_KEY env) as [[|c' k']|]; simpl;
        split; intros H; try reflexivity; try discriminate; auto;
          destruct H; discriminate.
  - intros Ho Hg. apply falsy_cases in Ho, Hg.
    unfold h, GET, checkOpenAI, checkGroq, reportsMissing. simpl.
    split; [|split].
    + destruct Ho as [E|E]; rewrite E; reflexivity.
    + destruct Hg as [E|E]; rewrite E; reflexivity.
    + intros provider up request. unfold GenerateReplyRoute.POST. simpl.
      unfold GenerateReplyRoute.tryOpenAI, GenerateReplyRoute.tryGroq. simpl.
      destruct Ho as [Eo|Eo]; rewrite Eo; destruct Hg as [Eg|Eg]; rewrite Eg; simpl;
        destruct (GenerateReplyRoute.jsstring_eqb _ _); reflexivity.
  - intros Ha. apply falsy_cases in Ha.
    unfold h, GET, checkAzureSpeech, reportsMissing. simpl. split.
    + destruct Ha as [E|E]; rewrite E; reflexivity.
    + intros issueToken synthesize refused c t voice format.
      unfold AzureTtsRoute.POST. simpl.
      destruct (AzureTtsRoute.getEnv (AZURE_SPEECH_REGION env) _ _) as [region_|e] eqn:Er.
      * simpl. destruct Ha as [E|E]; rewrite E; reflexivity.
      * exfalso. unfold AzureTtsRoute.getEnv in Er.
        destruct (AZURE_SPEECH_REGION env) as [[|x r]|]; discriminate.
Qed.

End HealthCoverage.

(* ===================================================================== *)
(** ** The sphere's uniforms *)
(* ===================================================================== *)

Section GlowCoverage.

Import GlowSphere.

Local Open Scope Q_scope.

Lemma lerp_between (lo hi u target t : Q) :
  0 <= t -> t <= 1 -> lo <= u -> u <= hi -> lo <= target -> target <= hi ->
  lo <= lerp u target t /\ lerp u target t <= hi.
Proof.
  intros Ht0 Ht1 Hl Hh Hl' Hh'. unfold lerp. split; Lqa.nra.
Qed.

Lemma useFrame_withinRanges (elapsedTime : Q) (props : Props) (s : Scene) :
  propsWithinRanges props -> sceneWithinRanges s ->
  sceneWithinRanges (useFrame elapsedTime props s).
Proof.
  intros (A0 & A1 & P0 & P1 & B0 & B1) (U0 & U1 & V0 & V1 & W0 & W1 & Sx & Sy & Sz).
  unfold sceneWithinRanges, useFrame, within, lerp, Vector3_lerp. simpl.
  repeat split; Lqa.lra.
Qed.

Lemma animate_withinRanges (frames : list (Q * Props)) :
  forall s : Scene,
    Forall (fun f => propsWithinRanges (snd f)) frames ->
    sceneWithinRanges s ->
    sceneWithinRanges (animate frames s).
Proof.
  unfold animate.
  induction frames as [|f frames IH]; intros s Hall Hs; simpl; [exact Hs|].
  inversion Hall as [|? ? Hf Hrest]; subst.
  apply IH; [exact Hrest|]. now apply useFrame_withinRanges.
Qed.

Lemma frame_props_within_ranges (f : VoiceInterface.Frame) :
  ConversationSpec.frameWithinRanges f -> propsWithinRanges (propsOf f).
Proof.
  intros [(A0 & A1 & B0 & B1 & _) Hp]. unfold propsWithinRanges, propsOf. simpl.
  repeat split; try assumption; destruct Hp as [E|E]; rewrite E; Lqa.lra.
Qed.

(** X29. The smoothing of the sphere stays within bounds and never
    overshoots: over any history of commits of the orchestrator whose
    intensity samples lie in [0, 1], and any sequence of animation frames
    each of which runs with the props of one of the rendered frames, the
    uniforms stay in the ranges of the props (audio intensity and phase in
    [0, 1], brightness in [1, 3]) and each component of the scale stays in
    [1, 1.9]; and in each frame the distance of a uniform to its target
    shrinks by the fixed factor of its smoothing (0.9 for the audio
    intensity, 0.95 for the phase, 0.94 for the brightness), keeping its
    sign. *)
Theorem sphere_smoothing_within_bounds
        (batches : list (list VoiceInterface.Update))
        (frames : list (Q * Props)) (elapsedTime : Q) (props : Props) :
  ConversationSpec.normalizedSamples batches ->
  Forall (fun f => exists rendered,
              In rendered (ConversationSpec.framesOver batches VoiceInterface.mounted)
              /\ snd f = propsOf rendered) frames ->
  let s := animate frames mountedScene in
  let s' := useFrame elapsedTime props s in
  sceneWithinRanges s
  /\ uAudioIntensity s' - audioIntensity props
     == 0.9 * (uAudioIntensity s - audioIntensity props)
  /\ uPhase s' - phase props == 0.95 * (uPhase s - phase props)
  /\ uBrightness s' - brightness props == 0.94 * (uBrightness s - brightness props).
Proof.
  intros Hn Hall s s'. split; [|split; [|split]].
  - apply animate_withinRanges.
    + pose proof (@framesOver_withinRanges batches VoiceInterface.mounted Hn) as Hr.
      assert (Hm : ConversationSpec.withinRanges VoiceInterface.mounted).
      { split; [|now left]. simpl. repeat split; Lqa.lra. }
      specialize (Hr Hm). rewrite Forall_forall in Hr.
      eapply Forall_impl; [|exact Hall]. simpl.
      intros f (rendered & Hin & E). rewrite E.
      apply frame_props_within_ranges. now apply Hr.
    + unfold sceneWithinRanges, within. simpl. repeat split; Lqa.lra.
  - unfold s', useFrame, lerp. simpl. Lqa.lra.
  - unfold s', useFrame, lerp. simpl. Lqa.lra.
  - unfold s', useFrame, lerp. simpl. Lqa.lra.
Qed.

Lemma sphere_smoothing_within_bounds_witness :
  let rendered :=
    VoiceInterface.render VoiceInterface.listening 0
                          (VoiceInterface.visual VoiceInterface.mounted) in
  sceneWithinRanges (animate [(0, propsOf rendered); (1 # 60, propsOf rendered)]
                             mountedScene).
Proof.
  intros rendered.
  refine (proj1 (@sphere_smoothing_within_bounds
                   Spec.sampleHistory
                   [(0, propsOf rendered); (1 # 60, propsOf rendered)]
                   0 {| audioIntensity := 0; phase := 0; brightness := 1 |} _ _)).
  - repeat constructor; simpl; Lqa.lra.
  - repeat (apply Forall_cons;
            [exists rendered; split; [left; reflexivity | reflexivity]|]).
    apply Forall_nil.
Defined.

End GlowCoverage.
